(** * csp-web-checker: the probe orchestration and violation aggregation core

    A shallow embedding of [main.go] (the Go web front end) and of the
    per-page deduplication of [csp-check.mjs] (the browser probe), with the
    properties of the specification stated and proved over it.

    Conventions.
    - A Go [string] is a sequence of bytes: [string] of the Standard Library.
    - A Go [int] is a [Z]; the only arithmetic on it is the [Count++] of
      [groupViolations], bounded by the number of violations held in memory.
    - A Go [map] is a [gmap]; [for ... range m] visits it in an order the
      language leaves open, which [range] below makes explicit.
    - A Go [*int] that is only ever read is an [option Z]. *)

From Stdlib Require Import ZArith Ascii String List Permutation Sorted Lia Bool.
From Stdlib Require Import DecimalString.
From stdpp Require Import base option list gmap strings sorting.

Local Open Scope Z_scope.

(** ** The package [strings] of Go, over byte strings *)

Module GoStrings.

Fixpoint length (s : string) : nat :=
  match s with
  | EmptyString => O
  | String _ s' => S (length s')
  end.

(** [s[:n]] *)
Fixpoint take (n : nat) (s : string) : string :=
  match n, s with
  | S n', String a s' => String a (take n' s')
  | _, _ => EmptyString
  end.

(** [s[n:]] *)
Fixpoint drop (n : nat) (s : string) : string :=
  match n, s with
  | S n', String _ s' => drop n' s'
  | _, _ => s
  end.

(** [strings.HasPrefix(s, prefix)] *)
Fixpoint HasPrefix (s prefix : string) {struct prefix} : bool :=
  match prefix, s with
  | EmptyString, _ => true
  | String p prefix', String a s' => Ascii.eqb a p && HasPrefix s' prefix'
  | String _ _, EmptyString => false
  end.

(** [strings.Index(s, substr)]: the byte offset of the first occurrence,
    [-1] when there is none. *)
Fixpoint Index (s substr : string) : Z :=
  if HasPrefix s substr then 0
  else match s with
       | EmptyString => -1
       | String _ s' => let i := Index s' substr in
                        if i <? 0 then -1 else i + 1
       end.

(** [strings.Contains(s, substr)] is [Index(s, substr) >= 0]. *)
Definition Contains (s substr : string) : bool := 0 <=? Index s substr.

(** [strings.Split(s, sep)] for a separator that is not empty: the pieces
    between the non-overlapping occurrences of [sep], leftmost first.
    [skip] counts the bytes of the occurrence being stepped over. *)
Fixpoint split_from (sep : string) (skip : nat) (s : string) : list string :=
  match s with
  | EmptyString => [EmptyString]
  | String a s' =>
      match skip with
      | S k => split_from sep k s'
      | O =>
          if HasPrefix s sep
          then EmptyString :: split_from sep (Nat.pred (length sep)) s'
          else match split_from sep O s' with
               | p :: ps => String a p :: ps
               | [] => [String a EmptyString]
               end
      end
  end.

Definition Split (s sep : string) : list string := split_from sep O s.

(** The UTF-8 encodings of the runes for which [unicode.IsSpace] holds:
    tab, line feed, vertical tab, form feed, carriage return, space,
    U+0085, U+00A0, U+1680, U+2000 to U+200A, U+2028, U+2029, U+202F,
    U+205F and U+3000. *)
Definition bytes (l : list nat) : string :=
  string_of_list_ascii (List.map ascii_of_nat l).

Definition spaces : list string :=
  List.map bytes
    [ [9]; [10]; [11]; [12]; [13]; [32];
      [194; 133]; [194; 160]; [225; 154; 128];
      [226; 128; 128]; [226; 128; 129]; [226; 128; 130]; [226; 128; 131];
      [226; 128; 132]; [226; 128; 133]; [226; 128; 134]; [226; 128; 135];
      [226; 128; 136]; [226; 128; 137]; [226; 128; 138];
      [226; 128; 168]; [226; 128; 169]; [226; 128; 175];
      [226; 129; 159]; [227; 128; 128] ]%nat.

(** One decoding step of [TrimLeftFunc(s, unicode.IsSpace)]: the rest of
    [s] when it starts with a white-space rune of the table. *)
Fixpoint leading (table : list string) (s : string) : option string :=
  match table with
  | [] => None
  | w :: table' =>
      if HasPrefix s w then Some (drop (length w) s) else leading table' s
  end.

Fixpoint trim_loop (table : list string) (fuel : nat) (s : string) : string :=
  match fuel with
  | O => s
  | S fuel' =>
      match leading table s with
      | Some s' => trim_loop table fuel' s'
      | None => s
      end
  end.

Definition TrimLeftSpace (s : string) : string :=
  trim_loop spaces (length s) s.

(** [TrimRightFunc] decodes from the end; on the reversed bytes that is
    the same loop over the reversed encodings. *)
Definition TrimRightSpace (s : string) : string :=
  String.rev (trim_loop (List.map String.rev spaces) (length s) (String.rev s)).

(** [strings.TrimSpace(s)] *)
Definition TrimSpace (s : string) : string :=
  TrimRightSpace (TrimLeftSpace s).

(** [strings.ToLower(s)] on ASCII letters; a byte outside [A-Z] is kept.
    (Go sends the runes beyond ASCII through [unicode.ToLower]; the
    vocabulary compared against below is ASCII.) *)
Definition lower_byte (a : ascii) : ascii :=
  let n := nat_of_ascii a in
  if (65 <=? n)%nat && (n <=? 90)%nat then ascii_of_nat (n + 32) else a.

Fixpoint ToLower (s : string) : string :=
  match s with
  | EmptyString => EmptyString
  | String a s' => String (lower_byte a) (ToLower s')
  end.

End GoStrings.

(** ** Iterating over a Go map

  [for k, v := range m] visits the entries of [m] in an order that the
  language does not specify and that may change from one loop to the next.
  A loop is therefore run under a schedule: a list of picks, each choosing
  the next entry (by position, modulo the number left) among those not yet
  visited. Every schedule yields a permutation of the entries, and every
  permutation is the result of some schedule. *)

Section Range.
Context {A : Type}.

Fixpoint range (schedule : list nat) (entries : list A) : list A :=
  match schedule with
  | [] => entries
  | pick :: schedule' =>
      let i := (pick mod List.length entries)%nat in
      match entries !! i with
      | Some x => x :: range schedule' (delete i entries)
      | None => entries
      end
  end.
End Range.

(** ** The in-place exchange sort of [groupViolations] and of the engine names

<<
  for i := 0; i < len(a); i++ {
      for j := i + 1; j < len(a); j++ {
          if before(a[j], a[i]) { a[i], a[j] = a[j], a[i] }
      }
  }
>>
  [before y x] is the test of the [if], applied to [a[j]] and [a[i]]. *)

Section ExchangeSort.
Context {A : Type} (before : A → A → bool).

(** The body of the inner loop. *)
Definition exchange (i j : nat) (a : list A) : list A :=
  match a !! i, a !! j with
  | Some x, Some y => if before y x then <[i:=y]> (<[j:=x]> a) else a
  | _, _ => a
  end.

(** The inner loop from [j], with [n] iterations left. *)
Fixpoint inner_loop (i j n : nat) (a : list A) : list A :=
  match n with
  | O => a
  | S n' => inner_loop i (S j) n' (exchange i j a)
  end.

(** The outer loop from [i], with [n] iterations left. *)
Fixpoint outer_loop (i n : nat) (a : list A) : list A :=
  match n with
  | O => a
  | S n' =>
      outer_loop (S i) n' (inner_loop i (S i) (List.length a - S i) a)
  end.

Definition exchange_sort (a : list A) : list A :=
  outer_loop 0 (List.length a) a.

(** What one run of the inner loop does to [a[i]] and to the elements
    after it, and the whole sort, by recursion on the list. *)
Fixpoint select (x : A) (rest : list A) : A * list A :=
  match rest with
  | [] => (x, [])
  | y :: rest' =>
      if before y x
      then let '(m, r) := select y rest' in (m, x :: r)
      else let '(m, r) := select x rest' in (m, y :: r)
      end.

Fixpoint selection (n : nat) (l : list A) : list A :=
  match n, l with
  | S n', x :: rest => let '(m, r) := select x rest in m :: selection n' r
  | _, _ => l
  end.
End ExchangeSort.

Import GoStrings.

(** ** The data model of [main.go] *)

Module Violation.
Record t := mk {
  DocumentURI : string;
  Referrer : string;
  BlockedURI : string;
  BlockedOrigin : string;
  EffectiveDirective : string;
  ViolatedDirective : string;
  OriginalPolicy : string;
  Disposition : string;
  StatusCode : option Z;
  SourceFile : string;
  LineNumber : option Z;
  ColumnNumber : option Z;
  Sample : string
}.
End Violation.
Abbreviation Violation := Violation.t.

Module ReportPageResult.
Record t := mk {
  URL : string;
  Status : option Z;
  OK : bool;
  Error : string;
  DurationMs : Z;
  Violations : list Violation
}.
End ReportPageResult.
Abbreviation ReportPageResult := ReportPageResult.t.

Module GroupedViolation.
Record t := mk {
  Key : string;
  EffectiveDirective : string;
  BlockedOrigin : string;
  Count : Z;
  Pages : gmap string (list Violation)
}.
End GroupedViolation.
Abbreviation GroupedViolation := GroupedViolation.t.

Module MergedGroup.
Record t := mk {
  Group : GroupedViolation;
  Browsers : list string
}.
End MergedGroup.
Abbreviation MergedGroup := MergedGroup.t.

(** [map[string]any]: the dynamic values that [main.go] itself stores. *)
Inductive any :=
  | any_string (s : string)
  | any_int (n : Z)
  | any_bool (b : bool).

Module ReportTotals.
Record t := mk {
  Pages : Z;
  Violations : Z
}.
End ReportTotals.
Abbreviation ReportTotals := ReportTotals.t.

Module Report.
Record t := mk {
  GeneratedAt : string;
  Config : gmap string any;
  Totals : ReportTotals;
  Results : list ReportPageResult;
  BaseURL : string
}.
End Report.
Abbreviation Report := Report.t.

Module BrowserReport.
Record t := mk {
  Name : string;
  Report : Report.t;
  Groups : list GroupedViolation;
  Warns : list GroupedViolation
}.
End BrowserReport.
Abbreviation BrowserReport := BrowserReport.t.

Module MultiReport.
Record t := mk {
  GeneratedAt : string;
  Config : gmap string any;
  Browsers : gmap string Report
}.
End MultiReport.
Abbreviation MultiReport := MultiReport.t.

Module CSPConfig.
Record t := mk {
  WaitUntil : string;
  NavTimeoutMs : Z;
  SettleWaitMs : Z;
  Concurrency : Z;
  BetweenURLMs : Z;
  UserAgent : string;
  AcceptLanguage : string;
  Browser : string
}.
End CSPConfig.
Abbreviation CSPConfig := CSPConfig.t.

(** ** The violation aggregation engine *)

(** [fmt.Sprintf("%s -> %s", v.EffectiveDirective, v.BlockedOrigin)] *)
Definition groupKey (v : Violation) : string :=
  Violation.EffectiveDirective v +:+ " -> " +:+ Violation.BlockedOrigin v.

(** The body of the inner loop of [groupViolations]: find or create the
    group of the key, then [g.Count++] and
    [g.Pages[r.URL] = append(g.Pages[r.URL], v)] through the pointer. *)
Definition addViolation (url : string)
    (groups : gmap string GroupedViolation) (v : Violation)
    : gmap string GroupedViolation :=
  let key := groupKey v in
  let g :=
    match groups !! key with
    | Some g => g
    | None =>
        GroupedViolation.mk key (Violation.EffectiveDirective v)
          (Violation.BlockedOrigin v) 0 ∅
    end in
  <[key :=
      GroupedViolation.mk
        (GroupedViolation.Key g)
        (GroupedViolation.EffectiveDirective g)
        (GroupedViolation.BlockedOrigin g)
        (GroupedViolation.Count g + 1)
        (<[url := default [] (GroupedViolation.Pages g !! url) ++ [v]]>
           (GroupedViolation.Pages g))]> groups.

(** The first loop nest of [groupViolations]. *)
Definition buildGroups (results : list ReportPageResult)
    : gmap string GroupedViolation :=
  fold_left
    (λ groups r,
       fold_left (addViolation (ReportPageResult.URL r))
         (ReportPageResult.Violations r) groups)
    results ∅.

(** [ordered[j].Count > ordered[i].Count] *)
Definition moreFrequent (y x : GroupedViolation) : bool :=
  GroupedViolation.Count x <? GroupedViolation.Count y.

(** [groupViolations]: [ordered] is filled by ranging over the map under
    [schedule], then sorted in place. *)
Definition groupViolations (schedule : list nat)
    (results : list ReportPageResult) : list GroupedViolation :=
  let groups := buildGroups results in
  let ordered := range schedule (map_to_list groups).*2 in
  exchange_sort moreFrequent ordered.

(** [isDisposition] *)
Definition isDisposition (actual want : string) : bool :=
  let a := ToLower (TrimSpace actual) in
  if String.eqb want "report-only"
  then Contains a "report"
  else String.eqb a "" || String.eqb a "enforce".

(** The page copy [nr] of the filtering loops: [r] with the violations of
    the wanted disposition only. *)
Definition keepDisposition (disposition : string) (r : ReportPageResult)
    : ReportPageResult :=
  ReportPageResult.mk
    (ReportPageResult.URL r) (ReportPageResult.Status r)
    (ReportPageResult.OK r) (ReportPageResult.Error r)
    (ReportPageResult.DurationMs r)
    (List.filter
       (λ v, isDisposition (Violation.Disposition v) disposition)
       (ReportPageResult.Violations r)).

(** [len(nr.Violations) > 0] *)
Definition hasViolations (r : ReportPageResult) : bool :=
  (0 <? List.length (ReportPageResult.Violations r))%nat.

(** The loop of [groupViolationsByDisposition]. *)
Definition filterByDisposition (results : list ReportPageResult)
    (disposition : string) : list ReportPageResult :=
  List.filter hasViolations (List.map (keepDisposition disposition) results).

(** [groupViolationsByDisposition] *)
Definition groupViolationsByDisposition (schedule : list nat)
    (results : list ReportPageResult) (disposition : string)
    : list GroupedViolation :=
  groupViolations schedule (filterByDisposition results disposition).

(** [groupBrowsers[key][b.Name] = struct{}{}], creating the inner set when
    the key is new. *)
Definition noteBrowser (name : string)
    (groupBrowsers : gmap string (gset string)) (v : Violation)
    : gmap string (gset string) :=
  let key := groupKey v in
  <[key := {[name]} ∪ default ∅ (groupBrowsers !! key)]> groupBrowsers.

(** The first loop nest of [groupViolationsMulti]: the pool [all] of pages
    and the engines seen for each key. *)
Definition poolPages (browsers : list BrowserReport)
    : list ReportPageResult * gmap string (gset string) :=
  fold_left
    (λ st b,
       fold_left
         (λ '(all, groupBrowsers) r,
            (all ++ [r],
             fold_left (noteBrowser (BrowserReport.Name b))
               (ReportPageResult.Violations r) groupBrowsers))
         (Report.Results (BrowserReport.Report b)) st)
    browsers ([], ∅).

(** The same with the disposition filter of
    [groupViolationsMultiByDisposition]. *)
Definition poolPagesByDisposition (browsers : list BrowserReport)
    (disposition : string)
    : list ReportPageResult * gmap string (gset string) :=
  fold_left
    (λ st b,
       fold_left
         (λ '(all, groupBrowsers) r,
            let nr := keepDisposition disposition r in
            (if hasViolations nr then all ++ [nr] else all,
             fold_left (noteBrowser (BrowserReport.Name b))
               (ReportPageResult.Violations nr) groupBrowsers))
         (Report.Results (BrowserReport.Report b)) st)
    browsers ([], ∅).

(** [names[j] < names[i]] on Go strings: byte-wise lexicographic order. *)
Definition nameBefore (y x : string) : bool := String.ltb y x.

(** The second loop of both merges: for the [k]-th group, range over the
    engines of its key under the schedule [schedules k], sort the names. *)
Definition attachBrowsers (schedules : nat → list nat)
    (groupBrowsers : gmap string (gset string))
    (grouped : list GroupedViolation) : list MergedGroup :=
  imap
    (λ k g,
       let names :=
         range (schedules k)
           (elements (default ∅ (groupBrowsers !! GroupedViolation.Key g))) in
       MergedGroup.mk g (exchange_sort nameBefore names))
    grouped.

(** [groupViolationsMulti] *)
Definition groupViolationsMulti (schedule : list nat)
    (schedules : nat → list nat) (browsers : list BrowserReport)
    : list MergedGroup :=
  let '(all, groupBrowsers) := poolPages browsers in
  attachBrowsers schedules groupBrowsers (groupViolations schedule all).

(** [groupViolationsMultiByDisposition] *)
Definition groupViolationsMultiByDisposition (schedule : list nat)
    (schedules : nat → list nat) (browsers : list BrowserReport)
    (disposition : string) : list MergedGroup :=
  let '(all, groupBrowsers) := poolPagesByDisposition browsers disposition in
  attachBrowsers schedules groupBrowsers (groupViolations schedule all).

(** ** The package [net/url] of Go

    [url.Parse] and [URL.String] for the URLs that need no percent
    escape: the scheme, the authority with its optional user information and
    port, the path, the query and the fragment are split, checked and put
    together again as [net/url] does. Beyond such URLs the two differ from
    the package: a [%] escape is carried as it is written, neither decoded
    nor checked; a path, a host or a user information with a byte that
    [URL.String] escapes is written as it stands; and the host is checked
    for its bytes and its port only. The properties below that rest on
    these two functions are stated where they agree with the package. *)

Module url.

Record URL := mk {
  Scheme : string;
  Opaque : string;
  User : option string;
  Host : string;
  Path : string;
  OmitHost : bool;
  ForceQuery : bool;
  RawQuery : string;
  Fragment : string
}.

Definition byte_in (lo hi : nat) (c : ascii) : bool :=
  let n := nat_of_ascii c in (lo <=? n)%nat && (n <=? hi)%nat.

Definition is_letter (c : ascii) : bool := byte_in 97 122 c || byte_in 65 90 c.
Definition is_digit (c : ascii) : bool := byte_in 48 57 c.

(** [strings.Cut(s, sep)] for a one-byte separator. *)
Fixpoint Cut (s : string) (sep : ascii) : string * string * bool :=
  match s with
  | EmptyString => (EmptyString, EmptyString, false)
  | String a s' =>
      if Ascii.eqb a sep then (EmptyString, s', true)
      else let '(before, after, found) := Cut s' sep in
           (String a before, after, found)
  end.

(** The split at the last occurrence of a byte ([strings.LastIndex]). *)
Definition CutLast (s : string) (sep : ascii) : string * string * bool :=
  let '(after, before, found) := Cut (String.rev s) sep in
  if found then (String.rev before, String.rev after, true)
  else (s, EmptyString, false).

Fixpoint all_bytes (p : ascii → bool) (s : string) : bool :=
  match s with
  | EmptyString => true
  | String a s' => p a && all_bytes p s'
  end.

(** [stringContainsCTLByte] *)
Definition stringContainsCTLByte (s : string) : bool :=
  negb (all_bytes (λ c, negb (byte_in 0 31 c || Ascii.eqb c (ascii_of_nat 127))) s).

(** [getScheme]: [None] is the error [missing protocol scheme]. *)
Fixpoint getScheme_from (first : bool) (seen rest : string)
    (rawURL : string) : option (string * string) :=
  match rest with
  | EmptyString => Some (EmptyString, rawURL)
  | String c rest' =>
      if is_letter c then getScheme_from false (String c seen) rest' rawURL
      else if is_digit c || Ascii.eqb c "+" || Ascii.eqb c "-" || Ascii.eqb c "."
      then if first then Some (EmptyString, rawURL)
           else getScheme_from false (String c seen) rest' rawURL
      else if Ascii.eqb c ":"
      then if first then None else Some (String.rev seen, rest')
      else Some (EmptyString, rawURL)
  end.

Definition getScheme (rawURL : string) : option (string * string) :=
  getScheme_from true EmptyString rawURL rawURL.

(** [validOptionalPort] *)
Definition validOptionalPort (port : string) : bool :=
  match port with
  | EmptyString => true
  | String c digits => Ascii.eqb c ":" && all_bytes is_digit digits
  end.

(** The bytes that [shouldEscape(c, encodeHost)] lets through, and [%]. *)
Definition host_byte (c : ascii) : bool :=
  is_letter c || is_digit c || byte_in 128 255 c
  || existsb (Ascii.eqb c)
       (list_ascii_of_string "-_.~!$&'()*+,;=:[]<>%")
  || Ascii.eqb c (ascii_of_nat 34).

(** [parseHost] *)
Definition parseHost (host : string) : option string :=
  if HasPrefix host "["
  then let '(_, colonPort, found) := CutLast host "]" in
       if found && validOptionalPort colonPort && all_bytes host_byte host
       then Some host else None
  else let '(_, port, found) := CutLast host ":" in
       if (negb found || all_bytes is_digit port) && all_bytes host_byte host
       then Some host else None.

(** [validUserinfo] *)
Definition validUserinfo (s : string) : bool :=
  all_bytes
    (λ c, is_letter c || is_digit c
          || existsb (Ascii.eqb c) (list_ascii_of_string "-._:~!$&'()*+,;=%@"))
    s.

(** [parseAuthority]: the user information is what precedes the last [@]. *)
Definition parseAuthority (authority : string)
    : option (option string * string) :=
  let '(userinfo, host, found) := CutLast authority "@" in
  if found
  then match parseHost host with
       | Some h => if validUserinfo userinfo then Some (Some userinfo, h)
                   else None
       | None => None
       end
  else match parseHost authority with
       | Some h => Some (None, h)
       | None => None
       end.

Fixpoint Count (s : string) (c : ascii) : nat :=
  match s with
  | EmptyString => O
  | String a s' => ((if Ascii.eqb a c then 1 else 0) + Count s' c)%nat
  end.

Definition HasSuffix (s suffix : string) : bool :=
  HasPrefix (String.rev s) (String.rev suffix).

(** [parse(rawURL, false)]: [None] is an error. *)
Definition parse (rawURL : string) : option URL :=
  if stringContainsCTLByte rawURL then None
  else if String.eqb rawURL "*"
  then Some (mk "" "" None "" "*" false false "" "")
  else
    match getScheme rawURL with
    | None => None
    | Some (scheme, rest) =>
        let scheme := ToLower scheme in
        let '(rest, forceQuery, rawQuery) :=
          if HasSuffix rest "?" && (Count rest "?" =? 1)%nat
          then (take (Nat.pred (length rest)) rest, true, EmptyString)
          else let '(before, after, _) := Cut rest "?" in (before, false, after) in
        if negb (HasPrefix rest "/")
        then
          if negb (String.eqb scheme "")
          then Some (mk scheme rest None "" "" false forceQuery rawQuery "")
          else
            let '(segment, _, _) := Cut rest "/" in
            if (0 <? Count segment ":")%nat then None
            else Some (mk scheme "" None "" rest false forceQuery rawQuery "")
        else if (negb (String.eqb scheme "") || negb (HasPrefix rest "///"))
                && HasPrefix rest "//"
        then
          let '(authority, path, found) := Cut (drop 2 rest) "/" in
          let path := if found then String "/" path else EmptyString in
          match parseAuthority authority with
          | None => None
          | Some (user, host) =>
              Some (mk scheme "" user host path false forceQuery rawQuery "")
          end
        else
          Some (mk scheme "" None "" rest
                  (negb (String.eqb scheme "")) forceQuery rawQuery "")
    end.

(** [url.Parse] *)
Definition Parse (rawURL : string) : option URL :=
  let '(u, frag, _) := Cut rawURL "#" in
  match parse u with
  | None => None
  | Some url =>
      Some (mk (Scheme url) (Opaque url) (User url) (Host url) (Path url)
              (OmitHost url) (ForceQuery url) (RawQuery url) frag)
  end.

(** [URL.String] *)
Definition String_ (u : URL) : string :=
  let scheme :=
    if String.eqb (Scheme u) "" then EmptyString else Scheme u +:+ ":" in
  let body :=
    if negb (String.eqb (Opaque u) "") then scheme +:+ Opaque u
    else
      let hasUser := match User u with Some _ => true | None => false end in
      let authority :=
        if negb (String.eqb (Scheme u) "") || negb (String.eqb (Host u) "")
           || hasUser
        then
          if OmitHost u && String.eqb (Host u) "" && negb hasUser
          then EmptyString
          else
            (if negb (String.eqb (Host u) "") || negb (String.eqb (Path u) "")
                || hasUser
             then "//" else EmptyString)
            +:+ match User u with
                | Some info => info +:+ "@"
                | None => EmptyString
                end
            +:+ Host u
        else EmptyString in
      let path := Path u in
      let slash :=
        if negb (String.eqb path "") && negb (HasPrefix path "/")
           && negb (String.eqb (Host u) "")
        then "/" else EmptyString in
      let buf := scheme +:+ authority +:+ slash in
      let dot :=
        if String.eqb buf ""
        then let '(segment, _, _) := Cut path "/" in
             if (0 <? Count segment ":")%nat then "./" else EmptyString
        else EmptyString in
      buf +:+ dot +:+ path in
  body
  +:+ (if ForceQuery u || negb (String.eqb (RawQuery u) "")
       then "?" +:+ RawQuery u else EmptyString)
  +:+ (if negb (String.eqb (Fragment u) "")
       then "#" +:+ Fragment u else EmptyString).

End url.

(** ** Reading the submitted URL list *)

(** [normalizeURL]: [None] is the result [("", false)]. *)
Definition normalizeURL (raw : string) : option string :=
  match url.Parse raw with
  | None => None
  | Some u =>
      if String.eqb (url.Scheme u) "" || String.eqb (url.Host u) ""
      then None
      else
        let u :=
          if String.eqb (url.Path u) ""
          then url.mk (url.Scheme u) (url.Opaque u) (url.User u) (url.Host u)
                 "/" (url.OmitHost u) (url.ForceQuery u) (url.RawQuery u)
                 (url.Fragment u)
          else u in
        Some (url.String_ u)
  end.

(** The body of the loop of [parseURLList]: the URL to append for the line
    [raw], [None] where the loop moves on without appending. *)
Definition acceptLine (raw : string) : option string :=
  let line := TrimSpace raw in
  if String.eqb line "" then None
  else if HasPrefix line "#" then None
  else
    let idx := Index line "#" in
    let line := if 0 <=? idx then TrimSpace (take (Z.to_nat idx) line) else line in
    if String.eqb line "" then None
    else if HasPrefix line "http://" || HasPrefix line "https://"
    then normalizeURL line
    else None.

Definition newline : string := String (ascii_of_nat 10) EmptyString.

(** [parseURLList] *)
Definition parseURLList (text : string) : list string :=
  omap acceptLine (Split text newline).

(** ** The configuration model *)

(** A Go [error] that the code only passes on is its message. *)
Definition error := string.

Definition defaultConfig : CSPConfig :=
  CSPConfig.mk "networkidle" 45000 3000 1 600
    "Mozilla/5.0 (X11; Linux x86_64) AppleWebKit/537.36 (KHTML, like Gecko) Chrome/120.0.0.0 Safari/537.36"
    "en-US,en;q=0.9" "chromium".

(** The repairs of [parseConfig] once the JSON is decoded, field by field
    in the order of the source. *)
Definition repairConfig (cfg : CSPConfig) : CSPConfig :=
  CSPConfig.mk
    (if String.eqb (CSPConfig.WaitUntil cfg) "" then "domcontentloaded"
     else CSPConfig.WaitUntil cfg)
    (if CSPConfig.NavTimeoutMs cfg <=? 0 then 30000
     else CSPConfig.NavTimeoutMs cfg)
    (if CSPConfig.SettleWaitMs cfg <? 0 then 0 else CSPConfig.SettleWaitMs cfg)
    (if CSPConfig.Concurrency cfg <=? 0 then 1 else CSPConfig.Concurrency cfg)
    (if CSPConfig.BetweenURLMs cfg <? 0 then 0 else CSPConfig.BetweenURLMs cfg)
    (if String.eqb (CSPConfig.UserAgent cfg) ""
     then CSPConfig.UserAgent defaultConfig else CSPConfig.UserAgent cfg)
    (if String.eqb (CSPConfig.AcceptLanguage cfg) ""
     then CSPConfig.AcceptLanguage defaultConfig
     else CSPConfig.AcceptLanguage cfg)
    (if String.eqb (CSPConfig.Browser cfg) ""
     then CSPConfig.Browser defaultConfig else CSPConfig.Browser cfg).

Section ParseConfig.

(** [json.Unmarshal([]byte(raw), &cfg)] belongs to [encoding/json]: given
    the text and the struct to fill, it yields the struct as it leaves it
    and its error, if any. *)
Variable json_Unmarshal : string → CSPConfig → CSPConfig * option error.

(** [parseConfig] *)
Definition parseConfig (raw : string) : CSPConfig * option error :=
  let cfg := defaultConfig in
  if String.eqb (TrimSpace raw) "" then (cfg, None)
  else
    match json_Unmarshal raw cfg with
    | (cfg, Some err) => (cfg, Some err)
    | (cfg, None) => (repairConfig cfg, None)
    end.

End ParseConfig.

(** [encoding/json] decoding into a [CSPConfig], for the JSON texts made of
    white space, the literals [null], [true] and [false], numbers, strings
    of printable ASCII bytes without escapes, and objects of such values,
    to run [parseConfig] on a stored profile. As [json.Unmarshal] does:
    the whole text is checked first, and a text that is no JSON leaves the
    struct untouched; a member sets the field whose tag is its name, the
    case of letters apart, and a member of any other name is skipped; [null]
    sets nothing; a value of the wrong kind, or a number that is no 64-bit
    integer, sets nothing either and is an error, the first of which is
    returned once all the members are decoded. A text with an escape, a
    byte beyond ASCII, an array or an object inside the object is beyond
    this decoder, which answers with an error and the struct untouched. *)
Module FlatJSON.

Inductive value :=
  | VString (s : string)
  | VNumber (literal : string)
  | VBool
  | VNull.

Inductive token :=
  | LBrace | RBrace | Colon | Comma
  | Val (v : value).

(** Where the scanner stands within a number: an optional minus sign; a
    zero, or a digit from 1 to 9 and more digits; then optionally a point
    and digits; then optionally [e] or [E], an optional sign and digits. *)
Inductive number_state :=
  | AfterMinus | AfterZero | InInt
  | AfterPoint | InFrac
  | AfterE | AfterSign | InExp.

Inductive mode :=
  | Outside
  | InString (seen : string)
  | InNumber (st : number_state) (seen : string)
  | InLiteral (rest : string) (v : value).

Definition quote : ascii := ascii_of_nat 34.

Definition is_e (c : ascii) : bool := Ascii.eqb c "e" || Ascii.eqb c "E".

Definition number_step (st : number_state) (c : ascii)
    : option number_state :=
  let d := url.is_digit c in
  match st with
  | AfterMinus =>
      if Ascii.eqb c "0" then Some AfterZero
      else if d then Some InInt else None
  | AfterZero =>
      if Ascii.eqb c "." then Some AfterPoint
      else if is_e c then Some AfterE else None
  | InInt =>
      if d then Some InInt
      else if Ascii.eqb c "." then Some AfterPoint
      else if is_e c then Some AfterE else None
  | AfterPoint => if d then Some InFrac else None
  | InFrac => if d then Some InFrac else if is_e c then Some AfterE else None
  | AfterE =>
      if Ascii.eqb c "+" || Ascii.eqb c "-" then Some AfterSign
      else if d then Some InExp else None
  | AfterSign => if d then Some InExp else None
  | InExp => if d then Some InExp else None
  end.

Definition ends_number (st : number_state) : bool :=
  match st with
  | AfterZero | InInt | InFrac | InExp => true
  | _ => false
  end.

(** What a byte between two values does: it opens a value, or it is a
    punctuation mark or white space; any other byte is an error. *)
Definition start (c : ascii) : option (mode + list token) :=
  if Ascii.eqb c quote then Some (inl (InString EmptyString))
  else if Ascii.eqb c "-"
  then Some (inl (InNumber AfterMinus (String c EmptyString)))
  else if Ascii.eqb c "0"
  then Some (inl (InNumber AfterZero (String c EmptyString)))
  else if url.is_digit c
  then Some (inl (InNumber InInt (String c EmptyString)))
  else if Ascii.eqb c "t" then Some (inl (InLiteral "rue" VBool))
  else if Ascii.eqb c "f" then Some (inl (InLiteral "alse" VBool))
  else if Ascii.eqb c "n" then Some (inl (InLiteral "ull" VNull))
  else if Ascii.eqb c "{" then Some (inr [LBrace])
  else if Ascii.eqb c "}" then Some (inr [RBrace])
  else if Ascii.eqb c ":" then Some (inr [Colon])
  else if Ascii.eqb c "," then Some (inr [Comma])
  else if existsb (Ascii.eqb c) (List.map ascii_of_nat [32; 9; 10; 13]%nat)
  then Some (inr [])
  else None.

Fixpoint lex (m : mode) (s : string) : option (list token) :=
  match s with
  | EmptyString =>
      match m with
      | Outside => Some []
      | InNumber st seen =>
          if ends_number st then Some [Val (VNumber (String.rev seen))]
          else None
      | InString _ | InLiteral _ _ => None
      end
  | String c s' =>
      match m with
      | Outside =>
          match start c with
          | Some (inl m') => lex m' s'
          | Some (inr p) => ts ← lex Outside s'; Some (p ++ ts)
          | None => None
          end
      | InString seen =>
          if Ascii.eqb c quote
          then ts ← lex Outside s'; Some (Val (VString (String.rev seen)) :: ts)
          else if url.byte_in 32 127 c && negb (Ascii.eqb c (ascii_of_nat 92))
          then lex (InString (String c seen)) s'
          else None
      | InNumber st seen =>
          match number_step st c with
          | Some st' => lex (InNumber st' (String c seen)) s'
          | None =>
              if ends_number st
              then
                match start c with
                | Some (inl m') =>
                    ts ← lex m' s'; Some (Val (VNumber (String.rev seen)) :: ts)
                | Some (inr p) =>
                    ts ← lex Outside s';
                    Some (Val (VNumber (String.rev seen)) :: p ++ ts)
                | None => None
                end
              else None
          end
      | InLiteral rest v =>
          match rest with
          | String r rest' =>
              if Ascii.eqb c r
              then
                match rest' with
                | EmptyString => ts ← lex Outside s'; Some (Val v :: ts)
                | _ => lex (InLiteral rest' v) s'
                end
              else None
          | EmptyString => None
          end
      end
  end.

(** The members after the opening brace, up to the closing one. *)
Fixpoint members (ts : list token) : option (list (string * value)) :=
  match ts with
  | Val (VString name) :: Colon :: Val v :: rest =>
      match rest with
      | [RBrace] => Some [(name, v)]
      | Comma :: rest' => ms ← members rest'; Some ((name, v) :: ms)
      | _ => None
      end
  | _ => None
  end.

(** [strconv.ParseInt(literal, 10, 64)] on the text of a JSON number. *)
Fixpoint digitsOf (acc : Z) (s : string) : option Z :=
  match s with
  | EmptyString => Some acc
  | String c s' =>
      if url.is_digit c
      then digitsOf (10 * acc + (Z.of_nat (nat_of_ascii c) - 48)) s'
      else None
  end.

Definition intOf (literal : string) : option Z :=
  let '(negative, digits) :=
    match literal with
    | String c s' => if Ascii.eqb c "-" then (true, s') else (false, literal)
    | EmptyString => (false, literal)
    end in
  match digits with
  | EmptyString => None
  | _ =>
      match digitsOf 0 digits with
      | Some n =>
          let v := if negative then - n else n in
          if (- 2 ^ 63 <=? v) && (v <? 2 ^ 63) then Some v else None
      | None => None
      end
  end.

(** The [UnmarshalTypeError] of a value that does not fit its field. *)
Definition mismatch (v : value) (tag type : string) : error :=
  "json: cannot unmarshal "
  +:+ match v with
      | VString _ => "string"
      | VNumber literal =>
          if String.eqb type "int" then "number " +:+ literal else "number"
      | VBool => "bool"
      | VNull => "null"
      end
  +:+ " into Go struct field CSPConfig." +:+ tag +:+ " of type " +:+ type.

(** One member stored: the field, and the error if the value does not
    fit. *)
Definition store (name : string) (v : value) (cfg : CSPConfig)
    : CSPConfig * option error :=
  let '(CSPConfig.mk wu nt sw co bu ua al br) := cfg in
  let text (tag : string) (k : string → CSPConfig) :=
    match v with
    | VString s => (k s, None)
    | VNull => (cfg, None)
    | _ => (cfg, Some (mismatch v tag "string"))
    end in
  let number (tag : string) (k : Z → CSPConfig) :=
    match v with
    | VNumber literal =>
        match intOf literal with
        | Some n => (k n, None)
        | None => (cfg, Some (mismatch v tag "int"))
        end
    | VNull => (cfg, None)
    | _ => (cfg, Some (mismatch v tag "int"))
    end in
  let key := ToLower name in
  if String.eqb key "waituntil"
  then text "waitUntil" (λ s, CSPConfig.mk s nt sw co bu ua al br)
  else if String.eqb key "navtimeoutms"
  then number "navTimeoutMs" (λ n, CSPConfig.mk wu n sw co bu ua al br)
  else if String.eqb key "settlewaitms"
  then number "settleWaitMs" (λ n, CSPConfig.mk wu nt n co bu ua al br)
  else if String.eqb key "concurrency"
  then number "concurrency" (λ n, CSPConfig.mk wu nt sw n bu ua al br)
  else if String.eqb key "betweenurlms"
  then number "betweenUrlMs" (λ n, CSPConfig.mk wu nt sw co n ua al br)
  else if String.eqb key "useragent"
  then text "userAgent" (λ s, CSPConfig.mk wu nt sw co bu s al br)
  else if String.eqb key "acceptlanguage"
  then text "acceptLanguage" (λ s, CSPConfig.mk wu nt sw co bu ua s br)
  else if String.eqb key "browser"
  then text "browser" (λ s, CSPConfig.mk wu nt sw co bu ua al s)
  else (cfg, None).

(** The members stored one after the other; the first error is kept and
    the decoding goes on. *)
Fixpoint storeAll (ms : list (string * value)) (cfg : CSPConfig)
    (saved : option error) : CSPConfig * option error :=
  match ms with
  | [] => (cfg, saved)
  | (name, v) :: ms' =>
      let '(cfg', err) := store name v cfg in
      storeAll ms' cfg'
        (match saved with
         | Some e => Some e
         | None => err
         end)
  end.

Definition syntaxError : error := "json: invalid character in the text".

Definition Unmarshal (raw : string) (cfg : CSPConfig)
    : CSPConfig * option error :=
  match lex Outside raw with
  | Some [Val VNull] => (cfg, None)
  | Some [Val v] =>
      (cfg,
       Some ("json: cannot unmarshal "
             +:+ match v with
                 | VString _ => "string"
                 | VNumber _ => "number"
                 | _ => "bool"
                 end
             +:+ " into Go value of type main.CSPConfig"))
  | Some [LBrace; RBrace] => (cfg, None)
  | Some (LBrace :: ts) =>
      match members ts with
      | Some ms => storeAll ms cfg None
      | None => (cfg, Some syntaxError)
      end
  | _ => (cfg, Some syntaxError)
  end.

(** The text of a member [name: value] with its name in quotes. *)
Definition member (name value : string) : string :=
  String quote name +:+ String quote (":" +:+ value).

End FlatJSON.

(** ** The multi-engine orchestrator *)

(** The error of [cmd.Wait]: an [*exec.ExitError], which [errors.As] finds
    and whose [ExitCode()] is read, or any other error. *)
Inductive WaitError :=
  | ExitError (code : Z) (msg : string)
  | OtherError (msg : string).

Definition WaitError_Error (e : WaitError) : string :=
  match e with
  | ExitError _ msg => msg
  | OtherError msg => msg
  end.

(** What the operating system answers during one engine pass, call by call:
    [cmd.StderrPipe], [cmd.Start], [io.ReadAll(stderr)], [cmd.ProcessState]
    (its [ExitCode()], [None] for a nil state), [cmd.Wait],
    [os.Stat(jsonFile)] and [os.ReadFile(jsonFile)]. *)
Module Pass.
Record t := mk {
  StderrPipe : option error;
  Start : option error;
  stderrData : string;
  ProcessState : option Z;
  Wait : option WaitError;
  Stat : option error;
  ReadFile : error + string
}.
End Pass.

(** The world [runCSPCheck] runs in: [os.MkdirTemp], [os.WriteFile] of the
    URL file, the pass of each engine on these URLs and this configuration,
    [json.Unmarshal] into a [Report], and the clock. *)
Module World.
Record t := mk {
  MkdirTemp : option error;
  WriteFile : option error;
  Probe : list string → CSPConfig → string → Pass.t;
  json_Unmarshal : string → error + Report;
  Now : string
}.
End World.

Definition browsers : list string := ["chromium"; "firefox"; "webkit"].

(** [exitCodeFromErr] *)
Definition exitCodeFromErr (err : option WaitError) : Z :=
  match err with
  | None => 0
  | Some (ExitError code _) => code
  | Some (OtherError _) => 1
  end.

(** [exitCodeFromState] *)
Definition exitCodeFromState (state : option Z) (err : option WaitError) : Z :=
  match err with
  | Some _ => exitCodeFromErr err
  | None =>
      match state with
      | None => 0
      | Some code => code
      end
  end.

(** [MultiReport{}] *)
Definition noReport : MultiReport := MultiReport.mk "" ∅ ∅.

(** The exit code of the pass of one engine, as the loop computes it. *)
Definition passExitCode (p : Pass.t) : Z :=
  exitCodeFromState (Pass.ProcessState p) (Pass.Wait p).

(** The loop over the engines, from the engines still to run, with
    [browserReports] and [maxExit] as they stand; then the final report. *)
Fixpoint enginePasses (w : World.t) (urls : list string) (cfg : CSPConfig)
    (todo : list string) (browserReports : gmap string Report) (maxExit : Z)
    : MultiReport * Z * option error :=
  match todo with
  | [] =>
      (MultiReport.mk (World.Now w)
         (list_to_map
            [("waitUntil", any_string (CSPConfig.WaitUntil cfg));
             ("navTimeoutMs", any_int (CSPConfig.NavTimeoutMs cfg));
             ("settleWaitMs", any_int (CSPConfig.SettleWaitMs cfg));
             ("concurrency", any_int (CSPConfig.Concurrency cfg));
             ("betweenUrlMs", any_int (CSPConfig.BetweenURLMs cfg));
             ("userAgent", any_string (CSPConfig.UserAgent cfg));
             ("acceptLanguage", any_string (CSPConfig.AcceptLanguage cfg))])
         browserReports,
       maxExit, None)
  | browser :: todo' =>
      let p := World.Probe w urls cfg browser in
      match Pass.StderrPipe p with
      | Some err => (noReport, 0, Some err)
      | None =>
      match Pass.Start p with
      | Some err => (noReport, 0, Some err)
      | None =>
      let waitErr := Pass.Wait p in
      let exitCode := exitCodeFromState (Pass.ProcessState p) waitErr in
      let maxExit := if maxExit <? exitCode then exitCode else maxExit in
      match waitErr, Pass.Stat p with
      | Some e, Some _ =>
          (noReport, exitCode,
           Some ("node failed (" +:+ browser +:+ "): " +:+ WaitError_Error e
                 +:+ ": " +:+ TrimSpace (Pass.stderrData p)))
      | _, _ =>
      match Pass.ReadFile p with
      | inl err => (noReport, exitCode, Some err)
      | inr data =>
      match World.json_Unmarshal w data with
      | inl err => (noReport, exitCode, Some err)
      | inr report =>
          enginePasses w urls cfg todo' (<[browser := report]> browserReports)
            maxExit
      end end end end end
  end.

(** [runCSPCheck] *)
Definition runCSPCheck (w : World.t) (urls : list string) (cfg : CSPConfig)
    : MultiReport * Z * option error :=
  match World.MkdirTemp w with
  | Some err => (noReport, 0, Some err)
  | None =>
      match World.WriteFile w with
      | Some err => (noReport, 0, Some err)
      | None => enginePasses w urls cfg browsers ∅ 0
      end
  end.

(** ** The per-page deduplication of the probe ([csp-check.mjs]) *)

Module Probe.

(** A violation object as the page reports it: a property is [null] or
    undefined ([None]), a string or, for the three numbers, an integer. *)
Module Event.
Record t := mk {
  documentURI : option string;
  referrer : option string;
  blockedURI : option string;
  effectiveDirective : option string;
  violatedDirective : option string;
  originalPolicy : option string;
  disposition : option string;
  statusCode : option Z;
  sourceFile : option string;
  lineNumber : option Z;
  columnNumber : option Z;
  sample : option string
}.
End Event.

(** The object [normalizeViolation] builds. *)
Module Violation.
Record t := mk {
  documentURI : option string;
  referrer : option string;
  blockedURI : option string;
  blockedOrigin : option string;
  effectiveDirective : option string;
  violatedDirective : option string;
  originalPolicy : option string;
  disposition : option string;
  statusCode : option Z;
  sourceFile : option string;
  lineNumber : option Z;
  columnNumber : option Z;
  sample : option string
}.
End Violation.

(** [x || null] on a string property: the empty string is falsy. *)
Definition orNull (x : option string) : option string :=
  match x with
  | Some s => if String.eqb s "" then None else Some s
  | None => None
  end.

Section Dedup.

(** [new URL(u).origin], [None] where the constructor throws. *)
Variable URL_origin : string → option string.

(** [blockedOrigin] *)
Definition blockedOrigin (blockedURI : option string) : option string :=
  match orNull blockedURI with
  | None => None
  | Some u =>
      match URL_origin u with
      | Some origin => Some origin
      | None => Some u
      end
  end.

(** [normalizeViolation]; [x ?? null] keeps every number. *)
Definition normalizeViolation (v : Event.t) : Violation.t :=
  Violation.mk
    (orNull (Event.documentURI v))
    (orNull (Event.referrer v))
    (orNull (Event.blockedURI v))
    (blockedOrigin (orNull (Event.blockedURI v)))
    (orNull (Event.effectiveDirective v))
    (orNull (Event.violatedDirective v))
    (orNull (Event.originalPolicy v))
    (orNull (Event.disposition v))
    (Event.statusCode v)
    (orNull (Event.sourceFile v))
    (Event.lineNumber v)
    (Event.columnNumber v)
    (orNull (Event.sample v)).

(** What [Array.prototype.join] prints for an element: nothing for [null],
    the string itself, the decimal digits of an integer. *)
Definition joinString (x : option string) : string := default "" x.

Definition joinNumber (x : option Z) : string :=
  match x with
  | Some n => NilZero.string_of_int (Z.to_int n)
  | None => ""
  end.

(** [violationKey] *)
Definition violationKey (v : Violation.t) : string :=
  joinString (Violation.effectiveDirective v) +:+ "|"
  +:+ joinString (Violation.blockedURI v) +:+ "|"
  +:+ joinString (Violation.sourceFile v) +:+ "|"
  +:+ joinNumber (Violation.lineNumber v) +:+ "|"
  +:+ joinNumber (Violation.columnNumber v).

(** [normalizeDisposition]; [toLowerCase] on ASCII letters. *)
Definition normalizeDisposition (d : option string) : string :=
  let val := ToLower (default "" (orNull d)) in
  if Contains val "report" then "report-only"
  else if String.eqb val "enforce" then "enforce"
  else "".

(** [mergeViolation] *)
Definition mergeViolation (a b : Violation.t) : Violation.t :=
  let da := normalizeDisposition (Violation.disposition a) in
  let db := normalizeDisposition (Violation.disposition b) in
  if String.eqb da "enforce" || String.eqb db "enforce"
  then if String.eqb da "enforce" then a else b
  else if String.eqb da "report-only" || String.eqb db "report-only"
  then if String.eqb da "report-only" then a else b
  else a.

(** A JavaScript [Map] keeps its entries in insertion order; [set] on a
    key already there replaces the value where it stands. *)
Fixpoint Map_get {V} (key : string) (m : list (string * V)) : option V :=
  match m with
  | [] => None
  | (k, x) :: m' => if String.eqb k key then Some x else Map_get key m'
  end.

Fixpoint Map_set {V} (key : string) (v : V) (m : list (string * V))
    : list (string * V) :=
  match m with
  | [] => [(key, v)]
  | (k, x) :: m' =>
      if String.eqb k key then (k, v) :: m' else (k, x) :: Map_set key v m'
  end.

(** The body of the deduplication loop of [checkUrl]. *)
Definition remember (uniq : list (string * Violation.t)) (v : Violation.t)
    : list (string * Violation.t) :=
  let key := violationKey v in
  match Map_get key uniq with
  | None => Map_set key v uniq
  | Some existing => Map_set key (mergeViolation existing v) uniq
  end.

(** The [violations] of the page result of [checkUrl], from the events
    pushed while the page was open: [[...uniq.values()]]. *)
Definition dedup (violations : list Event.t) : list Violation.t :=
  (fold_left remember (List.map normalizeViolation violations) []).*2.

End Dedup.
End Probe.

(** ** What the run page shows of a group *)

(** The loop of [extractDirective] over the parts of the policy. *)
Fixpoint findDirective (directive : string) (parts : list string) : string :=
  match parts with
  | [] => ""
  | part :: rest =>
      let p := TrimSpace part in
      if String.eqb p "" then findDirective directive rest
      else if HasPrefix p (directive +:+ " ") || String.eqb p directive
      then p
      else findDirective directive rest
  end.

(** [extractDirective] *)
Definition extractDirective (policy directive : string) : string :=
  findDirective directive (Split policy ";").

(** The inner loop of [groupPolicy]: the first policy that is not blank,
    [None] where the loop ends without returning. *)
Fixpoint policyIn (vs : list Violation) : option string :=
  match vs with
  | [] => None
  | v :: vs' =>
      if negb (String.eqb (TrimSpace (Violation.OriginalPolicy v)) "")
      then Some (Violation.OriginalPolicy v)
      else policyIn vs'
  end.

(** An outer loop over the pages that returns as soon as the inner loop
    does. *)
Fixpoint firstAmong (inner : list Violation → option string)
    (pages : list (list Violation)) : option string :=
  match pages with
  | [] => None
  | vs :: rest =>
      match inner vs with
      | Some found => Some found
      | None => firstAmong inner rest
      end
  end.

(** [groupPolicy]: the pages of the group are ranged over under
    [schedule]. *)
Definition groupPolicy (schedule : list nat) (g : GroupedViolation) : string :=
  default ""
    (firstAmong policyIn
       (range schedule (map_to_list (GroupedViolation.Pages g)).*2)).

(** The inner loop of [groupDirective]. *)
Fixpoint directiveIn (vs : list Violation) : option string :=
  match vs with
  | [] => None
  | v :: vs' =>
      if String.eqb (TrimSpace (Violation.OriginalPolicy v)) ""
         || String.eqb (TrimSpace (Violation.EffectiveDirective v)) ""
      then directiveIn vs'
      else
        let val :=
          extractDirective (Violation.OriginalPolicy v)
            (Violation.EffectiveDirective v) in
        if negb (String.eqb val "") then Some val else directiveIn vs'
  end.

(** [groupDirective] *)
Definition groupDirective (schedule : list nat) (g : GroupedViolation)
    : string :=
  default ""
    (firstAmong directiveIn
       (range schedule (map_to_list (GroupedViolation.Pages g)).*2)).

(** ** Numbers and configurations submitted through a form *)

(** [strconv.Atoi] on a 64-bit platform: an optional sign, then decimal
    digits, at least one, and a value that fits an [int]; [None] is an
    error. *)
Fixpoint digitsValue (acc : Z) (s : string) : option Z :=
  match s with
  | EmptyString => Some acc
  | String c s' =>
      if url.is_digit c
      then digitsValue (10 * acc + (Z.of_nat (nat_of_ascii c) - 48)) s'
      else None
  end.

Definition Atoi (s : string) : option Z :=
  let '(negative, digits) :=
    match s with
    | String c s' =>
        if Ascii.eqb c "-" then (true, s')
        else if Ascii.eqb c "+" then (false, s')
        else (false, s)
    | EmptyString => (false, s)
    end in
  match digits with
  | EmptyString => None
  | _ =>
      match digitsValue 0 digits with
      | None => None
      | Some n =>
          let v := if negative then - n else n in
          if (- 2 ^ 63 <=? v) && (v <? 2 ^ 63) then Some v else None
      end
  end.

(** [parseIntForm] *)
Definition parseIntForm (raw : string) : Z :=
  let raw := TrimSpace raw in
  if String.eqb raw "" then -1
  else match Atoi raw with
       | None => -1
       | Some v => v
       end.

(** The configuration that [handleProfiles] and [handleProfileUpdate] build
    from the submitted form, [form key] being [r.FormValue(key)]. *)
Definition formConfig (form : string → string) : CSPConfig :=
  let cfg := defaultConfig in
  let text (key : string) (current : string) :=
    let v := TrimSpace (form key) in
    if negb (String.eqb v "") then v else current in
  let positive (key : string) (current : Z) :=
    let v := parseIntForm (form key) in
    if 0 <? v then v else current in
  let natural (key : string) (current : Z) :=
    let v := parseIntForm (form key) in
    if 0 <=? v then v else current in
  CSPConfig.mk
    (text "wait_until" (CSPConfig.WaitUntil cfg))
    (positive "nav_timeout_ms" (CSPConfig.NavTimeoutMs cfg))
    (natural "settle_wait_ms" (CSPConfig.SettleWaitMs cfg))
    (positive "concurrency" (CSPConfig.Concurrency cfg))
    (natural "between_url_ms" (CSPConfig.BetweenURLMs cfg))
    (text "user_agent" (CSPConfig.UserAgent cfg))
    (text "accept_language" (CSPConfig.AcceptLanguage cfg))
    (CSPConfig.Browser cfg).

(** ** The summary of a run *)

Module RunSummary.
Record t := mk {
  Pages : Z;
  Violations : Z;
  Browsers : gmap string ReportTotals
}.
End RunSummary.
Abbreviation RunSummary := RunSummary.t.

(** The sum of two [int] of 64 bits, as Go computes it: it wraps around. *)
Definition wrap64 (z : Z) : Z := (z + 2 ^ 63) mod 2 ^ 64 - 2 ^ 63.

Definition int_add (a b : Z) : Z := wrap64 (a + b).

(** The body of the loop of [summarizeMulti]. *)
Definition addTotals (summary : RunSummary) (entry : string * Report)
    : RunSummary :=
  let '(name, rep) := entry in
  let totals := Report.Totals rep in
  RunSummary.mk
    (if RunSummary.Pages summary <? ReportTotals.Pages totals
     then ReportTotals.Pages totals else RunSummary.Pages summary)
    (int_add (RunSummary.Violations summary) (ReportTotals.Violations totals))
    (<[name := totals]> (RunSummary.Browsers summary)).

(** [summarizeMulti]: the reports are ranged over under [schedule]. *)
Definition summarizeMulti (schedule : list nat) (m : MultiReport)
    : RunSummary :=
  fold_left addTotals
    (range schedule (map_to_list (MultiReport.Browsers m)))
    (RunSummary.mk 0 0 ∅).

(** ** The engines of the run page *)

(** The [BrowserReport] that [handleRunDetail] appends for an engine; each
    grouping ranges over its map under a schedule of its own. *)
Definition browserReportOf (schedules : string → string → list nat)
    (name : string) (rep : Report) : BrowserReport :=
  BrowserReport.mk name rep
    (groupViolationsByDisposition (schedules name "enforce")
       (Report.Results rep) "enforce")
    (groupViolationsByDisposition (schedules name "report-only")
       (Report.Results rep) "report-only").

(** The first loop of [handleRunDetail], over the known engines. *)
Definition knownReports (schedules : string → string → list nat)
    (stored : gmap string Report) : list BrowserReport :=
  omap (λ name, browserReportOf schedules name <$> stored !! name) browsers.

(** The body of its second loop, over the map: an engine is appended unless
    an entry of its name is found. *)
Definition addUnexpected (schedules : string → string → list nat)
    (browserReports : list BrowserReport) (entry : string * Report)
    : list BrowserReport :=
  let '(name, rep) := entry in
  if existsb (λ b, String.eqb (BrowserReport.Name b) name) browserReports
  then browserReports
  else browserReports ++ [browserReportOf schedules name rep].

(** The [browserReports] of [handleRunDetail]. *)
Definition detailReports (schedule : list nat)
    (schedules : string → string → list nat) (multi : MultiReport)
    : list BrowserReport :=
  fold_left (addUnexpected schedules)
    (range schedule (map_to_list (MultiReport.Browsers multi)))
    (knownReports schedules (MultiReport.Browsers multi)).

(** ** The vocabulary of the properties *)

(** The sum, over the pages of a group, of the length of the violation list
    of the page. *)
Definition pagesTotal (g : GroupedViolation) : Z :=
  Z.of_nat (sum_list_with List.length (map_to_list (GroupedViolation.Pages g)).*2).

(** The invariant of the grouping loop. *)
Definition countsPages (groups : gmap string GroupedViolation) : Prop :=
  ∀ key g, groups !! key = Some g → GroupedViolation.Count g = pagesTotal g.

(** Strictly ascending in the byte-wise lexicographic order of Go. *)
Definition strictlyAscending (names : list string) : Prop :=
  ∀ i j a b,
    names !! i = Some a → names !! j = Some b → (i < j)%nat →
    String.ltb a b = true.

(** Sample data: a violation of a directive by an origin, and a page that
    loaded with status 200. *)
Definition violationOf (directive origin disposition : string) : Violation :=
  Violation.mk "" "" "" origin directive "" "" disposition None "" None None "".

Definition pageOf (url : string) (violations : list Violation)
    : ReportPageResult :=
  ReportPageResult.mk url (Some 200) true "" 0 violations.

(** A page with the violations of two different keys, one each. *)
Definition tiedPage : list ReportPageResult :=
  [pageOf "https://example.org/"
     [violationOf "img-src" "https://cdn.example" "enforce";
      violationOf "script-src" "inline" "enforce"]].

(** Scenario D: the same key three times on one page, twice on another. *)
Definition scenarioD : list ReportPageResult :=
  let v := violationOf "img-src" "https://cdn.example" "enforce" in
  [pageOf "https://example.org/a" [v; v; v];
   pageOf "https://example.org/b" [v; v]].

(** Two keys with different counts, over two pages. *)
Definition mixedPages : list ReportPageResult :=
  [pageOf "https://example.org/a"
     [violationOf "script-src" "inline" "enforce";
      violationOf "img-src" "https://cdn.example" "enforce"];
   pageOf "https://example.org/b"
     [violationOf "img-src" "https://cdn.example" "report"]].

(** The zero value of [GroupedViolation]. *)
Definition noGroup : GroupedViolation := GroupedViolation.mk "" "" "" 0 ∅.

(** A disposition of one of the recognized buckets, once trimmed and
    lowercased: empty, [enforce] or [report-only]. *)
Definition recognized (disposition : string) : Prop :=
  let a := ToLower (TrimSpace disposition) in
  a = "" ∨ a = "enforce" ∨ a = "report-only".

(** Pages whose dispositions are all recognized, in several spellings. *)
Definition recognizedPages : list ReportPageResult :=
  [pageOf "https://example.org/a"
     [violationOf "script-src" "inline" " Enforce ";
      violationOf "img-src" "https://cdn.example" "";
      violationOf "img-src" "https://cdn.example" "REPORT-ONLY"];
   pageOf "https://example.org/b"
     [violationOf "font-src" "data" "report-only"]].

(** A configuration whose timeout and concurrency are positive, whose
    waits are not negative and whose strings are not empty. *)
Definition validConfig (cfg : CSPConfig) : Prop :=
  0 < CSPConfig.NavTimeoutMs cfg ∧ 0 < CSPConfig.Concurrency cfg
  ∧ 0 <= CSPConfig.SettleWaitMs cfg ∧ 0 <= CSPConfig.BetweenURLMs cfg
  ∧ CSPConfig.WaitUntil cfg ≠ "" ∧ CSPConfig.UserAgent cfg ≠ ""
  ∧ CSPConfig.AcceptLanguage cfg ≠ "".

(** What [parseConfig] makes of the decoded configuration [d]: each
    invalid value is replaced by a fixed one. *)
Definition repairs (d cfg : CSPConfig) : Prop :=
  (CSPConfig.NavTimeoutMs d <= 0 → CSPConfig.NavTimeoutMs cfg = 30000)
  ∧ (CSPConfig.Concurrency d <= 0 → CSPConfig.Concurrency cfg = 1)
  ∧ (CSPConfig.SettleWaitMs d < 0 → CSPConfig.SettleWaitMs cfg = 0)
  ∧ (CSPConfig.BetweenURLMs d < 0 → CSPConfig.BetweenURLMs cfg = 0)
  ∧ (CSPConfig.WaitUntil d = "" → CSPConfig.WaitUntil cfg = "domcontentloaded")
  ∧ (CSPConfig.UserAgent d = "" →
     CSPConfig.UserAgent cfg = CSPConfig.UserAgent defaultConfig)
  ∧ (CSPConfig.AcceptLanguage d = "" →
     CSPConfig.AcceptLanguage cfg = CSPConfig.AcceptLanguage defaultConfig).

(** And each valid value is kept. *)
Definition keeps (d cfg : CSPConfig) : Prop :=
  (0 < CSPConfig.NavTimeoutMs d →
   CSPConfig.NavTimeoutMs cfg = CSPConfig.NavTimeoutMs d)
  ∧ (0 < CSPConfig.Concurrency d →
     CSPConfig.Concurrency cfg = CSPConfig.Concurrency d)
  ∧ (0 <= CSPConfig.SettleWaitMs d →
     CSPConfig.SettleWaitMs cfg = CSPConfig.SettleWaitMs d)
  ∧ (0 <= CSPConfig.BetweenURLMs d →
     CSPConfig.BetweenURLMs cfg = CSPConfig.BetweenURLMs d)
  ∧ (CSPConfig.WaitUntil d ≠ "" →
     CSPConfig.WaitUntil cfg = CSPConfig.WaitUntil d)
  ∧ (CSPConfig.UserAgent d ≠ "" →
     CSPConfig.UserAgent cfg = CSPConfig.UserAgent d)
  ∧ (CSPConfig.AcceptLanguage d ≠ "" →
     CSPConfig.AcceptLanguage cfg = CSPConfig.AcceptLanguage d).

(** Scenario A: the stored profile whose one member is [navTimeoutMs: -5]. *)
Definition scenarioA : string :=
  "{" +:+ FlatJSON.member "navTimeoutMs" " -5" +:+ "}".

(** Scenario B: the five submitted lines. *)
Definition scenarioB : string :=
  "# comment" +:+ newline +:+ "https://example.org" +:+ newline
  +:+ "ftp://example.org" +:+ newline +:+ "" +:+ newline +:+ "not-a-url".

(** The byte [c] occurs in [s]. *)
Fixpoint has_byte (c : ascii) (s : string) : bool :=
  match s with
  | EmptyString => false
  | String a s' => Ascii.eqb a c || has_byte c s'
  end.

(** A table of encodings, none empty, none holding the byte [c]. *)
Definition clear_of (c : ascii) (table : list string) : bool :=
  forallb (λ w, negb (String.eqb w "") && negb (has_byte c w)) table.

(** The end of the loop body of [parseURLList], from the second test for
    an empty line on. *)
Definition finishLine (line : string) : option string :=
  if String.eqb line "" then None
  else if HasPrefix line "http://" || HasPrefix line "https://"
  then normalizeURL line
  else None.





(** Every way in which the pass of an engine makes [runCSPCheck] return an
    error. *)
Definition engineFails (w : World.t) (p : Pass.t) : Prop :=
  Pass.StderrPipe p ≠ None
  ∨ Pass.Start p ≠ None
  ∨ (Pass.Wait p ≠ None ∧ Pass.Stat p ≠ None)
  ∨ (∃ err, Pass.ReadFile p = inl err)
  ∨ (∃ data err,
       Pass.ReadFile p = inr data ∧ World.json_Unmarshal w data = inl err).

Definition returnsError (r : MultiReport * Z * option error) : Prop :=
  r.2 ≠ None.

Definition returnedCode (r : MultiReport * Z * option error) : Z := r.1.2.

(** The exit code of the engine [browser] in the world [w]. *)
Definition engineExitCode (w : World.t) (urls : list string)
    (cfg : CSPConfig) (browser : string) : Z :=
  passExitCode (World.Probe w urls cfg browser).

(** The largest of the exit codes of the three engines. *)
Definition maxExitCode (w : World.t) (urls : list string) (cfg : CSPConfig)
    : Z :=
  Z.max (engineExitCode w urls cfg "chromium")
    (Z.max (engineExitCode w urls cfg "firefox")
       (engineExitCode w urls cfg "webkit")).


(** A world in which every engine starts and exits zero without writing
    its output file. *)
Definition silentPass : Pass.t :=
  Pass.mk None None "" (Some 0) None
    (Some "stat report.json: no such file or directory")
    (inl "open report.json: no such file or directory").

Definition silentWorld : World.t :=
  World.mk None None (λ _ _ _, silentPass)
    (λ _, inl "unexpected end of JSON input") "2026-01-01T00:00:00Z".

(** A world in which a signal ends every engine after it wrote a report. *)
Definition emptyReport : Report :=
  Report.mk "" ∅ (ReportTotals.mk 0 0) [] "".

Definition killedPass : Pass.t :=
  Pass.mk None None "" (Some (-1)) (Some (ExitError (-1) "signal: killed"))
    None (inr "{}").

Definition killedWorld : World.t :=
  World.mk None None (λ _ _ _, killedPass) (λ _, inr emptyReport)
    "2026-01-01T00:00:00Z".

(** The words of the deduplication rule: the tuple that identifies a
    violation within a page, and the bucket of its disposition. *)
Definition dedupTuple (v : Probe.Violation.t)
    : option string * option string * option string * option Z * option Z :=
  (Probe.Violation.effectiveDirective v, Probe.Violation.blockedURI v,
   Probe.Violation.sourceFile v, Probe.Violation.lineNumber v,
   Probe.Violation.columnNumber v).

Definition bucket (v : Probe.Violation.t) : string :=
  Probe.normalizeDisposition (Probe.Violation.disposition v).

(** How certain a bucket is: [enforce] over [report-only] over unknown. *)
Definition certainty (b : string) : nat :=
  if String.eqb b "enforce" then 2
  else if String.eqb b "report-only" then 1 else 0.

(** No two entries share a tuple. *)
Definition distinctTuples (out : list Probe.Violation.t) : Prop :=
  ∀ i j x y,
    out !! i = Some x → out !! j = Some y → i ≠ j →
    dedupTuple x ≠ dedupTuple y.

(** Some event of the tuple of [r] falls in the bucket [b]. *)
Definition someEventIn (raw : list Probe.Violation.t) (r : Probe.Violation.t)
    (b : string) : Prop :=
  ∃ e, e ∈ raw ∧ dedupTuple e = dedupTuple r ∧ bucket e = b.

(** The deduplication rule as the specification words it: the disposition
    kept is the string [enforce], or else the string [report-only]. *)
Definition keepsLiteralDisposition (URL_origin : string → option string)
    (events : list Probe.Event.t) : Prop :=
  let raw := List.map (Probe.normalizeViolation URL_origin) events in
  let out := Probe.dedup URL_origin events in
  distinctTuples out
  ∧ ∀ r, r ∈ out →
      (someEventIn raw r "enforce" →
       Probe.Violation.disposition r = Some "enforce")
      ∧ (¬ someEventIn raw r "enforce" → someEventIn raw r "report-only" →
         Probe.Violation.disposition r = Some "report-only").

(** The event of a native report-only violation: browsers give the
    disposition of a [SecurityPolicyViolationEvent] as [report]. *)
Definition reportEvent : Probe.Event.t :=
  Probe.Event.mk (Some "https://example.org/") None
    (Some "https://cdn.example/a.png") (Some "img-src") (Some "img-src")
    (Some "img-src 'self'") (Some "report") (Some 200)
    (Some "https://example.org/") (Some 12) (Some 7) None.

(** No origin is ever computed: [new URL] always throws. *)
Definition noOrigin : string → option string := λ _, None.

(** The invariant of the deduplication loop, with [seen] the violations
    met so far: the keys are distinct; an entry is one of the violations
    met, stands under its own key and is at least as certain as every
    violation met under that key; every violation met has an entry. *)
Definition remembers (seen : list Probe.Violation.t)
    (uniq : list (string * Probe.Violation.t)) : Prop :=
  NoDup uniq.*1
  ∧ (∀ k r, Probe.Map_get k uniq = Some r →
            k = Probe.violationKey r ∧ r ∈ seen
            ∧ ∀ e, e ∈ seen → Probe.violationKey e = k →
                   (certainty (bucket e) <= certainty (bucket r))%nat)
  ∧ (∀ e, e ∈ seen → is_Some (Probe.Map_get (Probe.violationKey e) uniq)).

(** The violations of the pages, each with the URL of its page, in the
    order in which the grouping loops meet them. *)
Definition flat (results : list ReportPageResult)
    : list (string * Violation) :=
  results ≫= λ r,
    (λ v, (ReportPageResult.URL r, v)) <$> ReportPageResult.Violations r.

(** The number of violations of the pages. *)
Definition totalViolations (results : list ReportPageResult) : Z :=
  foldr (λ r n, Z.of_nat (List.length (ReportPageResult.Violations r)) + n)
    0 results.

(** The sum of the counts of some groups. *)
Definition totalCount (groups : list GroupedViolation) : Z :=
  foldr (λ g n, GroupedViolation.Count g + n) 0 groups.

(** The violations of a key, and those of a key on the pages of a URL. *)
Definition withKey (key : string) (seen : list (string * Violation))
    : list (string * Violation) :=
  List.filter (λ p, String.eqb (groupKey p.2) key) seen.

Definition keyedAt (key url : string) (seen : list (string * Violation))
    : list Violation :=
  (List.filter
     (λ p, String.eqb p.1 url && String.eqb (groupKey p.2) key) seen).*2.

(** The entry of a map of lists: none for the empty list. *)
Definition entryOf {A} (l : list A) : option (list A) :=
  match l with
  | [] => None
  | _ => Some l
  end.

(** The invariant of the grouping loop in full: what the map holds under
    each key once the violations [seen] are met. *)
Definition groupsOf (seen : list (string * Violation))
    (groups : gmap string GroupedViolation) : Prop :=
  ∀ key,
    match groups !! key with
    | None => withKey key seen = []
    | Some g =>
        GroupedViolation.Key g = key
        ∧ GroupedViolation.Key g
          = GroupedViolation.EffectiveDirective g +:+ " -> "
            +:+ GroupedViolation.BlockedOrigin g
        ∧ GroupedViolation.Count g = Z.of_nat (List.length (withKey key seen))
        ∧ withKey key seen ≠ []
        ∧ ∀ url, GroupedViolation.Pages g !! url = entryOf (keyedAt key url seen)
    end.

(** The contributions of the engines: every violation of every page of
    every engine report, with the name of the engine. *)
Definition contributions (browsers : list BrowserReport)
    : list (string * Violation) :=
  browsers ≫= λ b,
    Report.Results (BrowserReport.Report b) ≫= λ r,
      (λ v, (BrowserReport.Name b, v)) <$> ReportPageResult.Violations r.

(** The pages of all the engines, one engine after the other. *)
Definition pooledPages (browsers : list BrowserReport)
    : list ReportPageResult :=
  browsers ≫= λ b, Report.Results (BrowserReport.Report b).

(** The engine [name] reports a violation of the key [key], of the
    disposition [want] where one is given. *)
Definition contributes (browsers : list BrowserReport)
    (want : option string) (name key : string) : Prop :=
  ∃ b r v,
    b ∈ browsers ∧ BrowserReport.Name b = name
    ∧ r ∈ Report.Results (BrowserReport.Report b)
    ∧ v ∈ ReportPageResult.Violations r
    ∧ groupKey v = key
    ∧ match want with
      | Some disposition =>
          isDisposition (Violation.Disposition v) disposition = true
      | None => True
      end.

(** The invariant of the pooling loops of the two merges. *)
Definition browsersOf (seen : list (string * Violation))
    (groupBrowsers : gmap string (gset string)) : Prop :=
  ∀ key name,
    name ∈ default ∅ (groupBrowsers !! key) ↔
    ∃ v, (name, v) ∈ seen ∧ groupKey v = key.

(** The contributions that pass the disposition filter. *)
Definition contributionsBy (disposition : string)
    (browsers : list BrowserReport) : list (string * Violation) :=
  browsers ≫= λ b,
    Report.Results (BrowserReport.Report b) ≫= λ r,
      (λ v, (BrowserReport.Name b, v))
        <$> ReportPageResult.Violations (keepDisposition disposition r).

(** The violations of a group: those of the lists of its page map. *)
Definition inGroup (g : GroupedViolation) (v : Violation) : Prop :=
  ∃ url vs, GroupedViolation.Pages g !! url = Some vs ∧ v ∈ vs.

(** What one violation gives to [groupPolicy] and to [groupDirective]. *)
Definition policyOf (v : Violation) : option string :=
  if negb (String.eqb (TrimSpace (Violation.OriginalPolicy v)) "")
  then Some (Violation.OriginalPolicy v)
  else None.

Definition directiveOf (v : Violation) : option string :=
  if String.eqb (TrimSpace (Violation.OriginalPolicy v)) ""
     || String.eqb (TrimSpace (Violation.EffectiveDirective v)) ""
  then None
  else
    let val :=
      extractDirective (Violation.OriginalPolicy v)
        (Violation.EffectiveDirective v) in
    if negb (String.eqb val "") then Some val else None.

(** The trimmed piece [p] of a policy declares the directive: it is the
    name alone, or the name, a space and more. *)
Definition declares (directive p : string) : bool :=
  negb (String.eqb p "")
  && (HasPrefix p (directive +:+ " ") || String.eqb p directive).

(** The largest page total of some reports, zero at least, and the sum of
    their violation totals. *)
Definition mostPages (reports : list Report) : Z :=
  foldr (λ rep n, Z.max (ReportTotals.Pages (Report.Totals rep)) n) 0 reports.

Definition sumViolations (reports : list Report) : Z :=
  foldr (λ rep n, ReportTotals.Violations (Report.Totals rep) + n) 0 reports.

(** The reports of two engines, for the summary. *)
Definition twoEngines : MultiReport :=
  MultiReport.mk "" ∅
    (<["chromium" := Report.mk "" ∅ (ReportTotals.mk 2 3) [] ""]>
       (<["firefox" := Report.mk "" ∅ (ReportTotals.mk 5 1) [] ""]> ∅)).

(** The report decoded from the output file of an engine, where the file
    is read and decodes. *)
Definition decodedReport (w : World.t) (urls : list string) (cfg : CSPConfig)
    (browser : string) : option Report :=
  match Pass.ReadFile (World.Probe w urls cfg browser) with
  | inr data =>
      match World.json_Unmarshal w data with
      | inr report => Some report
      | inl _ => None
      end
  | inl _ => None
  end.

(** The process of the pass was started. *)
Definition started (p : Pass.t) : bool :=
  match Pass.StderrPipe p, Pass.Start p with
  | None, None => true
  | _, _ => false
  end.

(** The keys in the order in which they are first met, those of [seen]
    left out. *)
Fixpoint firstSeen (seen keys : list string) : list string :=
  match keys with
  | [] => []
  | k :: keys' =>
      if bool_decide (k ∈ seen) then firstSeen seen keys'
      else k :: firstSeen (k :: seen) keys'
  end.

(** A second event: the image of [reportEvent], blocked on another line. *)
Definition otherEvent : Probe.Event.t :=
  Probe.Event.mk (Some "https://example.org/") None
    (Some "https://cdn.example/a.png") (Some "img-src") (Some "img-src")
    (Some "img-src 'self'") (Some "enforce") (Some 200)
    (Some "https://example.org/") (Some 40) (Some 7) None.

(** A URL with a scheme and a host, written out: the path is [/] where the
    URL has none. *)
Definition shown (u : url.URL) : string :=
  url.Scheme u +:+ "://"
  +:+ match url.User u with Some info => info +:+ "@" | None => "" end
  +:+ url.Host u
  +:+ (if String.eqb (url.Path u) "" then "/" else url.Path u)
  +:+ (if url.ForceQuery u || negb (String.eqb (url.RawQuery u) "")
       then "?" +:+ url.RawQuery u else "")
  +:+ (if negb (String.eqb (url.Fragment u) "")
       then "#" +:+ url.Fragment u else "").

(** A stored text whose [waitUntil] is a number and whose [concurrency] is
    zero. *)
Definition mistypedJSON : string :=
  "{" +:+ FlatJSON.member "waitUntil" " 5" +:+ ", "
  +:+ FlatJSON.member "concurrency" " 0" +:+ "}".

(** The repair as the specification words it, for every stored text:
    decoded without error or not, what [parseConfig] returns repairs the
    values that the decoder read into the struct. *)
Definition repairsEveryStored
    (json_Unmarshal : string → CSPConfig → CSPConfig * option error)
    (raw : string) : Prop :=
  repairs (json_Unmarshal raw defaultConfig).1 (parseConfig json_Unmarshal raw).1.

(** A disposition that one of the two views takes: trimmed and lowercased,
    it is empty, it is [enforce], or it holds [report]. *)
Definition viewed (disposition : string) : Prop :=
  let a := ToLower (TrimSpace disposition) in
  a = "" ∨ a = "enforce" ∨ Contains a "report" = true.

(** The bytes of a host name, and those of a path that needs no escape. *)
Definition host_name_byte (c : ascii) : bool :=
  url.is_letter c || url.is_digit c || Ascii.eqb c "." || Ascii.eqb c "-".

Definition plain_path_byte (c : ascii) : bool :=
  url.is_letter c || url.is_digit c
  || existsb (Ascii.eqb c) (list_ascii_of_string "-._~/").

(** * Properties *)

(** ** The exchange sort *)

Section ExchangeSortFacts.
Context {A : Type} (before : A → A → bool).

Lemma select_length (rest : list A) (x : A) :
  List.length (select before x rest).2 = List.length rest.
Proof.
  revert x. induction rest as [|y rest IH]; intros x; simpl; [done|].
  destruct (before y x).
  - specialize (IH y). destruct (select before y rest). simpl in *. lia.
  - specialize (IH x). destruct (select before x rest). simpl in *. lia.
Qed.

Lemma select_perm (rest : list A) (x : A) :
  (select before x rest).1 :: (select before x rest).2 ≡ₚ x :: rest.
Proof.
  revert x. induction rest as [|y rest IH]; intros x; simpl; [done|].
  destruct (before y x).
  - specialize (IH y). destruct (select before y rest) as [m r]. simpl in *.
    by rewrite (Permutation_swap x m r), IH.
  - specialize (IH x). destruct (select before x rest) as [m r]. simpl in *.
    rewrite (Permutation_swap y m r), IH. apply Permutation_swap.
Qed.

(** One run of the inner loop, on the array cut at [i] and [j]. *)
Lemma inner_loop_select (todo : list A) :
  ∀ (x : A) (pre mid : list A),
    inner_loop before (List.length pre) (List.length pre + S (List.length mid))
      (List.length todo) (pre ++ x :: mid ++ todo)
    = pre ++ (select before x todo).1 :: mid ++ (select before x todo).2.
Proof.
  induction todo as [|y todo IH]; intros x pre mid; simpl; [done|].
  assert (Hi : (pre ++ x :: mid ++ y :: todo) !! List.length pre = Some x)
    by by apply list_lookup_middle.
  assert (Hj : (pre ++ x :: mid ++ y :: todo)
                 !! (List.length pre + S (List.length mid))%nat = Some y).
  { rewrite lookup_app_r by lia.
    replace (List.length pre + S (List.length mid) - List.length pre)%nat
      with (S (List.length mid)) by lia.
    simpl. by apply list_lookup_middle. }
  unfold exchange at 1. rewrite Hi, Hj.
  replace (S (List.length pre + S (List.length mid)))
    with (List.length pre + S (List.length (mid ++ [x])))%nat
    by (rewrite length_app; simpl; lia).
  destruct (before y x).
  - replace (<[List.length pre:=y]>
               (<[(List.length pre + S (List.length mid))%nat:=x]>
                  (pre ++ x :: mid ++ y :: todo)))
      with (pre ++ y :: (mid ++ [x]) ++ todo).
    + rewrite IH. destruct (select before y todo) as [m r]. simpl.
      by rewrite <- app_assoc.
    + rewrite insert_app_r. simpl.
      rewrite (insert_app_r_alt mid) by lia. rewrite Nat.sub_diag. simpl.
      rewrite (insert_app_r_alt pre) by lia. rewrite Nat.sub_diag. simpl.
      by rewrite <- app_assoc.
  - replace (List.length (mid ++ [x])) with (List.length (mid ++ [y]))
      by (by rewrite !length_app).
    replace (pre ++ x :: mid ++ y :: todo)
      with (pre ++ x :: (mid ++ [y]) ++ todo)
      by (by rewrite <- app_assoc).
    rewrite IH. destruct (select before x todo) as [m r]. simpl.
    by rewrite <- app_assoc.
Qed.

(** The outer loop from [i] sorts what stands from [i] on. *)
Lemma outer_loop_selection (n : nat) :
  ∀ (pre l : list A),
    List.length l = n →
    outer_loop before (List.length pre) n (pre ++ l)
    = pre ++ selection before n l.
Proof.
  induction n as [|n IH]; intros pre l Hl; simpl.
  { by destruct l. }
  destruct l as [|x rest]; [done|]. simpl in Hl.
  replace (List.length (pre ++ x :: rest) - S (List.length pre))%nat
    with (List.length rest) by (rewrite length_app; simpl; lia).
  pose proof (inner_loop_select rest x pre []) as Hin. simpl in Hin.
  replace (List.length pre + 1)%nat with (S (List.length pre)) in Hin by lia.
  rewrite Hin.
  pose proof (select_length rest x) as Hlen.
  destruct (select before x rest) as [m r]. simpl in *.
  replace (pre ++ m :: r) with ((pre ++ [m]) ++ r) by (by rewrite <- app_assoc).
  replace (S (List.length pre)) with (List.length (pre ++ [m]))
    by (rewrite length_app; simpl; lia).
  rewrite IH by lia. by rewrite <- app_assoc.
Qed.

(** The loops compute the sort by selection. *)
Lemma exchange_sort_selection (a : list A) :
  exchange_sort before a = selection before (List.length a) a.
Proof. apply (outer_loop_selection (List.length a) [] a eq_refl). Qed.

Lemma selection_perm (n : nat) :
  ∀ l : list A, selection before n l ≡ₚ l.
Proof.
  induction n as [|n IH]; intros l; simpl; [done|].
  destruct l as [|x rest]; [done|].
  pose proof (select_perm rest x) as Hp.
  destruct (select before x rest) as [m r]. simpl in *.
  by rewrite IH.
Qed.

Lemma exchange_sort_perm (a : list A) : exchange_sort before a ≡ₚ a.
Proof. rewrite exchange_sort_selection. apply selection_perm. Qed.

(** [before] is a strict weak order: it never holds both ways, and its
    complement is transitive. *)
Hypothesis before_asym : ∀ x y, before x y = true → before y x = false.
Hypothesis before_neg_trans :
  ∀ x y z, before x y = false → before y z = false → before x z = false.

Lemma before_irrefl (x : A) : before x x = false.
Proof. destruct (before x x) eqn:E; [|done]. by rewrite (before_asym x x E) in E. Qed.

(** After a run of the inner loop, nothing has to come before [a[i]]. *)
Lemma select_first (rest : list A) :
  ∀ x z, z ∈ x :: rest → before z (select before x rest).1 = false.
Proof.
  induction rest as [|y rest IH]; intros x z Hz; simpl.
  { apply list_elem_of_singleton in Hz as ->. apply before_irrefl. }
  destruct (before y x) eqn:Hyx.
  - specialize (IH y). destruct (select before y rest) as [m r]. simpl in *.
    apply elem_of_cons in Hz as [->|Hz]; [|by apply IH].
    apply (before_neg_trans x y m); [by apply before_asym|].
    apply IH. by left.
  - specialize (IH x). destruct (select before x rest) as [m r]. simpl in *.
    apply elem_of_cons in Hz as [->|Hz]; [apply IH; by left|].
    apply elem_of_cons in Hz as [->|Hz].
    + apply (before_neg_trans y x m); [done|]. apply IH. by left.
    + apply IH. by right.
Qed.

Lemma selection_sorted (n : nat) :
  ∀ l : list A,
    List.length l = n →
    StronglySorted (λ a b, before b a = false) (selection before n l).
Proof.
  induction n as [|n IH]; intros l Hl; simpl.
  { destruct l; [constructor|done]. }
  destruct l as [|x rest]; [done|]. simpl in Hl.
  pose proof (select_length rest x) as Hlen.
  pose proof (select_perm rest x) as Hp.
  pose proof (select_first rest x) as Hm.
  destruct (select before x rest) as [m r]. simpl in *.
  constructor; [apply IH; lia|].
  apply Forall_forall. intros z Hz. apply Hm.
  rewrite <- Hp. right. by rewrite <- (selection_perm n r).
Qed.

Lemma exchange_sort_sorted (a : list A) :
  StronglySorted (λ x y, before y x = false) (exchange_sort before a).
Proof. rewrite exchange_sort_selection. by apply selection_sorted. Qed.

End ExchangeSortFacts.

(** A strongly sorted list, read by positions. *)
Lemma StronglySorted_lookup {A} (R : A → A → Prop) (l : list A) :
  StronglySorted R l →
  ∀ i j x y, l !! i = Some x → l !! j = Some y → (i < j)%nat → R x y.
Proof.
  induction 1 as [|a l Hs IH Hall]; intros i j x y Hi Hj Hij; [done|].
  destruct j as [|j]; [lia|]. simpl in Hj.
  destruct i as [|i]; simpl in Hi.
  - injection Hi as <-. rewrite Forall_forall in Hall. apply Hall.
    by eapply list_elem_of_lookup_2.
  - apply (IH i j); [done..|lia].
Qed.

(** ** Ranging over a map *)

Lemma range_perm {A} (schedule : list nat) :
  ∀ entries : list A, range schedule entries ≡ₚ entries.
Proof.
  induction schedule as [|pick schedule IH]; intros entries; simpl; [done|].
  destruct (entries !! (pick mod List.length entries)%nat) as [x|] eqn:E; [|done].
  rewrite IH. symmetry. by apply delete_Permutation.
Qed.

(** Every order of the entries is the order of some schedule. *)
Lemma range_complete {A} (order : list A) :
  ∀ entries : list A,
    order ≡ₚ entries → ∃ schedule, range schedule entries = order.
Proof.
  induction order as [|x order IH]; intros entries Hp.
  { apply Permutation_nil_l in Hp as ->. by exists []. }
  assert (Hx : x ∈ entries) by (rewrite <- Hp; by left).
  apply list_elem_of_lookup in Hx as [i Hi].
  pose proof (lookup_lt_Some _ _ _ Hi) as Hlt.
  destruct (IH (delete i entries)) as [schedule Hs].
  { apply (Permutation_cons_inv (a := x)). rewrite Hp. by apply delete_Permutation. }
  exists (i :: schedule). simpl.
  rewrite Nat.mod_small by done. by rewrite Hi, Hs.
Qed.

(** ** Grouping *)

Lemma moreFrequent_asym (x y : GroupedViolation) :
  moreFrequent x y = true → moreFrequent y x = false.
Proof. unfold moreFrequent. lia. Qed.

Lemma moreFrequent_neg_trans (x y z : GroupedViolation) :
  moreFrequent x y = false → moreFrequent y z = false →
  moreFrequent x z = false.
Proof. unfold moreFrequent. lia. Qed.

(** The groups returned are the groups of the map, whatever the schedule. *)
Lemma groupViolations_perm (schedule : list nat)
    (results : list ReportPageResult) :
  groupViolations schedule results ≡ₚ (map_to_list (buildGroups results)).*2.
Proof.
  unfold groupViolations. by rewrite exchange_sort_perm, range_perm.
Qed.

Lemma groupViolations_lookup (schedule : list nat)
    (results : list ReportPageResult) (g : GroupedViolation) :
  g ∈ groupViolations schedule results ↔
  ∃ key, buildGroups results !! key = Some g.
Proof.
  rewrite groupViolations_perm, list_elem_of_fmap. split.
  - intros [[key g'] [-> Hin]]. exists key. by apply elem_of_map_to_list.
  - intros [key Hkey]. exists (key, g). split; [done|].
    by apply elem_of_map_to_list.
Qed.

(** C5: the sequence returned by [groupViolations] is sorted by
    non-increasing count: for all positions [i < j] of the output, the count
    of the group at [i] is at least the count of the group at [j]. This
    holds for every order in which the map happens to be ranged over. *)
Theorem groupViolations_sorted_by_count (schedule : list nat)
    (results : list ReportPageResult) (i j : nat) (gi gj : GroupedViolation) :
  groupViolations schedule results !! i = Some gi →
  groupViolations schedule results !! j = Some gj →
  (i < j)%nat →
  GroupedViolation.Count gi >= GroupedViolation.Count gj.
Proof.
  intros Hi Hj Hij.
  pose proof (exchange_sort_sorted moreFrequent moreFrequent_asym
                moreFrequent_neg_trans
                (range schedule (map_to_list (buildGroups results)).*2)) as Hs.
  pose proof (StronglySorted_lookup _ _ Hs i j gi gj Hi Hj Hij) as H.
  unfold moreFrequent in H. lia.
Qed.

(** The theorem on [mixedPages], at the first two positions. *)
Lemma groupViolations_sorted_by_count_witness :
  GroupedViolation.Count (nth 0 (groupViolations [0; 1]%nat mixedPages) noGroup)
  >= GroupedViolation.Count (nth 1 (groupViolations [0; 1]%nat mixedPages) noGroup).
Proof.
  apply (groupViolations_sorted_by_count [0; 1]%nat mixedPages 0 1).
  - vm_compute. reflexivity.
  - vm_compute. reflexivity.
  - lia.
Defined.

(** C1: two runs of [groupViolations] on the same pages need not return the
    same sequence. On [tiedPage], whose two groups both have count 1, the
    run that ranges over the map in one order and the run that ranges over
    it in the other order return the two groups in opposite positions: the
    sort exchanges two groups only when the later one has a strictly larger
    count, so the order of the range survives among equal counts. *)
Theorem groupViolations_order_follows_range :
  List.map GroupedViolation.Key (groupViolations [0]%nat tiedPage)
    = ["script-src -> inline"; "img-src -> https://cdn.example"]
  ∧ List.map GroupedViolation.Key (groupViolations [1]%nat tiedPage)
    = ["img-src -> https://cdn.example"; "script-src -> inline"]
  ∧ groupViolations [0]%nat tiedPage ≠ groupViolations [1]%nat tiedPage.
Proof.
  split; [by vm_compute|]. split; [by vm_compute|].
  intros H. apply (f_equal (List.map GroupedViolation.Key)) in H.
  vm_compute in H. discriminate H.
Qed.

(** What two runs do share: the same groups, and the same counts position
    by position. *)
Lemma groupViolations_same_groups (s1 s2 : list nat)
    (results : list ReportPageResult) :
  groupViolations s1 results ≡ₚ groupViolations s2 results.
Proof. by rewrite !groupViolations_perm. Qed.

(** ** The count of a group *)

Lemma pages_append_total (pages : gmap string (list Violation))
    (url : string) (v : Violation) :
  sum_list_with List.length
    (map_to_list (<[url := default [] (pages !! url) ++ [v]]> pages)).*2
  = S (sum_list_with List.length (map_to_list pages).*2).
Proof.
  destruct (pages !! url) as [old|] eqn:E; simpl.
  - rewrite <- (insert_delete_eq pages).
    rewrite map_to_list_insert by apply lookup_delete_eq.
    rewrite <- (map_to_list_delete pages url old E).
    simpl. rewrite length_app. simpl. lia.
  - rewrite map_to_list_insert by done. done.
Qed.

Lemma addViolation_countsPages (url : string) (v : Violation)
    (groups : gmap string GroupedViolation) :
  countsPages groups → countsPages (addViolation url groups v).
Proof.
  intros Hinv key g. unfold addViolation.
  destruct (decide (groupKey v = key)) as [<-|Hne].
  - rewrite lookup_insert_eq. intros [= <-].
    unfold pagesTotal. simpl. rewrite pages_append_total.
    destruct (groups !! groupKey v) as [g0|] eqn:E; simpl.
    + rewrite (Hinv _ _ E). unfold pagesTotal. lia.
    + rewrite map_to_list_empty. simpl. lia.
  - rewrite lookup_insert_ne by done. apply Hinv.
Qed.

Lemma buildGroups_countsPages (results : list ReportPageResult) :
  countsPages (buildGroups results).
Proof.
  unfold buildGroups.
  assert (Hgen : ∀ groups, countsPages groups →
    countsPages
      (fold_left
         (λ groups r,
            fold_left (addViolation (ReportPageResult.URL r))
              (ReportPageResult.Violations r) groups) results groups)).
  { induction results as [|r results IH]; intros groups Hg; simpl; [done|].
    apply IH. generalize (ReportPageResult.Violations r). intros vs.
    revert groups Hg. induction vs as [|v vs IHv]; intros groups Hg; simpl.
    - done.
    - apply IHv. by apply addViolation_countsPages. }
  apply Hgen. intros key g. by rewrite lookup_empty.
Qed.

(** C6: every group returned by [groupViolations] has a count equal to the
    sum, over the pages of its [Pages] map, of the length of the violation
    list of the page; in scenario D (the same key three times on one page
    and twice on another) the result is one group of count 5 with two page
    entries. *)
Theorem groupViolations_count_is_pages_total (schedule : list nat)
    (results : list ReportPageResult) :
  Forall (λ g, GroupedViolation.Count g = pagesTotal g)
    (groupViolations schedule results)
  ∧ List.map (λ g, (GroupedViolation.Key g, GroupedViolation.Count g,
                    List.map (λ p, (p.1, List.length p.2))
                      (map_to_list (GroupedViolation.Pages g))))
      (groupViolations schedule scenarioD)
    = [("img-src -> https://cdn.example", 5,
        [("https://example.org/a", 3%nat); ("https://example.org/b", 2%nat)])].
Proof.
  split.
  - apply Forall_forall. intros g Hg.
    apply groupViolations_lookup in Hg as [key Hkey].
    by apply (buildGroups_countsPages results key).
  - unfold groupViolations.
    assert (Hone : (map_to_list (buildGroups scenarioD)).*2
                   = [nth 0 (map_to_list (buildGroups scenarioD)).*2 noGroup])
      by by vm_compute.
    pose proof (range_perm schedule (map_to_list (buildGroups scenarioD)).*2) as Hp.
    rewrite Hone in Hp at 2. apply Permutation_singleton_r in Hp.
    rewrite Hp. by vm_compute.
Qed.

(** ** The engines of a merged group *)

Lemma nameBefore_asym (x y : string) :
  nameBefore x y = true → nameBefore y x = false.
Proof.
  unfold nameBefore, String.ltb. rewrite (String.compare_antisym x y).
  by destruct (String.compare y x).
Qed.

Lemma nameBefore_leb (x y : string) :
  nameBefore x y = false ↔ String.le y x.
Proof.
  unfold nameBefore, String.le, String.ltb, String.leb.
  rewrite (String.compare_antisym x y).
  destruct (String.compare y x); simpl; naive_solver.
Qed.

Lemma nameBefore_neg_trans (x y z : string) :
  nameBefore x y = false → nameBefore y z = false → nameBefore x z = false.
Proof.
  rewrite !nameBefore_leb. intros Hyx Hzy.
  by transitivity y.
Qed.

Lemma nameBefore_total (x y : string) :
  nameBefore x y = false → x ≠ y → nameBefore y x = true.
Proof.
  intros Hxy Hne. destruct (nameBefore y x) eqn:Hyx; [done|].
  apply nameBefore_leb in Hxy, Hyx.
  destruct Hne. by apply (anti_symm String.le).
Qed.

(** Sorting the names of a set of engines leaves them strictly ascending. *)
Lemma sorted_names_ascending (names : list string) :
  NoDup names →
  strictlyAscending (exchange_sort nameBefore names)
  ∧ NoDup (exchange_sort nameBefore names).
Proof.
  intros Hnd.
  assert (Hnd' : NoDup (exchange_sort nameBefore names))
    by by rewrite exchange_sort_perm.
  split; [|done].
  intros i j a b Hi Hj Hij.
  pose proof (exchange_sort_sorted nameBefore nameBefore_asym
                nameBefore_neg_trans names) as Hs.
  pose proof (StronglySorted_lookup _ _ Hs i j a b Hi Hj Hij) as Hba.
  simpl in Hba. apply nameBefore_total; [done|].
  intros ->. apply (NoDup_lookup _ i j a Hnd' Hi) in Hj. lia.
Qed.

Lemma Forall_imap {A B} (P : B → Prop) (l : list A) :
  ∀ f : nat → A → B, (∀ k x, P (f k x)) → Forall P (imap f l).
Proof.
  induction l as [|x l IH]; intros f Hf; simpl; constructor; [done|].
  apply IH. intros k y. apply Hf.
Qed.

Lemma attachBrowsers_ascending (schedules : nat → list nat)
    (groupBrowsers : gmap string (gset string))
    (grouped : list GroupedViolation) :
  Forall
    (λ mg, strictlyAscending (MergedGroup.Browsers mg)
           ∧ NoDup (MergedGroup.Browsers mg))
    (attachBrowsers schedules groupBrowsers grouped).
Proof.
  apply Forall_imap. intros k g. simpl.
  apply sorted_names_ascending.
  rewrite range_perm. apply NoDup_elements.
Qed.

(** C7: every merged group returned by [groupViolationsMulti] and by
    [groupViolationsMultiByDisposition] has a [Browsers] list that is
    strictly ascending in lexicographic order, and so holds no engine name
    twice; this for every order in which the maps are ranged over. *)
Theorem merged_browsers_strictly_ascending (schedule : list nat)
    (schedules : nat → list nat) (browsers : list BrowserReport)
    (disposition : string) :
  Forall
    (λ mg, strictlyAscending (MergedGroup.Browsers mg)
           ∧ NoDup (MergedGroup.Browsers mg))
    (groupViolationsMulti schedule schedules browsers)
  ∧ Forall
      (λ mg, strictlyAscending (MergedGroup.Browsers mg)
             ∧ NoDup (MergedGroup.Browsers mg))
      (groupViolationsMultiByDisposition schedule schedules browsers
         disposition).
Proof.
  unfold groupViolationsMulti, groupViolationsMultiByDisposition.
  destruct (poolPages browsers) as [all gb].
  destruct (poolPagesByDisposition browsers disposition) as [all' gb'].
  split; apply attachBrowsers_ascending.
Qed.

(** The theorem at work: two engines report the pages of [mixedPages], and
    every group lists both, in ascending order, whatever the schedules. *)
Example merged_browsers_of_two_engines :
  List.map MergedGroup.Browsers
    (groupViolationsMulti [1]%nat (λ _, [1]%nat)
       [BrowserReport.mk "webkit"
          (Report.mk "" ∅ (ReportTotals.mk 2 3) mixedPages "") [] [];
        BrowserReport.mk "chromium"
          (Report.mk "" ∅ (ReportTotals.mk 2 3) mixedPages "") [] []])
  = [["chromium"; "webkit"]; ["chromium"; "webkit"]].
Proof. by vm_compute. Qed.

(** ** The two disposition filters *)

Lemma isDisposition_exclusive (disposition : string) :
  recognized disposition →
  isDisposition disposition "enforce"
  = negb (isDisposition disposition "report-only").
Proof.
  unfold recognized, isDisposition.
  generalize (ToLower (TrimSpace disposition)). intros a.
  by intros [->|[->| ->]].
Qed.

Lemma filter_split {A} (p q : A → bool) (l : list A) :
  (∀ x, x ∈ l → p x = negb (q x)) →
  List.filter p l ++ List.filter q l ≡ₚ l.
Proof.
  induction l as [|x l IH]; intros H; simpl; [done|].
  rewrite (H x) by by left.
  assert (IH' : List.filter p l ++ List.filter q l ≡ₚ l)
    by (apply IH; intros y Hy; apply H; by right).
  destruct (q x); simpl.
  - by rewrite <- Permutation_middle, IH'.
  - by rewrite IH'.
Qed.

(** C4: on pages whose dispositions, once trimmed and lowercased, are all
    empty, [enforce] or [report-only], each violation is kept by exactly one
    of the two filters, [isDisposition d "enforce"] and
    [isDisposition d "report-only"]: never by both and never by neither. So
    the two filtered lists of a page together hold the violations of the
    page, each once. *)
Theorem disposition_filters_partition (results : list ReportPageResult) :
  Forall
    (λ r, Forall (λ v, recognized (Violation.Disposition v))
            (ReportPageResult.Violations r)) results →
  Forall
    (λ r,
       Forall
         (λ v,
            xorb (isDisposition (Violation.Disposition v) "enforce")
                 (isDisposition (Violation.Disposition v) "report-only")
            = true)
         (ReportPageResult.Violations r)
       ∧ ReportPageResult.Violations (keepDisposition "enforce" r)
         ++ ReportPageResult.Violations (keepDisposition "report-only" r)
         ≡ₚ ReportPageResult.Violations r)
    results.
Proof.
  intros H. eapply Forall_impl; [exact H|]. clear H. intros r Hr. simpl in *.
  rewrite Forall_forall in Hr. split.
  - apply Forall_forall. intros v Hv.
    rewrite (isDisposition_exclusive _ (Hr v Hv)).
    by destruct (isDisposition (Violation.Disposition v) "report-only").
  - apply filter_split. intros v Hv. by apply isDisposition_exclusive, Hr.
Qed.

(** The theorem on [recognizedPages]. *)
Lemma disposition_filters_partition_witness :
  Forall
    (λ r,
       Forall
         (λ v,
            xorb (isDisposition (Violation.Disposition v) "enforce")
                 (isDisposition (Violation.Disposition v) "report-only")
            = true)
         (ReportPageResult.Violations r)
       ∧ ReportPageResult.Violations (keepDisposition "enforce" r)
         ++ ReportPageResult.Violations (keepDisposition "report-only" r)
         ≡ₚ ReportPageResult.Violations r)
    recognizedPages.
Proof.
  apply (disposition_filters_partition recognizedPages).
  unfold recognizedPages.
  repeat (first [apply Forall_nil_2 | apply Forall_cons_2]);
    vm_compute; auto.
Defined.

(** ** Repairing a configuration *)

Lemma repairConfig_valid (d : CSPConfig) : validConfig (repairConfig d).
Proof.
  unfold validConfig, repairConfig. simpl.
  repeat split;
    repeat match goal with
      | |- context [if ?b then _ else _] => destruct b eqn:?
      end; try lia; try done;
    intros Heq; rewrite Heq in *; done.
Qed.

Lemma repairConfig_repairs (d : CSPConfig) : repairs d (repairConfig d).
Proof.
  unfold repairs, repairConfig. simpl.
  repeat split; intros H;
    repeat match goal with
      | |- context [if ?b then _ else _] => destruct b eqn:?
      end; try lia; try done; by rewrite H in *.
Qed.

Lemma repairConfig_keeps (d : CSPConfig) : keeps d (repairConfig d).
Proof.
  unfold keeps, repairConfig. simpl.
  repeat split; intros H;
    repeat match goal with
      | |- context [if ?b then _ else _] => destruct b eqn:?
      end; try lia; try done;
    match goal with
    | E : String.eqb _ _ = true |- _ => by apply String.eqb_eq in E
    end.
Qed.

(** C8: whenever the stored JSON decodes, [parseConfig] succeeds and
    repairs the invalid values instead of carrying them through: a
    [navTimeoutMs] that is zero or negative becomes 30000, a [concurrency]
    that is not positive becomes 1, a negative [settleWaitMs] or
    [betweenUrlMs] becomes 0, an empty [waitUntil] becomes
    [domcontentloaded], an empty [userAgent] or [acceptLanguage] becomes the
    default one; the result has positive timeout and concurrency,
    non-negative waits and no empty string among these, and the values
    that were valid are kept. *)
Theorem parseConfig_repairs_invalid_values
    (json_Unmarshal : string → CSPConfig → CSPConfig * option error)
    (raw : string) (d : CSPConfig) :
  TrimSpace raw ≠ "" →
  json_Unmarshal raw defaultConfig = (d, None) →
  ∃ cfg, parseConfig json_Unmarshal raw = (cfg, None)
         ∧ repairs d cfg ∧ validConfig cfg ∧ keeps d cfg.
Proof.
  intros Hraw Hd. exists (repairConfig d). unfold parseConfig.
  destruct (String.eqb (TrimSpace raw) "") eqn:E.
  { by apply String.eqb_eq in E. }
  rewrite Hd. split; [done|]. split; [|split].
  - apply repairConfig_repairs.
  - apply repairConfig_valid.
  - apply repairConfig_keeps.
Qed.

(** The theorem on scenario A, decoded by [FlatJSON.Unmarshal]. *)
Lemma parseConfig_repairs_invalid_values_witness :
  ∃ cfg, parseConfig FlatJSON.Unmarshal scenarioA = (cfg, None)
         ∧ repairs
             (CSPConfig.mk "networkidle" (-5) 3000 1 600
                (CSPConfig.UserAgent defaultConfig) "en-US,en;q=0.9" "chromium")
             cfg
         ∧ validConfig cfg
         ∧ keeps
             (CSPConfig.mk "networkidle" (-5) 3000 1 600
                (CSPConfig.UserAgent defaultConfig) "en-US,en;q=0.9" "chromium")
             cfg.
Proof.
  apply (parseConfig_repairs_invalid_values FlatJSON.Unmarshal scenarioA).
  - vm_compute. discriminate.
  - vm_compute. reflexivity.
Defined.

(** Scenario A, run: the timeout read is the fixed 30000, not -5. *)
Example parseConfig_scenarioA :
  CSPConfig.NavTimeoutMs (parseConfig FlatJSON.Unmarshal scenarioA).1 = 30000
  ∧ (parseConfig FlatJSON.Unmarshal scenarioA).2 = None.
Proof. by vm_compute. Qed.

(** C8 as the specification words it, for every stored text, fails on
    [mistypedJSON]: the decoder reports the number under [waitUntil], reads
    the [concurrency] of zero all the same, and [parseConfig] returns at the
    error, before any repair, with that zero. *)
Lemma parseConfig_returns_before_repair :
  ¬ repairsEveryStored FlatJSON.Unmarshal mistypedJSON.
Proof.
  unfold repairsEveryStored. intros (_ & Hconcurrency & _).
  assert (Hread :
    CSPConfig.Concurrency (FlatJSON.Unmarshal mistypedJSON defaultConfig).1 = 0)
    by (by vm_compute).
  assert (Hkept :
    CSPConfig.Concurrency (parseConfig FlatJSON.Unmarshal mistypedJSON).1 = 0)
    by (by vm_compute).
  rewrite Hread, Hkept in Hconcurrency. by specialize (Hconcurrency ltac:(lia)).
Qed.

(** What [parseConfig] returns there: the error of the decoder with the
    struct as the decoder left it. *)
Example parseConfig_mistypedJSON :
  parseConfig FlatJSON.Unmarshal mistypedJSON
  = (CSPConfig.mk "networkidle" 45000 3000 0 600
       (CSPConfig.UserAgent defaultConfig) "en-US,en;q=0.9" "chromium",
     Some
       "json: cannot unmarshal number into Go struct field CSPConfig.waitUntil of type string").
Proof. by vm_compute. Qed.

(** ** The submitted URL list *)

(** C9: [parseURLList] on the five lines [# comment],
    [https://example.org], [ftp://example.org], the empty line and
    [not-a-url] returns the one URL [https://example.org/]: the comment, the
    blank line, the scheme that is not http(s) and the text that is no URL
    are dropped, and the empty path of the accepted URL becomes [/]. *)
Theorem parseURLList_scenarioB :
  parseURLList scenarioB = ["https://example.org/"]
  ∧ acceptLine "# comment" = None
  ∧ acceptLine "https://example.org" = Some "https://example.org/"
  ∧ acceptLine "ftp://example.org" = None
  ∧ acceptLine "" = None
  ∧ acceptLine "not-a-url" = None.
Proof. by vm_compute. Qed.

(** The cases of [TestNormalizeURL] and the input of [TestParseURLList],
    run on the model. *)
Example TestNormalizeURL :
  List.map normalizeURL
    ["https://example.org"; "https://example.org/";
     "https://example.org/path"; "http://example.org"; "not-a-url";
     "https://"]
  = [Some "https://example.org/"; Some "https://example.org/";
     Some "https://example.org/path"; Some "http://example.org/"; None;
     None].
Proof. by vm_compute. Qed.

Example TestParseURLList :
  parseURLList
    ("# comment" +:+ newline +:+ "https://example.org" +:+ newline
     +:+ "https://example.org/path" +:+ newline
     +:+ "  https://example.org/space  # trailing comment" +:+ newline
     +:+ "ftp://example.org" +:+ newline +:+ "not-a-url" +:+ newline
     +:+ newline)
  = ["https://example.org/"; "https://example.org/path";
     "https://example.org/space"].
Proof. by vm_compute. Qed.

(** ** Byte strings *)

Lemma append_cons (a : ascii) (s t : string) :
  String a s +:+ t = String a (s +:+ t).
Proof. reflexivity. Qed.

Lemma append_nil_l (s : string) : "" +:+ s = s.
Proof. reflexivity. Qed.

Lemma append_nil_r (s : string) : s +:+ "" = s.
Proof. induction s as [|a s IH]; [done|]. by rewrite append_cons, IH. Qed.

Lemma append_assoc (s t u : string) : (s +:+ t) +:+ u = s +:+ (t +:+ u).
Proof. induction s as [|a s IH]; [done|]. by rewrite !append_cons, IH. Qed.

Lemma length_append (s t : string) :
  length (s +:+ t) = (length s + length t)%nat.
Proof. induction s as [|a s IH]; [done|]. rewrite append_cons. simpl. by rewrite IH. Qed.

Lemma rev_app_append (s acc : string) :
  String.rev_app s acc = String.rev s +:+ acc.
Proof.
  unfold String.rev. revert acc.
  induction s as [|a s IH]; intros acc; simpl; [done|].
  rewrite (IH (String a acc)), (IH (String a "")).
  by rewrite append_assoc.
Qed.

Lemma rev_cons (a : ascii) (s : string) :
  String.rev (String a s) = String.rev s +:+ String a "".
Proof. unfold String.rev at 1. simpl. apply rev_app_append. Qed.

Lemma rev_append (s t : string) :
  String.rev (s +:+ t) = String.rev t +:+ String.rev s.
Proof.
  induction s as [|a s IH].
  - by rewrite append_nil_r.
  - by rewrite append_cons, !rev_cons, IH, append_assoc.
Qed.

Lemma rev_involutive (s : string) : String.rev (String.rev s) = s.
Proof.
  induction s as [|a s IH]; [done|].
  by rewrite rev_cons, rev_append, IH.
Qed.

Lemma length_rev (s : string) : length (String.rev s) = length s.
Proof.
  induction s as [|a s IH]; [done|].
  rewrite rev_cons, length_append, IH. simpl. lia.
Qed.

Lemma has_byte_append (c : ascii) (s t : string) :
  has_byte c (s +:+ t) = has_byte c s || has_byte c t.
Proof.
  induction s as [|a s IH]; [done|].
  rewrite append_cons. simpl. rewrite IH. by rewrite orb_assoc.
Qed.

Lemma has_byte_rev (c : ascii) (s : string) :
  has_byte c (String.rev s) = has_byte c s.
Proof.
  induction s as [|a s IH]; [done|].
  rewrite rev_cons, has_byte_append, IH. simpl.
  rewrite orb_false_r. apply orb_comm.
Qed.

Lemma has_byte_drop (c : ascii) (n : nat) :
  ∀ s, has_byte c s = false → has_byte c (drop n s) = false.
Proof.
  induction n as [|n IH]; intros s Hs; [by destruct s|].
  destruct s as [|a s]; [done|]. simpl in *.
  apply orb_false_iff in Hs as [_ Hs]. by apply IH.
Qed.

Lemma HasPrefix_byte (a c : ascii) (s : string) :
  HasPrefix (String a s) (String c "") = Ascii.eqb a c.
Proof. simpl. by destruct (Ascii.eqb a c). Qed.

Lemma Index_cons (a : ascii) (s substr : string) :
  Index (String a s) substr
  = if HasPrefix (String a s) substr then 0
    else if Index s substr <? 0 then -1 else Index s substr + 1.
Proof. reflexivity. Qed.

Lemma Index_lower_bound (s substr : string) : -1 <= Index s substr.
Proof.
  induction s as [|a s IH].
  - destruct substr; simpl; lia.
  - rewrite Index_cons. destruct (HasPrefix (String a s) substr); [lia|].
    destruct (Index s substr <? 0); lia.
Qed.

(** [strings.Index(s, c) < 0] says that the byte does not occur. *)
Lemma Index_byte (c : ascii) (s : string) :
  Index s (String c "") = -1 ↔ has_byte c s = false.
Proof.
  induction s as [|a s IH]; [done|].
  rewrite Index_cons, HasPrefix_byte. simpl.
  destruct (Ascii.eqb a c); simpl; [done|].
  pose proof (Index_lower_bound s (String c "")) as Hge.
  destruct (Index s (String c "") <? 0) eqn:E.
  - split; [|done]. intros _. apply IH. lia.
  - split; [lia|]. intros Hb. apply IH in Hb. lia.
Qed.

Lemma Index_append_byte (c : ascii) (s t : string) :
  has_byte c s = false →
  Index (s +:+ String c t) (String c "") = Z.of_nat (length s).
Proof.
  induction s as [|a s IH]; intros Hs.
  - rewrite append_nil_l, Index_cons, HasPrefix_byte.
    by rewrite Ascii.eqb_refl.
  - rewrite append_cons, Index_cons, HasPrefix_byte. simpl in *.
    apply orb_false_iff in Hs as [Ha Hs]. rewrite Ha.
    rewrite (IH Hs).
    destruct (Z.of_nat (length s) <? 0) eqn:E; lia.
Qed.

Lemma take_append (s t : string) : take (length s) (s +:+ t) = s.
Proof.
  induction s as [|a s IH]; [by destruct t|].
  rewrite append_cons. simpl. by rewrite IH.
Qed.

Lemma Split_one_line (s : string) :
  has_byte (ascii_of_nat 10) s = false → Split s newline = [s].
Proof.
  unfold Split, newline. induction s as [|a s IH]; intros Hs; [done|].
  simpl in Hs. apply orb_false_iff in Hs as [Ha Hs].
  cbn [split_from]. rewrite HasPrefix_byte, Ha. by rewrite (IH Hs).
Qed.

(** ** Trimming white space around a byte that is no white space *)

Lemma HasPrefix_append_byte (c : ascii) (t w : string) :
  has_byte c w = false →
  ∀ s, HasPrefix (s +:+ String c t) w = HasPrefix s w.
Proof.
  induction w as [|p w IH]; intros Hw s; [done|].
  simpl in Hw. apply orb_false_iff in Hw as [Hp Hw].
  destruct s as [|a s].
  - rewrite append_nil_l. simpl. by rewrite Ascii.eqb_sym, Hp.
  - rewrite append_cons. simpl. by rewrite (IH Hw).
Qed.

Lemma drop_append (t w : string) :
  ∀ s, HasPrefix s w = true →
       drop (length w) (s +:+ t) = drop (length w) s +:+ t.
Proof.
  induction w as [|p w IH]; intros s Hs; simpl.
  - by destruct s.
  - destruct s as [|a s]; [done|]. simpl in Hs.
    apply andb_true_iff in Hs as [_ Hs]. rewrite append_cons. by apply IH.
Qed.

Lemma length_drop_prefix (w : string) :
  ∀ s, HasPrefix s w = true →
       (length (drop (length w) s) + length w = length s)%nat.
Proof.
  induction w as [|p w IH]; intros s Hs; simpl.
  - destruct s; simpl; lia.
  - destruct s as [|a s]; [done|]. simpl in Hs.
    apply andb_true_iff in Hs as [_ Hs]. specialize (IH s Hs). simpl. lia.
Qed.

Section Trim.
Context (c : ascii) (t : string).

Lemma leading_append (table : list string) :
  clear_of c table = true →
  ∀ s, leading table (s +:+ String c t)
       = (λ r, r +:+ String c t) <$> leading table s.
Proof.
  induction table as [|w table IH]; intros Hc s; [done|].
  simpl in Hc. apply andb_true_iff in Hc as [Hw Hc].
  apply andb_true_iff in Hw as [_ Hw]. apply negb_true_iff in Hw.
  simpl. rewrite (HasPrefix_append_byte c t w Hw).
  destruct (HasPrefix s w) eqn:E.
  - simpl. by rewrite drop_append.
  - by apply IH.
Qed.

Lemma leading_length (table : list string) :
  clear_of c table = true →
  ∀ s r, leading table s = Some r → (length r < length s)%nat.
Proof.
  induction table as [|w table IH]; intros Hc s r; [done|].
  simpl in Hc. apply andb_true_iff in Hc as [Hw Hc].
  apply andb_true_iff in Hw as [Hne _]. apply negb_true_iff in Hne.
  simpl. destruct (HasPrefix s w) eqn:E; [|by apply IH].
  intros [= <-]. pose proof (length_drop_prefix w s E).
  destruct w; [done|]. simpl in *. lia.
Qed.

Lemma leading_has_byte (table : list string) (b : ascii) :
  ∀ s r, leading table s = Some r → has_byte b s = false →
         has_byte b r = false.
Proof.
  induction table as [|w table IH]; intros s r; [done|].
  simpl. destruct (HasPrefix s w); [|by apply IH].
  intros [= <-]. apply has_byte_drop.
Qed.

Lemma trim_loop_append (table : list string) :
  clear_of c table = true →
  ∀ n s, trim_loop table n (s +:+ String c t)
         = trim_loop table n s +:+ String c t.
Proof.
  intros Hc. induction n as [|n IH]; intros s; simpl; [done|].
  rewrite (leading_append table Hc). destruct (leading table s); simpl; auto.
Qed.

(** Fuel beyond the length of the string changes nothing. *)
Lemma trim_loop_fuel (table : list string) :
  clear_of c table = true →
  ∀ n m s, (length s <= n)%nat → (length s <= m)%nat →
           trim_loop table n s = trim_loop table m s.
Proof.
  intros Hc. induction n as [|n IH]; intros m s Hn Hm.
  - destruct s; [|simpl in Hn; lia]. destruct m; simpl; [done|].
    destruct (leading table "") as [r|] eqn:E; [|done].
    apply (leading_length table Hc) in E. simpl in E. lia.
  - destruct m as [|m].
    + destruct s; [|simpl in Hm; lia]. simpl.
      destruct (leading table "") as [r|] eqn:E; [|done].
      apply (leading_length table Hc) in E. simpl in E. lia.
    + simpl. destruct (leading table s) as [r|] eqn:E; [|done].
      apply (leading_length table Hc) in E. apply IH; lia.
Qed.

(** With enough fuel the loop stops where no white space leads. *)
Lemma trim_loop_stops (table : list string) :
  clear_of c table = true →
  ∀ n s, (length s <= n)%nat → leading table (trim_loop table n s) = None.
Proof.
  intros Hc. induction n as [|n IH]; intros s Hn.
  - destruct s; [|simpl in Hn; lia]. simpl.
    destruct (leading table "") as [r|] eqn:E; [|done].
    apply (leading_length table Hc) in E. simpl in E. lia.
  - simpl. destruct (leading table s) as [r|] eqn:E; [|done].
    apply (leading_length table Hc) in E. apply IH. lia.
Qed.

Lemma trim_loop_fixed (table : list string) (n : nat) (s : string) :
  leading table s = None → trim_loop table n s = s.
Proof. intros H. destruct n; simpl; [done|]. by rewrite H. Qed.

Lemma trim_loop_has_byte (table : list string) (b : ascii) :
  ∀ n s, has_byte b s = false → has_byte b (trim_loop table n s) = false.
Proof.
  induction n as [|n IH]; intros s Hs; simpl; [done|].
  destruct (leading table s) as [r|] eqn:E; [|done].
  apply IH. by apply (leading_has_byte table b s r).
Qed.

End Trim.

(** No white-space encoding holds the byte [#]. *)
Lemma spaces_clear_of_hash :
  clear_of "#" spaces = true
  ∧ clear_of "#" (List.map String.rev spaces) = true.
Proof. by vm_compute. Qed.

Lemma TrimLeftSpace_before_hash (s t : string) :
  TrimLeftSpace (s +:+ String "#" t) = TrimLeftSpace s +:+ String "#" t.
Proof.
  destruct spaces_clear_of_hash as [Hc _]. unfold TrimLeftSpace.
  rewrite (trim_loop_append "#" t spaces Hc).
  f_equal. apply (trim_loop_fuel "#" spaces Hc); [|done].
  rewrite length_append. lia.
Qed.

Lemma TrimRightSpace_after_hash (x t : string) :
  TrimRightSpace (x +:+ String "#" t) = x +:+ String "#" (TrimRightSpace t).
Proof.
  destruct spaces_clear_of_hash as [_ Hc]. unfold TrimRightSpace.
  rewrite rev_append, rev_cons, append_assoc, append_cons, append_nil_l.
  rewrite (trim_loop_append "#" (String.rev x) _ Hc).
  rewrite rev_append, rev_cons, rev_involutive.
  rewrite append_assoc, append_cons, append_nil_l.
  do 3 f_equal. apply (trim_loop_fuel "#" _ Hc).
  - rewrite length_rev, length_append. simpl. lia.
  - by rewrite length_rev.
Qed.

Lemma TrimLeftSpace_idempotent (s : string) :
  TrimLeftSpace (TrimLeftSpace s) = TrimLeftSpace s.
Proof.
  destruct spaces_clear_of_hash as [Hc _]. unfold TrimLeftSpace at 1.
  apply trim_loop_fixed. by apply (trim_loop_stops "#" spaces Hc).
Qed.

Lemma TrimLeftSpace_has_byte (b : ascii) (s : string) :
  has_byte b s = false → has_byte b (TrimLeftSpace s) = false.
Proof. apply trim_loop_has_byte. Qed.

Lemma TrimRightSpace_has_byte (b : ascii) (s : string) :
  has_byte b s = false → has_byte b (TrimRightSpace s) = false.
Proof.
  intros Hs. unfold TrimRightSpace. rewrite has_byte_rev.
  apply trim_loop_has_byte. by rewrite has_byte_rev.
Qed.

Lemma TrimSpace_has_byte (b : ascii) (s : string) :
  has_byte b s = false → has_byte b (TrimSpace s) = false.
Proof.
  intros Hs. by apply TrimRightSpace_has_byte, TrimLeftSpace_has_byte.
Qed.

(** The line [s # t], trimmed: what leads [s] and what trails [t] go. *)
Lemma TrimSpace_around_hash (s t : string) :
  TrimSpace (s +:+ String "#" t)
  = TrimLeftSpace s +:+ String "#" (TrimRightSpace t).
Proof.
  unfold TrimSpace.
  by rewrite TrimLeftSpace_before_hash, TrimRightSpace_after_hash.
Qed.

Lemma TrimSpace_TrimLeftSpace (s : string) :
  TrimSpace (TrimLeftSpace s) = TrimSpace s.
Proof. unfold TrimSpace. by rewrite TrimLeftSpace_idempotent. Qed.

Lemma acceptLine_unfold (raw : string) :
  acceptLine raw
  = if String.eqb (TrimSpace raw) "" then None
    else if HasPrefix (TrimSpace raw) "#" then None
    else finishLine
           (if 0 <=? Index (TrimSpace raw) "#"
            then TrimSpace
                   (take (Z.to_nat (Index (TrimSpace raw) "#")) (TrimSpace raw))
            else TrimSpace raw).
Proof. reflexivity. Qed.

Lemma eqb_cons_empty (a : ascii) (s : string) :
  String.eqb (String a s) "" = false.
Proof. reflexivity. Qed.

(** The body of the loop on a line with a [#]: what stands from the first
    [#] on is not read. *)
Lemma acceptLine_comment (s t : string) :
  has_byte "#" s = false →
  acceptLine (s +:+ String "#" t) = acceptLine s.
Proof.
  intros Hs. rewrite !acceptLine_unfold, TrimSpace_around_hash.
  pose proof (TrimLeftSpace_has_byte "#" s Hs) as Hl.
  pose proof (TrimSpace_has_byte "#" s Hs) as Hts.
  destruct (TrimLeftSpace s) as [|a l] eqn:El.
  - rewrite append_nil_l, eqb_cons_empty, HasPrefix_byte, Ascii.eqb_refl.
    unfold TrimSpace. rewrite El. reflexivity.
  - rewrite append_cons, eqb_cons_empty, HasPrefix_byte.
    simpl in Hl. apply orb_false_iff in Hl as [Ha Hl]. rewrite Ha.
    rewrite <- append_cons, <- El.
    rewrite (Index_append_byte "#" _ _ (TrimLeftSpace_has_byte "#" s Hs)).
    assert (Hnn : (0 <=? Z.of_nat (length (TrimLeftSpace s))) = true)
      by (apply Z.leb_le; lia).
    rewrite Hnn, Nat2Z.id, take_append, TrimSpace_TrimLeftSpace.
    destruct (TrimSpace s) as [|b line] eqn:Eline; [reflexivity|].
    rewrite eqb_cons_empty, HasPrefix_byte.
    simpl in Hts. apply orb_false_iff in Hts as [Hb Hline]. rewrite Hb.
    assert (Hidx : Index (String b line) "#" = -1).
    { apply Index_byte. simpl. by rewrite Hb, Hline. }
    by rewrite Hidx.
Qed.

(** C10: [parseURLList] reads a line up to its first [#], wherever the [#]
    stands: a line [s # t], with no [#] in [s], yields what the line [s]
    alone yields. So a submitted URL with a fragment is accepted without
    it: [https://example.org/page#section] yields
    [https://example.org/page]. *)
Theorem parseURLList_strips_from_first_hash (s t : string) :
  Index s "#" = -1 →
  Index s newline = -1 →
  Index t newline = -1 →
  parseURLList (s +:+ "#" +:+ t) = parseURLList s
  ∧ parseURLList "https://example.org/page#section"
    = ["https://example.org/page"].
Proof.
  intros Hs Hsn Htn. split; [|by vm_compute].
  apply Index_byte in Hs, Hsn, Htn.
  unfold parseURLList. rewrite !Split_one_line; [|done|].
  - simpl. change ("#" +:+ t) with (String "#" t).
    by rewrite (acceptLine_comment s t Hs).
  - rewrite has_byte_append, Hsn. simpl. done.
Qed.

(** The theorem on the commented line of [TestParseURLList]. *)
Lemma parseURLList_strips_from_first_hash_witness :
  parseURLList ("  https://example.org/space  " +:+ "#" +:+ " trailing comment")
  = parseURLList "  https://example.org/space  "
  ∧ parseURLList "https://example.org/page#section"
    = ["https://example.org/page"].
Proof.
  apply (parseURLList_strips_from_first_hash
           "  https://example.org/space  " " trailing comment");
    vm_compute; reflexivity.
Defined.

(** ** The error policy of the orchestrator *)


Section Orchestrator.
Context (w : World.t) (urls : list string) (cfg : CSPConfig).


End Orchestrator.




(** The exit code returned is not always the largest exit code: when a
    signal ends every engine after it wrote a report, every exit code is -1
    and [runCSPCheck] returns 0 without error. *)
Lemma runCSPCheck_killed_engines :
  (runCSPCheck killedWorld ["https://example.org/"] defaultConfig).2 = None
  ∧ returnedCode (runCSPCheck killedWorld ["https://example.org/"] defaultConfig)
    = 0
  ∧ maxExitCode killedWorld ["https://example.org/"] defaultConfig = -1.
Proof. by vm_compute. Qed.

(** ** The per-page deduplication *)

Lemma Map_get_set_eq {V} (key : string) (v : V) (m : list (string * V)) :
  Probe.Map_get key (Probe.Map_set key v m) = Some v.
Proof.
  induction m as [|[k x] m IH]; simpl.
  - by rewrite String.eqb_refl.
  - destruct (String.eqb k key) eqn:E; simpl; by rewrite E.
Qed.

Lemma Map_get_set_ne {V} (key key' : string) (v : V) (m : list (string * V)) :
  key ≠ key' →
  Probe.Map_get key' (Probe.Map_set key v m) = Probe.Map_get key' m.
Proof.
  intros Hne. induction m as [|[k x] m IH]; simpl.
  - destruct (String.eqb key key') eqn:E; [|done].
    by apply String.eqb_eq in E.
  - destruct (String.eqb k key) eqn:E; simpl; [|by rewrite IH].
    apply String.eqb_eq in E as ->.
    destruct (String.eqb key key') eqn:E'; [|done].
    by apply String.eqb_eq in E'.
Qed.

Lemma Map_get_None {V} (key : string) (m : list (string * V)) :
  Probe.Map_get key m = None ↔ key ∉ m.*1.
Proof.
  induction m as [|[k x] m IH]; simpl.
  - split; [intros _ H; by inversion H|done].
  - rewrite not_elem_of_cons. destruct (String.eqb k key) eqn:E.
    + apply String.eqb_eq in E as ->. split; [done|]. by intros [? _].
    + apply String.eqb_neq in E. rewrite IH. split; [|by intros [_ ?]].
      intros H. split; [|done]. by intros ->.
Qed.

Lemma Map_set_keys {V} (key : string) (v : V) (m : list (string * V)) :
  (Probe.Map_set key v m).*1
  = match Probe.Map_get key m with
    | Some _ => m.*1
    | None => m.*1 ++ [key]
    end.
Proof.
  induction m as [|[k x] m IH]; [done|].
  cbn [Probe.Map_set Probe.Map_get].
  destruct (String.eqb k key) eqn:E; [done|].
  rewrite !fmap_cons, IH. by destruct (Probe.Map_get key m).
Qed.

Lemma Map_set_keys_NoDup {V} (key : string) (v : V) (m : list (string * V)) :
  NoDup m.*1 → NoDup (Probe.Map_set key v m).*1.
Proof.
  intros Hnd. rewrite Map_set_keys.
  destruct (Probe.Map_get key m) eqn:E; [done|].
  apply Map_get_None in E. apply NoDup_app. split; [done|].
  split; [|apply NoDup_singleton].
  intros k Hk Hk'. apply list_elem_of_singleton in Hk' as ->. done.
Qed.

Lemma Map_get_lookup {V} (m : list (string * V)) (i : nat) (k : string) (x : V) :
  NoDup m.*1 → m !! i = Some (k, x) → Probe.Map_get k m = Some x.
Proof.
  revert i. induction m as [|[k' x'] m IH]; intros i Hnd Hi; [done|].
  simpl in Hnd. apply NoDup_cons in Hnd as [Hk' Hnd]. simpl.
  destruct i as [|i]; simpl in Hi.
  - injection Hi as -> ->. by rewrite String.eqb_refl.
  - destruct (String.eqb k' k) eqn:E.
    + apply String.eqb_eq in E as ->. destruct Hk'.
      apply list_elem_of_fmap. exists (k, x). split; [done|].
      by eapply list_elem_of_lookup_2.
    + by apply (IH i).
Qed.

Lemma Map_get_elem {V} (m : list (string * V)) (k : string) (x : V) :
  Probe.Map_get k m = Some x → x ∈ m.*2.
Proof.
  induction m as [|[k' x'] m IH]; simpl; [done|].
  destruct (String.eqb k' k); [intros [= ->]; by left|].
  intros H. right. by apply IH.
Qed.

(** The three buckets. *)
Lemma normalizeDisposition_cases (d : option string) :
  Probe.normalizeDisposition d = "report-only"
  ∨ Probe.normalizeDisposition d = "enforce"
  ∨ Probe.normalizeDisposition d = "".
Proof.
  unfold Probe.normalizeDisposition.
  destruct (Contains _ "report"); [by left|].
  destruct (String.eqb _ "enforce"); [right; by left|right; by right].
Qed.

(** [mergeViolation] returns one of its arguments, the more certain. *)
Lemma mergeViolation_spec (a b : Probe.Violation.t) :
  (Probe.mergeViolation a b = a ∨ Probe.mergeViolation a b = b)
  ∧ (certainty (bucket a) <= certainty (bucket (Probe.mergeViolation a b)))%nat
  ∧ (certainty (bucket b) <= certainty (bucket (Probe.mergeViolation a b)))%nat.
Proof.
  unfold Probe.mergeViolation, bucket.
  destruct (normalizeDisposition_cases (Probe.Violation.disposition a))
    as [Ha|[Ha|Ha]];
  destruct (normalizeDisposition_cases (Probe.Violation.disposition b))
    as [Hb|[Hb|Hb]];
  rewrite Ha, Hb; simpl; rewrite ?Ha, ?Hb; unfold certainty; simpl;
  repeat split; auto; lia.
Qed.

Lemma violationKey_tuple (x y : Probe.Violation.t) :
  dedupTuple x = dedupTuple y → Probe.violationKey x = Probe.violationKey y.
Proof.
  unfold dedupTuple, Probe.violationKey. intros [= -> -> -> -> ->]. done.
Qed.

Lemma certainty_enforce (v : Probe.Violation.t) :
  (2 <= certainty (bucket v))%nat → bucket v = "enforce".
Proof.
  unfold bucket.
  destruct (normalizeDisposition_cases (Probe.Violation.disposition v))
    as [H|[H|H]]; rewrite H; [|done|]; vm_compute; lia.
Qed.

Lemma certainty_report_only (v : Probe.Violation.t) :
  (1 <= certainty (bucket v))%nat → bucket v ≠ "enforce" →
  bucket v = "report-only".
Proof.
  unfold bucket.
  destruct (normalizeDisposition_cases (Probe.Violation.disposition v))
    as [H|[H|H]]; rewrite H; [done|done|]. vm_compute. lia.
Qed.

Lemma remember_remembers (seen : list Probe.Violation.t)
    (uniq : list (string * Probe.Violation.t)) (v : Probe.Violation.t) :
  remembers seen uniq → remembers (seen ++ [v]) (Probe.remember uniq v).
Proof.
  intros (Hnd & Hentry & Hall). unfold Probe.remember.
  set (key := Probe.violationKey v).
  assert (Hin : ∀ e, e ∈ seen ++ [v] ↔ e ∈ seen ∨ e = v).
  { intros e. rewrite elem_of_app, list_elem_of_singleton. done. }
  destruct (Probe.Map_get key uniq) as [existing|] eqn:Eget.
  - destruct (Hentry key existing Eget) as (Hkey & Hseen & Hmax).
    destruct (mergeViolation_spec existing v) as (Hwhich & Hle1 & Hle2).
    set (m := Probe.mergeViolation existing v) in *.
    assert (Hm : Probe.violationKey m = key) by (by destruct Hwhich as [-> | ->]).
    split; [by apply Map_set_keys_NoDup|]. split.
    + intros k r Hr. destruct (decide (key = k)) as [<-|Hne].
      * rewrite Map_get_set_eq in Hr. injection Hr as <-.
        split; [done|]. split.
        { apply Hin. destruct Hwhich as [-> | ->]; auto. }
        intros e He Hek. apply Hin in He as [He| ->]; [|done].
        etrans; [by apply Hmax|done].
      * rewrite Map_get_set_ne in Hr by done.
        destruct (Hentry k r Hr) as (Hk & Hrs & Hrmax).
        split; [done|]. split; [apply Hin; by left|].
        intros e He Hek. apply Hin in He as [He| ->]; [by apply Hrmax|].
        by destruct Hne.
    + intros e He. destruct (decide (key = Probe.violationKey e)) as [<-|Hne].
      * by rewrite Map_get_set_eq.
      * rewrite Map_get_set_ne by done.
        apply Hin in He as [He| ->]; [by apply Hall|by destruct Hne].
  - split; [by apply Map_set_keys_NoDup|]. split.
    + intros k r Hr. destruct (decide (key = k)) as [<-|Hne].
      * rewrite Map_get_set_eq in Hr. injection Hr as <-.
        split; [done|]. split; [apply Hin; by right|].
        intros e He Hek. apply Hin in He as [He| ->]; [|done].
        apply Hall in He as [x Hx]. rewrite Hek in Hx. congruence.
      * rewrite Map_get_set_ne in Hr by done.
        destruct (Hentry k r Hr) as (Hk & Hrs & Hrmax).
        split; [done|]. split; [apply Hin; by left|].
        intros e He Hek. apply Hin in He as [He| ->]; [by apply Hrmax|].
        by destruct Hne.
    + intros e He. destruct (decide (key = Probe.violationKey e)) as [<-|Hne].
      * by rewrite Map_get_set_eq.
      * rewrite Map_get_set_ne by done.
        apply Hin in He as [He| ->]; [by apply Hall|by destruct Hne].
Qed.

Lemma fold_remember_remembers (raw : list Probe.Violation.t) :
  ∀ seen uniq,
    remembers seen uniq →
    remembers (seen ++ raw) (fold_left Probe.remember raw uniq).
Proof.
  induction raw as [|v raw IH]; intros seen uniq H; simpl.
  - by rewrite app_nil_r.
  - replace (seen ++ v :: raw) with ((seen ++ [v]) ++ raw)
      by (by rewrite <- app_assoc).
    apply IH. by apply remember_remembers.
Qed.

(** C3, as amended: the deduplication of [checkUrl] leaves no two entries
    with the same tuple (effectiveDirective, blockedURI, sourceFile,
    lineNumber, columnNumber); every raw event has an entry under its key,
    and every entry is one of the raw events, its disposition string
    unchanged. For each entry, if the disposition of any raw event of its
    tuple normalizes to [enforce], then the disposition of the entry
    normalizes to [enforce]; otherwise, if any normalizes to [report-only],
    the disposition of the entry normalizes to [report-only]. *)
Theorem dedup_keeps_most_certain (URL_origin : string → option string)
    (events : list Probe.Event.t) :
  let raw := List.map (Probe.normalizeViolation URL_origin) events in
  let out := Probe.dedup URL_origin events in
  distinctTuples out
  ∧ (∀ e, e ∈ raw →
          ∃ r, r ∈ out ∧ Probe.violationKey r = Probe.violationKey e)
  ∧ ∀ r, r ∈ out →
      r ∈ raw
      ∧ (someEventIn raw r "enforce" → bucket r = "enforce")
      ∧ (¬ someEventIn raw r "enforce" → someEventIn raw r "report-only" →
         bucket r = "report-only").
Proof.
  intros raw out. subst out. unfold Probe.dedup. fold raw.
  assert (Hinv : remembers raw (fold_left Probe.remember raw [])).
  { apply (fold_remember_remembers raw [] []).
    split; [constructor|]. split; [done|]. intros e He. by inversion He. }
  set (uniq := fold_left Probe.remember raw []) in *.
  destruct Hinv as (Hnd & Hentry & Hall).
  assert (Hget : ∀ i r, uniq.*2 !! i = Some r →
                        ∃ k, uniq !! i = Some (k, r)
                             ∧ Probe.Map_get k uniq = Some r).
  { intros i r Hi. apply list_lookup_fmap_Some_1 in Hi as ([k r'] & -> & Hi).
    exists k. split; [done|]. by apply (Map_get_lookup uniq i). }
  split; [|split].
  - intros i j x y Hi Hj Hij Htuple.
    apply Hget in Hi as (kx & Hi & Hx). apply Hget in Hj as (ky & Hj & Hy).
    destruct (Hentry kx x Hx) as (-> & _). destruct (Hentry ky y Hy) as (-> & _).
    apply Hij. apply (NoDup_lookup uniq.*1 i j (Probe.violationKey x) Hnd).
    + by rewrite list_lookup_fmap, Hi.
    + rewrite list_lookup_fmap, Hj. simpl. f_equal. symmetry.
      by apply violationKey_tuple.
  - intros e He. destruct (Hall e He) as [r Hr]. exists r.
    split; [by eapply Map_get_elem|].
    by destruct (Hentry _ r Hr) as (<- & _).
  - intros r Hr. apply list_elem_of_lookup in Hr as [i Hi].
    apply Hget in Hi as (k & _ & Hk).
    destruct (Hentry k r Hk) as (-> & Hraw & Hmax).
    split; [done|]. split.
    + intros (e & He & Htuple & Hb). apply certainty_enforce.
      etrans; [|apply (Hmax e He); by apply violationKey_tuple].
      by rewrite Hb.
    + intros Hno (e & He & Htuple & Hb). apply certainty_report_only.
      * etrans; [|apply (Hmax e He); by apply violationKey_tuple].
        by rewrite Hb.
      * intros Hr. apply Hno. by exists r.
Qed.

(** C3, the claim as stated fails: one native report-only violation, whose
    disposition the browser gives as [report], is kept as it is; its
    disposition normalizes to [report-only] and is not the string
    [report-only]. *)
Lemma dedup_keeps_the_string_given :
  ¬ keepsLiteralDisposition noOrigin [reportEvent].
Proof.
  intros [_ H].
  destruct (H (Probe.normalizeViolation noOrigin reportEvent)) as [_ Hreport].
  { vm_compute. by left. }
  assert (Hd : Probe.Violation.disposition
                 (Probe.normalizeViolation noOrigin reportEvent)
               = Some "report-only"); [|by vm_compute in Hd].
  apply Hreport.
  - intros (e & He & _ & Hb).
    apply list_elem_of_singleton in He as ->. by vm_compute in Hb.
  - exists (Probe.normalizeViolation noOrigin reportEvent).
    split; [by left|]. split; [done|]. by vm_compute.
Qed.

(** * Further properties *)

(** ** What a group holds *)

Lemma buildGroups_flat (results : list ReportPageResult) :
  buildGroups results
  = fold_left (λ groups p, addViolation p.1 groups p.2) (flat results) ∅.
Proof.
  unfold buildGroups, flat. generalize (∅ : gmap string GroupedViolation).
  induction results as [|r results IH]; intros groups; [done|].
  cbn [fold_left mbind list_bind]. rewrite fold_left_app, <- IH. f_equal.
  generalize (ReportPageResult.Violations r). intros vs. revert groups.
  induction vs as [|v vs IHv]; intros groups; [done|]. apply IHv.
Qed.

Lemma length_flat (results : list ReportPageResult) :
  Z.of_nat (List.length (flat results)) = totalViolations results.
Proof.
  unfold flat. induction results as [|r results IH]; [done|].
  cbn [mbind list_bind totalViolations foldr].
  rewrite length_app, length_fmap, Nat2Z.inj_add.
  unfold totalViolations in IH. by rewrite <- IH.
Qed.

Lemma totalCount_perm (l k : list GroupedViolation) :
  l ≡ₚ k → totalCount l = totalCount k.
Proof. induction 1; simpl; lia. Qed.

Lemma totalCount_cons (g : GroupedViolation) (l : list GroupedViolation) :
  totalCount (g :: l) = GroupedViolation.Count g + totalCount l.
Proof. reflexivity. Qed.

Lemma addViolation_totalCount (url : string) (v : Violation)
    (groups : gmap string GroupedViolation) :
  totalCount (map_to_list (addViolation url groups v)).*2
  = totalCount (map_to_list groups).*2 + 1.
Proof.
  unfold addViolation.
  destruct (groups !! groupKey v) as [g|] eqn:E.
  - rewrite <- (insert_delete_eq groups).
    rewrite (totalCount_perm _ _
               (fmap_Permutation snd _ _
                  (map_to_list_insert _ _ _ (lookup_delete_eq _ _)))).
    rewrite <- (totalCount_perm _ _
                  (fmap_Permutation snd _ _
                     (map_to_list_delete groups _ g E))).
    rewrite !fmap_cons, !totalCount_cons. cbn [snd GroupedViolation.Count]. lia.
  - rewrite (totalCount_perm _ _
               (fmap_Permutation snd _ _ (map_to_list_insert _ _ _ E))).
    rewrite fmap_cons, totalCount_cons. cbn [snd GroupedViolation.Count]. lia.
Qed.

Lemma buildGroups_totalCount (results : list ReportPageResult) :
  totalCount (map_to_list (buildGroups results)).*2 = totalViolations results.
Proof.
  rewrite buildGroups_flat, <- length_flat.
  generalize (flat results). intros seen.
  assert (Hgen : ∀ groups,
    totalCount
      (map_to_list
         (fold_left (λ groups p, addViolation p.1 groups p.2) seen groups)).*2
    = totalCount (map_to_list groups).*2 + Z.of_nat (List.length seen)).
  { induction seen as [|p seen IH]; intros groups; simpl; [lia|].
    rewrite IH, addViolation_totalCount. lia. }
  rewrite Hgen, map_to_list_empty. simpl. lia.
Qed.

(** X1: whatever the order in which the map of groups is ranged over, the
    counts of the groups returned by [groupViolations] add up to the number
    of violations of the pages: every violation is counted, in one group
    only. *)
Theorem groupViolations_counts_every_violation (schedule : list nat)
    (results : list ReportPageResult) :
  totalCount (groupViolations schedule results) = totalViolations results.
Proof.
  rewrite (totalCount_perm _ _ (groupViolations_perm schedule results)).
  apply buildGroups_totalCount.
Qed.

Lemma withKey_snoc (key : string) (seen : list (string * Violation))
    (p : string * Violation) :
  withKey key (seen ++ [p])
  = withKey key seen ++ (if String.eqb (groupKey p.2) key then [p] else []).
Proof. unfold withKey. by rewrite List.filter_app. Qed.

Lemma keyedAt_snoc (key url : string) (seen : list (string * Violation))
    (p : string * Violation) :
  keyedAt key url (seen ++ [p])
  = keyedAt key url seen
    ++ (if String.eqb p.1 url && String.eqb (groupKey p.2) key
        then [p.2] else []).
Proof.
  unfold keyedAt. rewrite List.filter_app, fmap_app. simpl.
  by destruct (String.eqb p.1 url && String.eqb (groupKey p.2) key).
Qed.

Lemma keyedAt_withKey_nil (key url : string)
    (seen : list (string * Violation)) :
  withKey key seen = [] → keyedAt key url seen = [].
Proof.
  unfold withKey, keyedAt. induction seen as [|p seen IH]; [done|]. simpl.
  destruct (String.eqb (groupKey p.2) key); [done|].
  rewrite andb_false_r. apply IH.
Qed.

Lemma entryOf_snoc {A} (l : list A) (x : A) :
  entryOf (l ++ [x]) = Some (default [] (entryOf l) ++ [x]).
Proof. by destruct l. Qed.

Lemma addViolation_groupsOf (url : string) (v : Violation)
    (seen : list (string * Violation))
    (groups : gmap string GroupedViolation) :
  groupsOf seen groups →
  groupsOf (seen ++ [(url, v)]) (addViolation url groups v).
Proof.
  intros Hinv key. unfold addViolation.
  rewrite withKey_snoc. cbn [snd fst].
  destruct (decide (groupKey v = key)) as [<-|Hne].
  - rewrite lookup_insert_eq, String.eqb_refl.
    specialize (Hinv (groupKey v)).
    destruct (groups !! groupKey v) as [g|] eqn:E; cbn.
    + destruct Hinv as (Hk & Hfmt & Hcount & Hsome & Hpages).
      split; [done|]. split; [done|]. split.
      { rewrite Hcount, length_app. simpl. lia. }
      split; [by destruct (withKey (groupKey v) seen)|].
      intros url'. rewrite keyedAt_snoc. cbn [snd fst].
      rewrite String.eqb_refl, andb_true_r.
      destruct (decide (url = url')) as [<-|Hu].
      * rewrite lookup_insert_eq, String.eqb_refl, Hpages. by rewrite entryOf_snoc.
      * rewrite lookup_insert_ne by done.
        apply String.eqb_neq in Hu. rewrite Hu, app_nil_r. apply Hpages.
    + rewrite Hinv. split; [done|]. split; [done|]. split; [done|].
      split; [done|].
      intros url'. rewrite keyedAt_snoc. cbn [snd fst].
      rewrite String.eqb_refl, andb_true_r, (keyedAt_withKey_nil _ _ _ Hinv).
      destruct (decide (url = url')) as [<-|Hu].
      * by rewrite lookup_insert_eq, String.eqb_refl.
      * rewrite lookup_insert_ne by done.
        apply String.eqb_neq in Hu. by rewrite Hu.
  - rewrite lookup_insert_ne by done.
    apply String.eqb_neq in Hne. rewrite Hne, app_nil_r.
    specialize (Hinv key). destruct (groups !! key) as [g|]; [|done].
    destruct Hinv as (Hk & Hfmt & Hcount & Hsome & Hpages).
    repeat (split; [done|]).
    intros url'. rewrite keyedAt_snoc. cbn [snd fst].
    by rewrite Hne, andb_false_r, app_nil_r.
Qed.

Lemma buildGroups_groupsOf (results : list ReportPageResult) :
  groupsOf (flat results) (buildGroups results).
Proof.
  rewrite buildGroups_flat.
  assert (Hgen : ∀ todo seen groups,
    groupsOf seen groups →
    groupsOf (seen ++ todo)
      (fold_left (λ groups p, addViolation p.1 groups p.2) todo groups)).
  { induction todo as [|[url v] todo IH]; intros seen groups H; simpl.
    - by rewrite app_nil_r.
    - replace (seen ++ (url, v) :: todo) with ((seen ++ [(url, v)]) ++ todo)
        by (by rewrite <- app_assoc).
      apply IH. by apply addViolation_groupsOf. }
  apply (Hgen (flat results) [] ∅). intros key. by rewrite lookup_empty.
Qed.

Lemma withKey_elem (key : string) (seen : list (string * Violation))
    (p : string * Violation) :
  p ∈ withKey key seen ↔ p ∈ seen ∧ groupKey p.2 = key.
Proof.
  unfold withKey. rewrite !list_elem_of_In, List.filter_In, String.eqb_eq.
  done.
Qed.

Lemma flat_elem (results : list ReportPageResult) (url : string)
    (v : Violation) :
  (url, v) ∈ flat results ↔
  ∃ r, r ∈ results ∧ ReportPageResult.URL r = url
       ∧ v ∈ ReportPageResult.Violations r.
Proof.
  unfold flat. rewrite list_elem_of_bind. split.
  - intros (r & Hin & Hr). apply list_elem_of_fmap in Hin as (v' & [= -> ->] & Hv).
    by exists r.
  - intros (r & Hr & <- & Hv). exists r. split; [|done].
    apply list_elem_of_fmap. by exists v.
Qed.

(** X2: the groups returned by [groupViolations] have pairwise different
    keys; the key of a group is its directive, [" -> "] and its origin; and
    a key has a group exactly when some violation of some page has that key.
    This holds for every order of the map range. *)
Theorem groupViolations_one_group_per_key (schedule : list nat)
    (results : list ReportPageResult) :
  NoDup (GroupedViolation.Key <$> groupViolations schedule results)
  ∧ Forall
      (λ g, GroupedViolation.Key g
            = GroupedViolation.EffectiveDirective g +:+ " -> "
              +:+ GroupedViolation.BlockedOrigin g)
      (groupViolations schedule results)
  ∧ ∀ key,
      key ∈ GroupedViolation.Key <$> groupViolations schedule results ↔
      ∃ r v, r ∈ results ∧ v ∈ ReportPageResult.Violations r
             ∧ groupKey v = key.
Proof.
  pose proof (buildGroups_groupsOf results) as Hinv.
  assert (Hkeys : GroupedViolation.Key <$> (map_to_list (buildGroups results)).*2
                  = (map_to_list (buildGroups results)).*1).
  { rewrite <- list_fmap_compose. apply list_fmap_ext.
    intros i [k g] Hin. simpl.
    apply list_elem_of_lookup_2, elem_of_map_to_list in Hin.
    specialize (Hinv k). rewrite Hin in Hinv. by destruct Hinv as [-> _]. }
  split; [|split].
  - rewrite (fmap_Permutation _ _ _ (groupViolations_perm schedule results)).
    rewrite Hkeys. apply NoDup_fst_map_to_list.
  - apply Forall_forall. intros g Hg.
    apply groupViolations_lookup in Hg as [key Hkey].
    specialize (Hinv key). rewrite Hkey in Hinv. by destruct Hinv as (_ & H & _).
  - intros key.
    rewrite (fmap_Permutation _ _ _ (groupViolations_perm schedule results)).
    rewrite Hkeys. specialize (Hinv key). split.
    + intros Hin. apply list_elem_of_fmap in Hin as ([k g] & -> & Hin).
      apply elem_of_map_to_list in Hin. simpl in *. rewrite Hin in Hinv.
      destruct Hinv as (_ & _ & _ & Hsome & _).
      destruct (withKey k (flat results)) as [|[url v] rest] eqn:E; [done|].
      assert (Hv : (url, v) ∈ withKey k (flat results)) by (rewrite E; by left).
      apply withKey_elem in Hv as [Hflat Hk].
      apply flat_elem in Hflat as (r & Hr & _ & Hv). by exists r, v.
    + intros (r & v & Hr & Hv & Hk).
      destruct (buildGroups results !! key) as [g|] eqn:E.
      * apply list_elem_of_fmap. exists (key, g). split; [done|].
        by apply elem_of_map_to_list.
      * assert (Hin : (ReportPageResult.URL r, v) ∈ withKey key (flat results)).
        { apply withKey_elem. split; [|done]. apply flat_elem. by exists r. }
        rewrite Hinv in Hin. by inversion Hin.
Qed.

(** X3: in every group returned by [groupViolations], the count is the
    number of violations of the key of the group, and the page map holds,
    under each URL, the violations of that key on the pages of that URL, in
    the order of the pages; a URL with no such violation has no entry, so no
    entry is an empty list. *)
Theorem groupViolations_pages_of_group (schedule : list nat)
    (results : list ReportPageResult) :
  Forall
    (λ g,
       GroupedViolation.Count g
       = Z.of_nat (List.length (withKey (GroupedViolation.Key g) (flat results)))
       ∧ 0 < GroupedViolation.Count g
       ∧ ∀ url,
           GroupedViolation.Pages g !! url
           = entryOf (keyedAt (GroupedViolation.Key g) url (flat results)))
    (groupViolations schedule results).
Proof.
  apply Forall_forall. intros g Hg.
  apply groupViolations_lookup in Hg as [key Hkey].
  pose proof (buildGroups_groupsOf results key) as Hinv. rewrite Hkey in Hinv.
  destruct Hinv as (-> & _ & Hcount & Hsome & Hpages).
  split; [done|]. split; [|done].
  rewrite Hcount. destruct (withKey _ _); [done|]. simpl. lia.
Qed.

(** ** What two runs share *)

Lemma same_counts_same_order (l k : list GroupedViolation) :
  l ≡ₚ k →
  GroupedViolation.Count <$> l = GroupedViolation.Count <$> k →
  NoDup (GroupedViolation.Count <$> l) →
  l = k.
Proof.
  revert k. induction l as [|x l IH]; intros k Hp Hc Hnd.
  { by apply Permutation_nil_l in Hp. }
  destruct k as [|y k]; [by apply Permutation_nil_r in Hp|].
  rewrite !fmap_cons in Hc. injection Hc as Hxy Hc.
  rewrite fmap_cons in Hnd. apply NoDup_cons in Hnd as [Hx Hnd].
  assert (Hy : y ∈ x :: l) by (rewrite Hp; by left).
  apply elem_of_cons in Hy as [->|Hy].
  - f_equal. apply IH; [|done..]. by apply (Permutation_cons_inv (a := x)).
  - destruct Hx. rewrite Hxy. apply list_elem_of_fmap. by exists y.
Qed.

(** X4: two runs of [groupViolations] on the same pages, whatever the
    order of the map range in each, return the same groups up to their
    order, and the same sequence of counts; where no two groups have the
    same count they return the same sequence of groups. *)
Theorem groupViolations_runs_differ_in_ties_only (s1 s2 : list nat)
    (results : list ReportPageResult) :
  groupViolations s1 results ≡ₚ groupViolations s2 results
  ∧ GroupedViolation.Count <$> groupViolations s1 results
    = GroupedViolation.Count <$> groupViolations s2 results
  ∧ (NoDup (GroupedViolation.Count <$> groupViolations s1 results) →
     groupViolations s1 results = groupViolations s2 results).
Proof.
  assert (Hp : groupViolations s1 results ≡ₚ groupViolations s2 results)
    by (by rewrite !groupViolations_perm).
  assert (Hsorted : ∀ s,
    StronglySorted (λ a b : Z, b <= a)
      (GroupedViolation.Count <$> groupViolations s results)).
  { intros s. eapply StronglySorted_fmap;
      [|apply (exchange_sort_sorted moreFrequent moreFrequent_asym
                 moreFrequent_neg_trans)].
    intros x y. unfold moreFrequent. lia. }
  assert (Hc : GroupedViolation.Count <$> groupViolations s1 results
               = GroupedViolation.Count <$> groupViolations s2 results).
  { apply (StronglySorted_unique_strong (λ a b : Z, b <= a));
      [intros; lia|apply Hsorted..|by apply fmap_Permutation]. }
  split; [done|]. split; [done|].
  intros Hnd. by apply same_counts_same_order.
Qed.

(** ** The key of a group *)

Lemma append_byte_inj (c : ascii) (a a' b b' : string) :
  has_byte c a = false → has_byte c a' = false →
  a +:+ String c b = a' +:+ String c b' → a = a' ∧ b = b'.
Proof.
  revert a'. induction a as [|x a IH]; intros a' Ha Ha' Heq.
  - destruct a' as [|x' a'].
    + rewrite !append_nil_l in Heq. by injection Heq as ->.
    + rewrite append_nil_l, append_cons in Heq. injection Heq as <- _.
      simpl in Ha'. by rewrite Ascii.eqb_refl in Ha'.
  - destruct a' as [|x' a'].
    + rewrite append_nil_l, append_cons in Heq. injection Heq as -> _.
      simpl in Ha. by rewrite Ascii.eqb_refl in Ha.
    + rewrite !append_cons in Heq. injection Heq as -> Heq.
      simpl in Ha, Ha'.
      apply orb_false_iff in Ha as [_ Ha].
      apply orb_false_iff in Ha' as [_ Ha'].
      destruct (IH a' Ha Ha' Heq) as [-> ->]. done.
Qed.

(** X5: two violations whose directives hold no space, as the names of
    CSP directives do, have the same group key only if they have the same
    directive and the same blocked origin: on such violations, grouping by
    the key is grouping by the pair. *)
Theorem groupKey_injective (v1 v2 : Violation) :
  has_byte " " (Violation.EffectiveDirective v1) = false →
  has_byte " " (Violation.EffectiveDirective v2) = false →
  groupKey v1 = groupKey v2 →
  Violation.EffectiveDirective v1 = Violation.EffectiveDirective v2
  ∧ Violation.BlockedOrigin v1 = Violation.BlockedOrigin v2.
Proof.
  unfold groupKey. intros H1 H2 Heq.
  change (" -> " +:+ ?o) with (String " " ("-> " +:+ o)) in Heq.
  destruct (append_byte_inj " " _ _ _ _ H1 H2 Heq) as [Hd Ho].
  split; [done|]. by injection Ho.
Qed.

(** The theorem on a violation of [img-src] and a copy of it. *)
Lemma groupKey_injective_witness :
  Violation.EffectiveDirective
    (violationOf "img-src" "https://cdn.example" "enforce")
  = Violation.EffectiveDirective
      (violationOf "img-src" "https://cdn.example" "report")
  ∧ Violation.BlockedOrigin
      (violationOf "img-src" "https://cdn.example" "enforce")
    = Violation.BlockedOrigin
        (violationOf "img-src" "https://cdn.example" "report").
Proof.
  apply (groupKey_injective
           (violationOf "img-src" "https://cdn.example" "enforce")
           (violationOf "img-src" "https://cdn.example" "report"));
    vm_compute; reflexivity.
Defined.

(** Without that, two pairs can share a key. *)
Example groupKey_collision :
  groupKey (violationOf "a" "b -> c" "") = groupKey (violationOf "a -> b" "c" "").
Proof. reflexivity. Qed.

(** ** The two views of a run *)

Lemma Contains_report_enforce :
  Contains "" "report" = false ∧ Contains "enforce" "report" = false.
Proof. by vm_compute. Qed.

(** X6: whatever its disposition, no violation is kept by both filters;
    it is kept by the filter [enforce] exactly when its disposition, trimmed
    and lowercased, is empty or [enforce], by the filter [report-only]
    exactly when it holds [report], and by neither otherwise. *)
Theorem isDisposition_never_both (disposition : string) :
  (isDisposition disposition "enforce"
   && isDisposition disposition "report-only" = false)
  ∧ (isDisposition disposition "enforce" = true ↔
     ToLower (TrimSpace disposition) = ""
     ∨ ToLower (TrimSpace disposition) = "enforce")
  ∧ (isDisposition disposition "report-only" = true ↔
     0 <= Index (ToLower (TrimSpace disposition)) "report").
Proof.
  unfold isDisposition.
  generalize (ToLower (TrimSpace disposition)). intros a.
  change (String.eqb "enforce" "report-only") with false.
  change (String.eqb "report-only" "report-only") with true.
  cbv iota. destruct Contains_report_enforce as [H0 He].
  split; [|split].
  - destruct (String.eqb a "") eqn:E1.
    { apply String.eqb_eq in E1 as ->. by rewrite H0. }
    destruct (String.eqb a "enforce") eqn:E2; [|done].
    apply String.eqb_eq in E2 as ->. by rewrite He.
  - rewrite orb_true_iff, !String.eqb_eq. done.
  - unfold Contains. apply Z.leb_le.
Qed.

Lemma totalViolations_filterByDisposition (results : list ReportPageResult)
    (disposition : string) :
  totalViolations (filterByDisposition results disposition)
  = totalViolations (List.map (keepDisposition disposition) results).
Proof.
  unfold filterByDisposition.
  induction (List.map (keepDisposition disposition) results) as [|r l IH];
    [done|].
  simpl. unfold hasViolations at 1.
  destruct (ReportPageResult.Violations r) as [|v vs] eqn:E; simpl.
  - rewrite IH. lia.
  - rewrite E, IH. done.
Qed.

Lemma isDisposition_one_view (disposition : string) :
  viewed disposition →
  isDisposition disposition "enforce"
  = negb (isDisposition disposition "report-only").
Proof.
  unfold viewed, isDisposition.
  generalize (ToLower (TrimSpace disposition)). intros a.
  change (String.eqb "enforce" "report-only") with false.
  change (String.eqb "report-only" "report-only") with true.
  cbv iota zeta. destruct Contains_report_enforce as [H0 He].
  intros [Ha|[Ha|Ha]].
  - subst a. by rewrite H0.
  - subst a. by rewrite He.
  - rewrite Ha. cbn [negb]. apply orb_false_iff.
    split; apply String.eqb_neq; intros E; subst a; congruence.
Qed.

(** X7: on pages where the disposition of every violation, trimmed and
    lowercased, is empty, is [enforce] or holds [report], the groups of the
    view [enforce] and the groups of the view [report-only] together count
    every violation of the pages once: the two sums of counts add up to the
    number of violations. *)
Theorem disposition_views_count_every_violation (s1 s2 : list nat)
    (results : list ReportPageResult) :
  Forall
    (λ r, Forall (λ v, viewed (Violation.Disposition v))
            (ReportPageResult.Violations r)) results →
  totalCount (groupViolationsByDisposition s1 results "enforce")
  + totalCount (groupViolationsByDisposition s2 results "report-only")
  = totalViolations results.
Proof.
  intros Hrec. unfold groupViolationsByDisposition.
  rewrite !(totalCount_perm _ _ (groupViolations_perm _ _)).
  rewrite !buildGroups_totalCount, !totalViolations_filterByDisposition.
  induction Hrec as [|r results Hr _ IH]; [done|].
  cbn [List.map totalViolations foldr]. unfold totalViolations in IH.
  cbn [keepDisposition ReportPageResult.Violations].
  assert (Hsplit : (List.length
                      (List.filter
                         (λ v, isDisposition (Violation.Disposition v) "enforce")
                         (ReportPageResult.Violations r))
                    + List.length
                        (List.filter
                           (λ v, isDisposition (Violation.Disposition v)
                                   "report-only")
                           (ReportPageResult.Violations r)))%nat
                   = List.length (ReportPageResult.Violations r)).
  { rewrite <- length_app. apply Permutation_length, filter_split.
    intros v Hv. apply isDisposition_one_view.
    rewrite Forall_forall in Hr. by apply Hr. }
  lia.
Qed.

(** The theorem on [mixedPages], whose last violation has the disposition
    [report] that browsers give, and on [recognizedPages]. *)
Lemma disposition_views_count_every_violation_witness :
  totalCount (groupViolationsByDisposition [1]%nat mixedPages "enforce")
  + totalCount (groupViolationsByDisposition [0]%nat mixedPages "report-only")
  = totalViolations mixedPages
  ∧ totalCount (groupViolationsByDisposition [1]%nat recognizedPages "enforce")
    + totalCount
        (groupViolationsByDisposition [0]%nat recognizedPages "report-only")
    = totalViolations recognizedPages.
Proof.
  split.
  - apply (disposition_views_count_every_violation [1]%nat [0]%nat mixedPages).
    unfold mixedPages.
    repeat (first [apply Forall_nil_2 | apply Forall_cons_2]);
      vm_compute; auto.
  - apply (disposition_views_count_every_violation [1]%nat [0]%nat
             recognizedPages).
    unfold recognizedPages.
    repeat (first [apply Forall_nil_2 | apply Forall_cons_2]);
      vm_compute; auto.
Defined.

(** ** The merge of the engines *)

Lemma noteBrowser_browsersOf (name : string) (v : Violation)
    (seen : list (string * Violation))
    (groupBrowsers : gmap string (gset string)) :
  browsersOf seen groupBrowsers →
  browsersOf (seen ++ [(name, v)]) (noteBrowser name groupBrowsers v).
Proof.
  intros H key n. unfold noteBrowser.
  destruct (decide (key = groupKey v)) as [->|Hne].
  - rewrite lookup_insert_eq. simpl.
    rewrite elem_of_union, elem_of_singleton, (H (groupKey v) n). split.
    + intros [->|(v' & Hin & Hk)].
      * exists v. split; [|done]. apply elem_of_app. right. by left.
      * exists v'. split; [|done]. apply elem_of_app. by left.
    + intros (v' & Hin & Hk). apply elem_of_app in Hin as [Hin|Hin].
      * right. by exists v'.
      * apply list_elem_of_singleton in Hin as [= -> ->]. by left.
  - rewrite lookup_insert_ne by done. rewrite (H key n). split.
    + intros (v' & Hin & Hk). exists v'. split; [|done].
      apply elem_of_app. by left.
    + intros (v' & Hin & Hk). apply elem_of_app in Hin as [Hin|Hin].
      * by exists v'.
      * apply list_elem_of_singleton in Hin as [= -> ->]. done.
Qed.

Lemma fold_noteBrowser_browsersOf (name : string) (vs : list Violation) :
  ∀ (seen : list (string * Violation))
    (groupBrowsers : gmap string (gset string)),
    browsersOf seen groupBrowsers →
    browsersOf (seen ++ ((λ v, (name, v)) <$> vs))
      (fold_left (noteBrowser name) vs groupBrowsers).
Proof.
  induction vs as [|v vs IH]; intros seen gb H; cbn [fold_left].
  - by rewrite fmap_nil, app_nil_r.
  - rewrite fmap_cons, (cons_middle _ seen), app_assoc. apply IH.
    by apply noteBrowser_browsersOf.
Qed.

(** The loop nest that pools the pages, for any page copy [keep] and any
    test [has] on the copy. *)
Lemma pool_loop (keep : ReportPageResult → ReportPageResult)
    (has : ReportPageResult → bool) (browsers : list BrowserReport) :
  ∃ groupBrowsers,
    fold_left
      (λ st b,
         fold_left
           (λ '(all, groupBrowsers) r,
              let nr := keep r in
              (if has nr then all ++ [nr] else all,
               fold_left (noteBrowser (BrowserReport.Name b))
                 (ReportPageResult.Violations nr) groupBrowsers))
           (Report.Results (BrowserReport.Report b)) st)
      browsers ([], ∅)
    = (List.filter has (List.map keep (pooledPages browsers)), groupBrowsers)
    ∧ browsersOf
        (browsers ≫= λ b,
           Report.Results (BrowserReport.Report b) ≫= λ r,
             (λ v, (BrowserReport.Name b, v))
               <$> ReportPageResult.Violations (keep r))
        groupBrowsers.
Proof.
  assert (Hinner : ∀ name rs all gb seen,
    browsersOf seen gb →
    ∃ gb',
      fold_left
        (λ '(all, groupBrowsers) r,
           let nr := keep r in
           (if has nr then all ++ [nr] else all,
            fold_left (noteBrowser name)
              (ReportPageResult.Violations nr) groupBrowsers))
        rs (all, gb)
      = (all ++ List.filter has (List.map keep rs), gb')
      ∧ browsersOf
          (seen ++ (rs ≫= λ r,
                      (λ v, (name, v))
                        <$> ReportPageResult.Violations (keep r)))
          gb').
  { intros name. induction rs as [|r rs IH]; intros all gb seen H.
    - exists gb. simpl. by rewrite !app_nil_r.
    - destruct (IH (if has (keep r) then all ++ [keep r] else all)
                  (fold_left (noteBrowser name)
                     (ReportPageResult.Violations (keep r)) gb)
                  (seen ++ ((λ v, (name, v))
                              <$> ReportPageResult.Violations (keep r))))
        as (gb' & Heq & Hinv).
      { by apply fold_noteBrowser_browsersOf. }
      exists gb'. split.
      + etrans; [exact Heq|]. cbn [List.map List.filter]. f_equal.
        destruct (has (keep r)); [|done]. by rewrite <- app_assoc.
      + cbn [mbind list_bind]. by rewrite app_assoc. }
  assert (Houter : ∀ bs all gb seen,
    browsersOf seen gb →
    ∃ gb',
      fold_left
        (λ st b,
           fold_left
             (λ '(all, groupBrowsers) r,
                let nr := keep r in
                (if has nr then all ++ [nr] else all,
                 fold_left (noteBrowser (BrowserReport.Name b))
                   (ReportPageResult.Violations nr) groupBrowsers))
             (Report.Results (BrowserReport.Report b)) st)
        bs (all, gb)
      = (all ++ List.filter has (List.map keep (pooledPages bs)), gb')
      ∧ browsersOf
          (seen ++ (bs ≫= λ b,
                      Report.Results (BrowserReport.Report b) ≫= λ r,
                        (λ v, (BrowserReport.Name b, v))
                          <$> ReportPageResult.Violations (keep r)))
          gb').
  { induction bs as [|b bs IH]; intros all gb seen H.
    - exists gb. simpl. by rewrite !app_nil_r.
    - destruct (Hinner (BrowserReport.Name b)
                  (Report.Results (BrowserReport.Report b)) all gb seen H)
        as (gb1 & Heq1 & H1).
      destruct (IH (all ++ List.filter has
                             (List.map keep
                                (Report.Results (BrowserReport.Report b))))
                  gb1 _ H1) as (gb' & Heq & Hinv).
      exists gb'. split.
      + cbn [fold_left]. etrans; [exact (f_equal _ Heq1)|].
        etrans; [exact Heq|]. unfold pooledPages. cbn [mbind list_bind].
        by rewrite List.map_app, List.filter_app, !app_assoc.
      + cbn [mbind list_bind]. by rewrite app_assoc. }
  destruct (Houter browsers [] ∅ []) as (gb & Heq & Hinv).
  { intros key name. rewrite lookup_empty. simpl. split; [set_solver|].
    intros (v & Hin & _). by apply elem_of_nil in Hin. }
  by exists gb.
Qed.

Lemma filter_all {A} (l : list A) :
  List.filter (λ _, true) (List.map id l) = l.
Proof. induction l as [|x l IH]; simpl; by f_equal. Qed.

Lemma poolPages_spec (browsers : list BrowserReport) :
  ∃ groupBrowsers,
    poolPages browsers = (pooledPages browsers, groupBrowsers)
    ∧ browsersOf (contributions browsers) groupBrowsers.
Proof.
  destruct (pool_loop id (λ _, true) browsers) as (gb & Heq & Hinv).
  exists gb. rewrite filter_all in Heq. by split.
Qed.

Lemma poolPagesByDisposition_spec (browsers : list BrowserReport)
    (disposition : string) :
  ∃ groupBrowsers,
    poolPagesByDisposition browsers disposition
    = (filterByDisposition (pooledPages browsers) disposition, groupBrowsers)
    ∧ browsersOf (contributionsBy disposition browsers) groupBrowsers.
Proof.
  destruct (pool_loop (keepDisposition disposition) hasViolations browsers)
    as (gb & Heq & Hinv).
  by exists gb.
Qed.


Lemma contributions_elem (browsers : list BrowserReport) (name : string)
    (v : Violation) :
  (name, v) ∈ contributions browsers ↔
  ∃ b r, b ∈ browsers ∧ BrowserReport.Name b = name
         ∧ r ∈ Report.Results (BrowserReport.Report b)
         ∧ v ∈ ReportPageResult.Violations r.
Proof.
  unfold contributions. rewrite list_elem_of_bind. split.
  - intros (b & Hin & Hb). apply list_elem_of_bind in Hin as (r & Hin & Hr).
    apply list_elem_of_fmap in Hin as (v' & [= -> ->] & Hv). by exists b, r.
  - intros (b & r & Hb & <- & Hr & Hv). exists b. split; [|done].
    apply list_elem_of_bind. exists r. split; [|done].
    apply list_elem_of_fmap. by exists v.
Qed.

Lemma keepDisposition_elem (disposition : string) (r : ReportPageResult)
    (v : Violation) :
  v ∈ ReportPageResult.Violations (keepDisposition disposition r) ↔
  v ∈ ReportPageResult.Violations r
  ∧ isDisposition (Violation.Disposition v) disposition = true.
Proof. simpl. by rewrite !list_elem_of_In, List.filter_In. Qed.

Lemma contributionsBy_elem (disposition : string)
    (browsers : list BrowserReport) (name : string) (v : Violation) :
  (name, v) ∈ contributionsBy disposition browsers ↔
  ∃ b r, b ∈ browsers ∧ BrowserReport.Name b = name
         ∧ r ∈ Report.Results (BrowserReport.Report b)
         ∧ v ∈ ReportPageResult.Violations r
         ∧ isDisposition (Violation.Disposition v) disposition = true.
Proof.
  unfold contributionsBy. rewrite list_elem_of_bind. split.
  - intros (b & Hin & Hb). apply list_elem_of_bind in Hin as (r & Hin & Hr).
    apply list_elem_of_fmap in Hin as (v' & [= -> ->] & Hv).
    apply keepDisposition_elem in Hv as [Hv Hd]. by exists b, r.
  - intros (b & r & Hb & <- & Hr & Hv & Hd). exists b. split; [|done].
    apply list_elem_of_bind. exists r. split; [|done].
    apply list_elem_of_fmap. exists v. split; [done|].
    by apply keepDisposition_elem.
Qed.

Lemma pooledPages_elem (browsers : list BrowserReport)
    (r : ReportPageResult) :
  r ∈ pooledPages browsers ↔
  ∃ b, b ∈ browsers ∧ r ∈ Report.Results (BrowserReport.Report b).
Proof.
  unfold pooledPages. rewrite list_elem_of_bind.
  split; intros (b & H1 & H2); by exists b.
Qed.

Lemma filterByDisposition_elem (results : list ReportPageResult)
    (disposition : string) (nr : ReportPageResult) :
  nr ∈ filterByDisposition results disposition →
  ∃ r, r ∈ results ∧ nr = keepDisposition disposition r.
Proof.
  unfold filterByDisposition.
  rewrite list_elem_of_In, List.filter_In, List.in_map_iff.
  intros [(r & <- & Hr) _]. exists r. by rewrite list_elem_of_In.
Qed.

Lemma group_has_violation (schedule : list nat)
    (results : list ReportPageResult) (g : GroupedViolation) :
  g ∈ groupViolations schedule results →
  ∃ r v, r ∈ results ∧ v ∈ ReportPageResult.Violations r
         ∧ groupKey v = GroupedViolation.Key g.
Proof.
  intros Hg. apply groupViolations_lookup in Hg as [key Hkey].
  pose proof (buildGroups_groupsOf results key) as Hinv. rewrite Hkey in Hinv.
  destruct Hinv as (-> & _ & _ & Hsome & _).
  destruct (withKey key (flat results)) as [|[url v] rest] eqn:E; [done|].
  assert (Hv : (url, v) ∈ withKey key (flat results)) by (rewrite E; by left).
  apply withKey_elem in Hv as [Hflat Hk].
  apply flat_elem in Hflat as (r & Hr & _ & Hv). by exists r, v.
Qed.

Lemma attachBrowsers_groups (schedules : nat → list nat)
    (groupBrowsers : gmap string (gset string))
    (grouped : list GroupedViolation) :
  MergedGroup.Group <$> attachBrowsers schedules groupBrowsers grouped
  = grouped.
Proof.
  unfold attachBrowsers. revert schedules.
  induction grouped as [|g grouped IH]; intros schedules; [done|].
  rewrite imap_cons, fmap_cons. f_equal. apply IH.
Qed.

Lemma attachBrowsers_members (schedules : nat → list nat)
    (groupBrowsers : gmap string (gset string))
    (grouped : list GroupedViolation) :
  Forall
    (λ mg,
       MergedGroup.Group mg ∈ grouped
       ∧ ∀ name,
           name ∈ MergedGroup.Browsers mg ↔
           name ∈ default ∅
                    (groupBrowsers
                       !! GroupedViolation.Key (MergedGroup.Group mg)))
    (attachBrowsers schedules groupBrowsers grouped).
Proof.
  unfold attachBrowsers. revert schedules.
  induction grouped as [|g grouped IH]; intros schedules;
    rewrite ?imap_cons; constructor.
  - split; [by left|]. intros name. cbn [MergedGroup.Browsers MergedGroup.Group].
    by rewrite exchange_sort_perm, range_perm, elem_of_elements.
  - eapply Forall_impl; [apply IH|]. intros mg [Hin H]. split; [by right|done].
Qed.

(** X8: the groups of a merge, without their engine lists, are the groups
    of the pages of all the engines pooled in the order of the engines: of
    all their pages for [groupViolationsMulti], of their pages filtered by
    the disposition for [groupViolationsMultiByDisposition]. *)
Theorem merged_groups_are_groups_of_pooled_pages (schedule : list nat)
    (schedules : nat → list nat) (browsers : list BrowserReport)
    (disposition : string) :
  MergedGroup.Group <$> groupViolationsMulti schedule schedules browsers
  = groupViolations schedule (pooledPages browsers)
  ∧ MergedGroup.Group
      <$> groupViolationsMultiByDisposition schedule schedules browsers
            disposition
    = groupViolationsByDisposition schedule (pooledPages browsers)
        disposition.
Proof.
  unfold groupViolationsMulti, groupViolationsMultiByDisposition,
    groupViolationsByDisposition.
  destruct (poolPages_spec browsers) as (gb & -> & _).
  destruct (poolPagesByDisposition_spec browsers disposition)
    as (gb' & -> & _).
  by rewrite !attachBrowsers_groups.
Qed.

(** X9: in every merged group, the engine list is not empty and holds
    exactly the names of the engines that report a violation of the key of
    the group; for [groupViolationsMultiByDisposition], of the engines that
    report one of the wanted disposition. An engine without such a violation
    is never named. *)
Theorem merged_browsers_are_the_contributors (schedule : list nat)
    (schedules : nat → list nat) (browsers : list BrowserReport)
    (disposition : string) :
  Forall
    (λ mg,
       MergedGroup.Browsers mg ≠ []
       ∧ ∀ name,
           name ∈ MergedGroup.Browsers mg ↔
           contributes browsers None name
             (GroupedViolation.Key (MergedGroup.Group mg)))
    (groupViolationsMulti schedule schedules browsers)
  ∧ Forall
      (λ mg,
         MergedGroup.Browsers mg ≠ []
         ∧ ∀ name,
             name ∈ MergedGroup.Browsers mg ↔
             contributes browsers (Some disposition) name
               (GroupedViolation.Key (MergedGroup.Group mg)))
      (groupViolationsMultiByDisposition schedule schedules browsers
         disposition).
Proof.
  unfold groupViolationsMulti, groupViolationsMultiByDisposition.
  destruct (poolPages_spec browsers) as (gb & -> & Hgb).
  destruct (poolPagesByDisposition_spec browsers disposition)
    as (gb' & -> & Hgb').
  split.
  - eapply Forall_impl; [apply attachBrowsers_members|].
    intros mg [Hg Hnames].
    assert (Hiff : ∀ name,
      name ∈ MergedGroup.Browsers mg ↔
      contributes browsers None name
        (GroupedViolation.Key (MergedGroup.Group mg))).
    { intros name. rewrite Hnames, (Hgb _ name). unfold contributes. split.
      - intros (v & Hin & Hk).
        apply contributions_elem in Hin as (b & r & Hb & Hn & Hr & Hv).
        by exists b, r, v.
      - intros (b & r & v & Hb & Hn & Hr & Hv & Hk & _). exists v.
        split; [|done]. apply contributions_elem. by exists b, r. }
    split; [|done].
    apply group_has_violation in Hg as (r & v & Hr & Hv & Hk).
    apply pooledPages_elem in Hr as (b & Hb & Hr).
    assert (Hin : BrowserReport.Name b ∈ MergedGroup.Browsers mg).
    { apply Hiff. by exists b, r, v. }
    intros E. rewrite E in Hin. by apply elem_of_nil in Hin.
  - eapply Forall_impl; [apply attachBrowsers_members|].
    intros mg [Hg Hnames].
    assert (Hiff : ∀ name,
      name ∈ MergedGroup.Browsers mg ↔
      contributes browsers (Some disposition) name
        (GroupedViolation.Key (MergedGroup.Group mg))).
    { intros name. rewrite Hnames, (Hgb' _ name). unfold contributes. split.
      - intros (v & Hin & Hk).
        apply contributionsBy_elem in Hin as (b & r & Hb & Hn & Hr & Hv & Hd).
        by exists b, r, v.
      - intros (b & r & v & Hb & Hn & Hr & Hv & Hk & Hd). exists v.
        split; [|done]. apply contributionsBy_elem. by exists b, r. }
    split; [|done].
    apply group_has_violation in Hg as (nr & v & Hnr & Hv & Hk).
    apply filterByDisposition_elem in Hnr as (r & Hr & ->).
    apply keepDisposition_elem in Hv as [Hv Hd].
    apply pooledPages_elem in Hr as (b & Hb & Hr).
    assert (Hin : BrowserReport.Name b ∈ MergedGroup.Browsers mg).
    { apply Hiff. by exists b, r, v. }
    intros E. rewrite E in Hin. by apply elem_of_nil in Hin.
Qed.


(** ** The policy and the directive shown for a group *)

Lemma firstAmong_head (inner : list Violation → option string)
    (pick : Violation → option string) (pages : list (list Violation)) :
  (∀ vs, inner vs = head (omap pick vs)) →
  firstAmong inner pages = head (omap pick (concat pages)).
Proof.
  intros Hinner. induction pages as [|vs pages IH]; [done|].
  cbn [firstAmong concat]. rewrite omap_app, Hinner, IH.
  by destruct (omap pick vs).
Qed.

Lemma omap_step {A B} (f : A → option B) (x : A) (l : list A) :
  omap f (x :: l)
  = match f x with
    | Some y => y :: omap f l
    | None => omap f l
    end.
Proof. reflexivity. Qed.

Lemma policyIn_head (vs : list Violation) :
  policyIn vs = head (omap policyOf vs).
Proof.
  induction vs as [|v vs IH]; [done|].
  rewrite omap_step. cbn [policyIn]. unfold policyOf at 1.
  by destruct (negb _).
Qed.

Lemma directiveIn_head (vs : list Violation) :
  directiveIn vs = head (omap directiveOf vs).
Proof.
  induction vs as [|v vs IH]; [done|].
  rewrite omap_step. cbn [directiveIn]. unfold directiveOf at 1.
  destruct (_ || _); [done|]. cbv zeta. by destruct (negb _).
Qed.

Lemma concat_elem {A} (x : A) (ls : list (list A)) :
  x ∈ concat ls ↔ ∃ l, x ∈ l ∧ l ∈ ls.
Proof.
  induction ls as [|l ls IH]; simpl.
  - split; [by intros H%elem_of_nil|]. by intros (l & _ & H%elem_of_nil).
  - rewrite elem_of_app, IH. split.
    + intros [H|(l' & Hx & Hl)]; [exists l; split; [done|by left]|].
      exists l'. split; [done|by right].
    + intros (l' & Hx & Hl). apply elem_of_cons in Hl as [->|Hl]; [by left|].
      right. by exists l'.
Qed.

Lemma pages_of_group (schedule : list nat) (g : GroupedViolation)
    (v : Violation) :
  v ∈ concat (range schedule (map_to_list (GroupedViolation.Pages g)).*2) ↔
  inGroup g v.
Proof.
  unfold inGroup. rewrite concat_elem. setoid_rewrite range_perm. split.
  - intros (vs & Hv & Hvs).
    apply list_elem_of_fmap in Hvs as ([url vs'] & -> & Hvs).
    apply elem_of_map_to_list in Hvs. by exists url, vs'.
  - intros (url & vs & Hvs & Hv). exists vs. split; [done|].
    apply list_elem_of_fmap. exists (url, vs). split; [done|].
    by apply elem_of_map_to_list.
Qed.

(** The first value picked among the violations of a group, the empty
    string for none. *)
Lemma first_picked (pick : Violation → option string) (vs : list Violation) :
  (∀ v x, pick v = Some x → x ≠ "") →
  (default "" (head (omap pick vs)) = "" ↔ ∀ v, v ∈ vs → pick v = None)
  ∧ (default "" (head (omap pick vs)) ≠ "" →
     ∃ v, v ∈ vs ∧ pick v = Some (default "" (head (omap pick vs)))).
Proof.
  intros Hpick. destruct (omap pick vs) as [|x xs] eqn:E; simpl.
  - split; [|done]. split; [|done]. intros _ v Hv.
    destruct (pick v) as [x|] eqn:Ev; [|done].
    assert (Hx : x ∈ omap pick vs) by (apply list_elem_of_omap; by exists v).
    rewrite E in Hx. by apply elem_of_nil in Hx.
  - assert (Hx : x ∈ omap pick vs) by (rewrite E; by left).
    apply list_elem_of_omap in Hx as (v & Hv & Hx).
    split; [|intros _; by exists v]. split.
    + intros ->. by destruct (Hpick v "" Hx).
    + intros Hnone. by rewrite (Hnone v Hv) in Hx.
Qed.

Lemma TrimSpace_empty : TrimSpace "" = "".
Proof. reflexivity. Qed.

Lemma policyOf_Some (v : Violation) (x : string) :
  policyOf v = Some x ↔
  Violation.OriginalPolicy v = x ∧ TrimSpace x ≠ "".
Proof.
  unfold policyOf.
  destruct (String.eqb_spec (TrimSpace (Violation.OriginalPolicy v)) "")
    as [E|E]; simpl.
  - split; [done|]. intros [<- H]. done.
  - split; [by intros [= <-]|]. by intros [<- _].
Qed.

(** X10: [groupPolicy] returns the empty string exactly when the policy of
    every violation of the group is blank; otherwise it returns, untrimmed,
    the policy of some violation of the group, one that is not blank. This
    for every order in which the page map is ranged over. *)
Theorem groupPolicy_is_a_policy_of_the_group (schedule : list nat)
    (g : GroupedViolation) :
  (groupPolicy schedule g = "" ↔
   ∀ v, inGroup g v → TrimSpace (Violation.OriginalPolicy v) = "")
  ∧ (groupPolicy schedule g ≠ "" →
     ∃ v, inGroup g v
          ∧ Violation.OriginalPolicy v = groupPolicy schedule g
          ∧ TrimSpace (groupPolicy schedule g) ≠ "").
Proof.
  unfold groupPolicy. rewrite (firstAmong_head _ _ _ policyIn_head).
  destruct (first_picked policyOf
              (concat (range schedule
                         (map_to_list (GroupedViolation.Pages g)).*2)))
    as [Hnone Hsome].
  { intros v x Hx ->. apply policyOf_Some in Hx as [_ Hx].
    by rewrite TrimSpace_empty in Hx. }
  split.
  - rewrite Hnone. split.
    + intros H v Hv. apply (pages_of_group schedule) in Hv.
      specialize (H v Hv).
      destruct (String.eqb_spec (TrimSpace (Violation.OriginalPolicy v)) "")
        as [E|E]; [done|].
      assert (Hp : policyOf v = Some (Violation.OriginalPolicy v))
        by by apply policyOf_Some.
      by rewrite Hp in H.
    + intros H v Hv. apply pages_of_group in Hv. specialize (H v Hv).
      destruct (policyOf v) as [x|] eqn:E; [|done].
      apply policyOf_Some in E as [<- E]. done.
  - intros Hne. destruct (Hsome Hne) as (v & Hv & Hp).
    apply pages_of_group in Hv. apply policyOf_Some in Hp as [Hp Ht].
    by exists v.
Qed.

(** The policy shown depends on the order of the range where two pages of
    the group carry different policies. *)
Example groupPolicy_follows_the_range :
  let page policy :=
    [Violation.mk "" "" "" "o" "d" "" policy "" None "" None None ""] in
  let g :=
    GroupedViolation.mk "d -> o" "d" "o" 2
      (<["/a" := page "default-src 'self'"]>
         (<["/b" := page "default-src 'none'"]> ∅)) in
  groupPolicy [0]%nat g ≠ groupPolicy [1]%nat g.
Proof. by vm_compute. Qed.


Lemma findDirective_head (directive : string) (parts : list string) :
  findDirective directive parts
  = default "" (head (List.filter (declares directive) (TrimSpace <$> parts))).
Proof.
  induction parts as [|part parts IH]; [done|].
  rewrite fmap_cons. cbn [findDirective List.filter]. unfold declares at 1.
  cbv zeta. destruct (String.eqb (TrimSpace part) ""); [done|].
  cbn [negb andb]. by destruct (_ || _).
Qed.

(** The pieces between the occurrences of a byte do not hold the byte. *)
Lemma Split_pieces (c : ascii) (s : string) :
  Forall (λ p, has_byte c p = false) (Split s (String c "")).
Proof.
  unfold Split. induction s as [|a s IH]; [by repeat constructor|].
  cbn [split_from]. rewrite HasPrefix_byte.
  destruct (Ascii.eqb a c) eqn:E; [by constructor|].
  destruct (split_from (String c "") 0 s) as [|p ps].
  - repeat constructor. simpl. by rewrite E.
  - inversion IH as [|? ? Hp Hps]; subst. constructor; [|done].
    simpl. by rewrite E.
Qed.

(** X11: [extractDirective] returns the first piece of the policy, cut at
    the semicolons and trimmed, that is not empty and is the directive name
    alone or starts with the name and a space; the empty string when no
    piece is such. What it returns holds no semicolon. *)
Theorem extractDirective_first_declaration (policy directive : string) :
  extractDirective policy directive
  = default ""
      (head (List.filter (declares directive)
               (TrimSpace <$> Split policy ";")))
  ∧ has_byte ";" (extractDirective policy directive) = false
  ∧ (extractDirective policy directive = "" ↔
     ∀ part, part ∈ Split policy ";" →
             declares directive (TrimSpace part) = false).
Proof.
  unfold extractDirective. rewrite findDirective_head.
  split; [done|].
  pose proof (Split_pieces ";" policy) as Hclear.
  destruct (List.filter (declares directive) (TrimSpace <$> Split policy ";"))
    as [|p ps] eqn:E; simpl.
  - split; [done|]. split; [|done]. intros _ part Hpart.
    destruct (declares directive (TrimSpace part)) eqn:Ed; [|done].
    assert (Hin : TrimSpace part ∈ List.filter (declares directive)
                                   (TrimSpace <$> Split policy ";")).
    { apply list_elem_of_In, List.filter_In. split; [|done].
      apply list_elem_of_In, list_elem_of_fmap. by exists part. }
    rewrite E in Hin. by apply elem_of_nil in Hin.
  - assert (Hin : p ∈ List.filter (declares directive)
                        (TrimSpace <$> Split policy ";"))
      by (rewrite E; by left).
    apply list_elem_of_In, List.filter_In in Hin as [Hin Hd].
    apply list_elem_of_In, list_elem_of_fmap in Hin as (part & -> & Hpart).
    split.
    + apply TrimSpace_has_byte. rewrite Forall_forall in Hclear.
      by apply Hclear.
    + split.
      * intros Hp. rewrite Hp in Hd. by vm_compute in Hd.
      * intros Hnone. by rewrite (Hnone part Hpart) in Hd.
Qed.

Lemma directiveOf_Some (v : Violation) (x : string) :
  directiveOf v = Some x ↔
  TrimSpace (Violation.OriginalPolicy v) ≠ ""
  ∧ TrimSpace (Violation.EffectiveDirective v) ≠ ""
  ∧ extractDirective (Violation.OriginalPolicy v)
      (Violation.EffectiveDirective v) = x
  ∧ x ≠ "".
Proof.
  unfold directiveOf.
  destruct (String.eqb_spec (TrimSpace (Violation.OriginalPolicy v)) "")
    as [E1|E1]; simpl; [by split; [|intros [H _]]|].
  destruct (String.eqb_spec (TrimSpace (Violation.EffectiveDirective v)) "")
    as [E2|E2]; simpl; [by split; [|intros (_ & H & _)]|].
  destruct (String.eqb_spec
              (extractDirective (Violation.OriginalPolicy v)
                 (Violation.EffectiveDirective v)) "") as [E3|E3]; simpl.
  - split; [done|]. intros (_ & _ & <- & H). done.
  - split; [by intros [= <-]|]. by intros (_ & _ & <- & _).
Qed.

(** X12: [groupDirective] returns the empty string exactly when no
    violation of the group has a policy and a directive that are not blank
    and a policy that declares the directive; otherwise it returns what
    [extractDirective] finds for some violation of the group. This for every
    order in which the page map is ranged over. *)
Theorem groupDirective_is_a_declaration_of_the_group (schedule : list nat)
    (g : GroupedViolation) :
  (groupDirective schedule g = "" ↔
   ∀ v, inGroup g v →
        TrimSpace (Violation.OriginalPolicy v) = ""
        ∨ TrimSpace (Violation.EffectiveDirective v) = ""
        ∨ extractDirective (Violation.OriginalPolicy v)
            (Violation.EffectiveDirective v) = "")
  ∧ (groupDirective schedule g ≠ "" →
     ∃ v, inGroup g v
          ∧ TrimSpace (Violation.OriginalPolicy v) ≠ ""
          ∧ TrimSpace (Violation.EffectiveDirective v) ≠ ""
          ∧ extractDirective (Violation.OriginalPolicy v)
              (Violation.EffectiveDirective v)
            = groupDirective schedule g).
Proof.
  unfold groupDirective. rewrite (firstAmong_head _ _ _ directiveIn_head).
  destruct (first_picked directiveOf
              (concat (range schedule
                         (map_to_list (GroupedViolation.Pages g)).*2)))
    as [Hnone Hsome].
  { intros v x Hx. by apply directiveOf_Some in Hx as (_ & _ & _ & Hx). }
  split.
  - rewrite Hnone. split.
    + intros H v Hv. apply (pages_of_group schedule) in Hv.
      specialize (H v Hv).
      destruct (String.eqb_spec (TrimSpace (Violation.OriginalPolicy v)) "")
        as [E1|E1]; [by left|].
      destruct (String.eqb_spec
                  (TrimSpace (Violation.EffectiveDirective v)) "")
        as [E2|E2]; [right; by left|].
      destruct (String.eqb_spec
                  (extractDirective (Violation.OriginalPolicy v)
                     (Violation.EffectiveDirective v)) "")
        as [E3|E3]; [right; by right|].
      assert (Hd : directiveOf v
                   = Some (extractDirective (Violation.OriginalPolicy v)
                             (Violation.EffectiveDirective v)))
        by by apply directiveOf_Some.
      by rewrite Hd in H.
    + intros H v Hv. apply pages_of_group in Hv. specialize (H v Hv).
      destruct (directiveOf v) as [x|] eqn:E; [|done].
      apply directiveOf_Some in E as (E1 & E2 & <- & E3).
      by destruct H as [H|[H|H]].
  - intros Hne. destruct (Hsome Hne) as (v & Hv & Hp).
    apply pages_of_group in Hv.
    apply directiveOf_Some in Hp as (E1 & E2 & E3 & _).
    by exists v.
Qed.


(** ** The summary of a run *)

Lemma wrap64_add (a b : Z) : wrap64 (wrap64 a + b) = wrap64 (a + b).
Proof.
  unfold wrap64. f_equal.
  replace ((a + 2 ^ 63) mod 2 ^ 64 - 2 ^ 63 + b + 2 ^ 63)
    with ((a + 2 ^ 63) mod 2 ^ 64 + b) by lia.
  rewrite Zplus_mod_idemp_l. f_equal. lia.
Qed.

Lemma wrap64_small (z : Z) : - 2 ^ 63 <= z < 2 ^ 63 → wrap64 z = z.
Proof. intros H. unfold wrap64. rewrite Z.mod_small; lia. Qed.

Lemma mostPages_perm (l k : list Report) :
  l ≡ₚ k → mostPages l = mostPages k.
Proof. induction 1; simpl; lia. Qed.

Lemma sumViolations_perm (l k : list Report) :
  l ≡ₚ k → sumViolations l = sumViolations k.
Proof. induction 1; simpl; lia. Qed.

Lemma mostPages_largest (l : list Report) :
  0 <= mostPages l
  ∧ Forall (λ rep, ReportTotals.Pages (Report.Totals rep) <= mostPages l) l
  ∧ (mostPages l = 0
     ∨ ∃ rep, rep ∈ l ∧ mostPages l = ReportTotals.Pages (Report.Totals rep)).
Proof.
  induction l as [|rep l (H0 & Hall & Hsome)]; simpl.
  - split; [lia|]. split; [constructor|by left].
  - split; [lia|]. split.
    + constructor; [lia|]. eapply Forall_impl; [exact Hall|].
      intros r Hr. simpl in Hr. lia.
    + destruct (Z.max_spec (ReportTotals.Pages (Report.Totals rep))
                  (mostPages l)) as [[Hlt ->]|[Hle ->]].
      * destruct Hsome as [E|(r & Hr & E)]; [by left|].
        right. exists r. split; [by right|done].
      * right. exists rep. split; [by left|done].
Qed.

(** The inserts of the loop, over entries of different names. *)
Lemma fold_insert_lookup {A B} (f : A → B) (entries : list (string * A)) :
  NoDup entries.*1 →
  ∀ (bs : gmap string B) (k : string),
    fold_left (λ bs e, <[e.1 := f e.2]> bs) entries bs !! k
    = match (list_to_map entries : gmap string A) !! k with
      | Some r => Some (f r)
      | None => bs !! k
      end.
Proof.
  induction entries as [|[k0 r0] entries IH]; intros Hnd bs k.
  - simpl. by rewrite lookup_empty.
  - rewrite fmap_cons in Hnd. apply NoDup_cons in Hnd as [Hk0 Hnd].
    cbn [fold_left list_to_map foldr fst snd curry]. rewrite (IH Hnd).
    destruct (decide (k = k0)) as [->|Hne].
    + rewrite (not_elem_of_list_to_map_1 _ _ Hk0).
      by rewrite !lookup_insert_eq.
    + by rewrite !lookup_insert_ne.
Qed.

Lemma fold_addTotals (entries : list (string * Report)) :
  ∀ (p acc : Z) (bs : gmap string ReportTotals),
    0 <= p →
    fold_left addTotals entries (RunSummary.mk p (wrap64 acc) bs)
    = RunSummary.mk
        (Z.max p (mostPages entries.*2))
        (wrap64 (acc + sumViolations entries.*2))
        (fold_left (λ bs e, <[e.1 := Report.Totals e.2]> bs) entries bs).
Proof.
  induction entries as [|[name rep] entries IH]; intros p acc bs Hp.
  - simpl. f_equal; [lia|f_equal; lia].
  - rewrite fmap_cons. cbn [fold_left addTotals].
    cbn [RunSummary.Pages RunSummary.Violations RunSummary.Browsers].
    unfold int_add. rewrite wrap64_add.
    assert (Hmax : (if p <? ReportTotals.Pages (Report.Totals rep)
                    then ReportTotals.Pages (Report.Totals rep) else p)
                   = Z.max p (ReportTotals.Pages (Report.Totals rep))).
    { destruct (Z.ltb_spec p (ReportTotals.Pages (Report.Totals rep))); lia. }
    rewrite Hmax, IH by lia. cbn [snd fst].
    change (mostPages (rep :: entries.*2))
      with (Z.max (ReportTotals.Pages (Report.Totals rep))
              (mostPages entries.*2)).
    change (sumViolations (rep :: entries.*2))
      with (ReportTotals.Violations (Report.Totals rep)
            + sumViolations entries.*2).
    f_equal; [lia|f_equal; lia].
Qed.

Lemma summarizeMulti_closed (schedule : list nat) (m : MultiReport) :
  summarizeMulti schedule m
  = RunSummary.mk
      (mostPages (map_to_list (MultiReport.Browsers m)).*2)
      (wrap64 (sumViolations (map_to_list (MultiReport.Browsers m)).*2))
      (Report.Totals <$> MultiReport.Browsers m).
Proof.
  unfold summarizeMulti. change 0 with (wrap64 0) at 2.
  rewrite fold_addTotals by lia.
  pose proof (range_perm schedule (map_to_list (MultiReport.Browsers m)))
    as Hperm.
  pose proof (mostPages_largest
                (range schedule (map_to_list (MultiReport.Browsers m))).*2)
    as [H0 _].
  rewrite Z.max_r by done.
  rewrite (mostPages_perm _ _ (fmap_Permutation snd _ _ Hperm)).
  rewrite (sumViolations_perm _ _ (fmap_Permutation snd _ _ Hperm)).
  f_equal. apply map_eq. intros k.
  assert (Hnd : NoDup (range schedule
                         (map_to_list (MultiReport.Browsers m))).*1).
  { rewrite (fmap_Permutation fst _ _ Hperm). apply NoDup_fst_map_to_list. }
  rewrite (fold_insert_lookup Report.Totals _ Hnd), lookup_empty.
  rewrite (list_to_map_proper _ _ Hnd Hperm), list_to_map_to_list.
  rewrite lookup_fmap. by destruct (MultiReport.Browsers m !! k).
Qed.

(** X13: the summary of a run holds the totals of every engine under its
    name, as page count the largest page total of the engines, zero at
    least, and as violation count the sum of their violation totals, wrapped
    to 64 bits; it is the same for every order in which the reports are
    ranged over. *)
Theorem summarizeMulti_totals (schedule : list nat) (m : MultiReport) :
  summarizeMulti schedule m
  = RunSummary.mk
      (mostPages (map_to_list (MultiReport.Browsers m)).*2)
      (wrap64 (sumViolations (map_to_list (MultiReport.Browsers m)).*2))
      (Report.Totals <$> MultiReport.Browsers m)
  ∧ ∀ schedule', summarizeMulti schedule' m = summarizeMulti schedule m.
Proof.
  split; [apply summarizeMulti_closed|].
  intros schedule'. by rewrite !summarizeMulti_closed.
Qed.

(** X14: the page count of a summary is never negative and never below
    the page total of an engine, and it is zero or the page total of some
    engine: page totals below zero are not reported. *)
Theorem summarizeMulti_pages (schedule : list nat) (m : MultiReport) :
  0 <= RunSummary.Pages (summarizeMulti schedule m)
  ∧ (∀ name rep,
       MultiReport.Browsers m !! name = Some rep →
       ReportTotals.Pages (Report.Totals rep)
       <= RunSummary.Pages (summarizeMulti schedule m))
  ∧ (RunSummary.Pages (summarizeMulti schedule m) = 0
     ∨ ∃ name rep,
         MultiReport.Browsers m !! name = Some rep
         ∧ RunSummary.Pages (summarizeMulti schedule m)
           = ReportTotals.Pages (Report.Totals rep)).
Proof.
  rewrite summarizeMulti_closed. cbn [RunSummary.Pages].
  destruct (mostPages_largest (map_to_list (MultiReport.Browsers m)).*2)
    as (H0 & Hall & Hsome).
  split; [done|]. split.
  - intros name rep H. rewrite Forall_forall in Hall. apply Hall.
    apply list_elem_of_fmap. exists (name, rep).
    split; [done|]. by apply elem_of_map_to_list.
  - destruct Hsome as [E|(rep & Hrep & E)]; [by left|]. right.
    apply list_elem_of_fmap in Hrep as ([name rep'] & -> & Hrep).
    apply elem_of_map_to_list in Hrep. by exists name, rep'.
Qed.

(** X15: where no violation total of an engine is negative and their sum
    fits 64 bits, the violation count of the summary is that sum, and no
    smaller than the total of any engine. *)
Theorem summarizeMulti_violations (schedule : list nat) (m : MultiReport) :
  Forall (λ rep, 0 <= ReportTotals.Violations (Report.Totals rep))
    (map_to_list (MultiReport.Browsers m)).*2 →
  sumViolations (map_to_list (MultiReport.Browsers m)).*2 < 2 ^ 63 →
  RunSummary.Violations (summarizeMulti schedule m)
  = sumViolations (map_to_list (MultiReport.Browsers m)).*2
  ∧ ∀ name rep,
      MultiReport.Browsers m !! name = Some rep →
      ReportTotals.Violations (Report.Totals rep)
      <= RunSummary.Violations (summarizeMulti schedule m).
Proof.
  intros Hpos Hfit. rewrite summarizeMulti_closed.
  cbn [RunSummary.Violations].
  assert (Hsum : ∀ l : list Report,
    Forall (λ rep, 0 <= ReportTotals.Violations (Report.Totals rep)) l →
    0 <= sumViolations l
    ∧ Forall (λ rep, ReportTotals.Violations (Report.Totals rep)
                     <= sumViolations l) l).
  { induction 1 as [|rep l Hrep Hl [IH0 IHall]]; simpl.
    - split; [lia|constructor].
    - split; [lia|]. constructor; [lia|].
      eapply Forall_impl; [exact IHall|]. intros r Hr. simpl in Hr. lia. }
  destruct (Hsum _ Hpos) as [Hs0 Hsall].
  rewrite wrap64_small by lia. split; [done|].
  intros name rep H. rewrite Forall_forall in Hsall. apply Hsall.
  apply list_elem_of_fmap. exists (name, rep).
  split; [done|]. by apply elem_of_map_to_list.
Qed.

(** The theorem on [twoEngines]. *)
Lemma summarizeMulti_violations_witness :
  RunSummary.Violations (summarizeMulti [1]%nat twoEngines)
  = sumViolations (map_to_list (MultiReport.Browsers twoEngines)).*2
  ∧ ∀ name rep,
      MultiReport.Browsers twoEngines !! name = Some rep →
      ReportTotals.Violations (Report.Totals rep)
      <= RunSummary.Violations (summarizeMulti [1]%nat twoEngines).
Proof.
  apply (summarizeMulti_violations [1]%nat twoEngines).
  - vm_compute.
    repeat (first [apply Forall_nil_2 | apply Forall_cons_2]);
      vm_compute; discriminate.
  - by vm_compute.
Defined.

(** Beyond 64 bits the count wraps around. *)
Example summarizeMulti_overflow :
  RunSummary.Violations
    (summarizeMulti []
       (MultiReport.mk "" ∅
          (<["chromium" :=
               Report.mk "" ∅ (ReportTotals.mk 1 9223372036854775807) [] ""]>
             (<["firefox" := Report.mk "" ∅ (ReportTotals.mk 1 1) [] ""]> ∅))))
  = -9223372036854775808.
Proof. vm_compute. reflexivity. Qed.


(** ** The configuration of a form *)

(** A valid configuration that names its engine needs no repair. *)
Lemma repairConfig_fixed (cfg : CSPConfig) :
  validConfig cfg → CSPConfig.Browser cfg ≠ "" → repairConfig cfg = cfg.
Proof.
  intros (Hnav & Hconc & Hsettle & Hbetween & Hwait & Hua & Hal) Hb.
  destruct cfg as [wait nav settle conc between ua al b].
  unfold repairConfig. simpl in *.
  apply String.eqb_neq in Hwait as ->. apply String.eqb_neq in Hua as ->.
  apply String.eqb_neq in Hal as ->. apply String.eqb_neq in Hb as ->.
  destruct (Z.leb_spec nav 0); [lia|]. destruct (Z.leb_spec conc 0); [lia|].
  destruct (Z.ltb_spec settle 0); [lia|].
  destruct (Z.ltb_spec between 0); [lia|]. done.
Qed.

(** X16: whatever is submitted, the configuration that the profile
    handlers build from the form is valid: both timeouts and the concurrency
    are usable numbers, no text value is empty; its engine is that of the
    default configuration; and [parseConfig] would repair nothing in it. A
    value that is blank, no number, or out of range leaves the default in
    place. *)
Theorem formConfig_needs_no_repair (form : string → string) :
  validConfig (formConfig form)
  ∧ CSPConfig.Browser (formConfig form) = CSPConfig.Browser defaultConfig
  ∧ repairConfig (formConfig form) = formConfig form
  ∧ (parseIntForm (form "nav_timeout_ms") <= 0 →
     CSPConfig.NavTimeoutMs (formConfig form)
     = CSPConfig.NavTimeoutMs defaultConfig)
  ∧ (parseIntForm (form "concurrency") <= 0 →
     CSPConfig.Concurrency (formConfig form)
     = CSPConfig.Concurrency defaultConfig).
Proof.
  assert (Hvalid : validConfig (formConfig form)).
  { unfold validConfig, formConfig. cbv zeta.
    cbn [CSPConfig.NavTimeoutMs CSPConfig.Concurrency CSPConfig.SettleWaitMs
         CSPConfig.BetweenURLMs CSPConfig.WaitUntil CSPConfig.UserAgent
         CSPConfig.AcceptLanguage defaultConfig].
    repeat split.
    - destruct (Z.ltb_spec 0 (parseIntForm (form "nav_timeout_ms"))); lia.
    - destruct (Z.ltb_spec 0 (parseIntForm (form "concurrency"))); lia.
    - destruct (Z.leb_spec 0 (parseIntForm (form "settle_wait_ms"))); lia.
    - destruct (Z.leb_spec 0 (parseIntForm (form "between_url_ms"))); lia.
    - by destruct (String.eqb_spec (TrimSpace (form "wait_until")) "").
    - by destruct (String.eqb_spec (TrimSpace (form "user_agent")) "").
    - by destruct (String.eqb_spec (TrimSpace (form "accept_language")) ""). }
  split; [done|]. split; [done|]. split; [by apply repairConfig_fixed|].
  unfold formConfig. cbv zeta.
  cbn [CSPConfig.NavTimeoutMs CSPConfig.Concurrency].
  split; intros H.
  - destruct (Z.ltb_spec 0 (parseIntForm (form "nav_timeout_ms"))); [lia|done].
  - destruct (Z.ltb_spec 0 (parseIntForm (form "concurrency"))); [lia|done].
Qed.

(** A form at work: a timeout with white space around it is read, a
    concurrency of zero and a negative wait leave the defaults. *)
Example formConfig_of_a_form :
  let form key :=
    if String.eqb key "nav_timeout_ms" then " 250 "
    else if String.eqb key "concurrency" then "0"
    else if String.eqb key "settle_wait_ms" then "-5"
    else if String.eqb key "between_url_ms" then "0"
    else if String.eqb key "wait_until" then " load"
    else "" in
  formConfig form
  = CSPConfig.mk "load" 250 3000 1 0
      (CSPConfig.UserAgent defaultConfig) "en-US,en;q=0.9" "chromium".
Proof. by vm_compute. Qed.


(** ** What a check returns *)

Section RunFacts.
Context (w : World.t) (urls : list string) (cfg : CSPConfig).

(** One turn of the loop over the engines that does not return. *)
Lemma enginePasses_turn (browser : string) (todo : list string)
    (reports : gmap string Report) (maxExit : Z) :
  ¬ returnsError (enginePasses w urls cfg (browser :: todo) reports maxExit) →
  ∃ report,
    decodedReport w urls cfg browser = Some report
    ∧ enginePasses w urls cfg (browser :: todo) reports maxExit
      = enginePasses w urls cfg todo (<[browser := report]> reports)
          (if maxExit <? engineExitCode w urls cfg browser
           then engineExitCode w urls cfg browser else maxExit).
Proof.
  cbn [enginePasses]. cbv zeta.
  unfold decodedReport, engineExitCode, passExitCode.
  generalize (World.Probe w urls cfg browser). intros p.
  destruct (Pass.StderrPipe p); [intros H; by destruct H|].
  destruct (Pass.Start p); [intros H; by destruct H|].
  destruct (Pass.Wait p); destruct (Pass.Stat p);
    try (intros H; by destruct H);
    (destruct (Pass.ReadFile p) as [err|data]; [intros H; by destruct H|]);
    (destruct (World.json_Unmarshal w data) as [err|report];
       [intros H; by destruct H|]);
    intros _; by exists report.
Qed.

Lemma enginePasses_reports (todo : list string) :
  ∀ (reports : gmap string Report) (maxExit : Z),
    ¬ returnsError (enginePasses w urls cfg todo reports maxExit) →
    MultiReport.GeneratedAt (enginePasses w urls cfg todo reports maxExit).1.1
    = World.Now w
    ∧ (∀ browser, browser ∈ todo →
                  is_Some (decodedReport w urls cfg browser))
    ∧ ∀ name,
        MultiReport.Browsers
          (enginePasses w urls cfg todo reports maxExit).1.1 !! name
        = if decide (name ∈ todo) then decodedReport w urls cfg name
          else reports !! name.
Proof.
  induction todo as [|browser todo IH]; intros reports maxExit Hok.
  - cbn [enginePasses fst MultiReport.GeneratedAt MultiReport.Browsers].
    split; [done|]. split.
    + by intros b Hb%elem_of_nil.
    + intros name. by rewrite decide_False by apply not_elem_of_nil.
  - destruct (enginePasses_turn browser todo reports maxExit Hok)
      as (report & Hdec & Heq).
    rewrite Heq in Hok |- *.
    destruct (IH _ _ Hok) as (Hnow & Hall & Hlookup).
    split; [done|]. split.
    + intros b Hb. apply elem_of_cons in Hb as [->|Hb]; [|by apply Hall].
      by rewrite Hdec.
    + intros name. rewrite Hlookup.
      destruct (decide (name = browser)) as [->|Hne].
      * rewrite (decide_True (P := browser ∈ browser :: todo)) by by left.
        rewrite Hdec, lookup_insert_eq.
        destruct (decide (browser ∈ todo)) as [Hin|_]; [|done].
        by rewrite <- Hdec.
      * rewrite lookup_insert_ne by done.
        destruct (decide (name ∈ todo)) as [Hin|Hnin].
        -- by rewrite decide_True by by right.
        -- rewrite decide_False; [done|].
           intros [?|?]%elem_of_cons; done.
Qed.

End RunFacts.

(** X17: when [runCSPCheck] returns no error, its report carries the time
    of the clock, the configuration values under their seven keys, and the
    reports of exactly the three engines, each the report decoded from the
    output file of that engine. *)
Theorem runCSPCheck_reports_every_engine (w : World.t) (urls : list string)
    (cfg : CSPConfig) :
  ¬ returnsError (runCSPCheck w urls cfg) →
  MultiReport.GeneratedAt (runCSPCheck w urls cfg).1.1 = World.Now w
  ∧ (∀ name,
       MultiReport.Browsers (runCSPCheck w urls cfg).1.1 !! name
       = if decide (name ∈ browsers) then decodedReport w urls cfg name
         else None)
  ∧ (∀ browser, browser ∈ browsers →
                is_Some (MultiReport.Browsers (runCSPCheck w urls cfg).1.1
                           !! browser))
  ∧ dom (MultiReport.Config (runCSPCheck w urls cfg).1.1)
    = list_to_set
        ["waitUntil"; "navTimeoutMs"; "settleWaitMs"; "concurrency";
         "betweenUrlMs"; "userAgent"; "acceptLanguage"].
Proof.
  unfold runCSPCheck.
  destruct (World.MkdirTemp w); [intros H; by destruct H|].
  destruct (World.WriteFile w); [intros H; by destruct H|].
  intros Hok.
  destruct (enginePasses_reports w urls cfg browsers ∅ 0 Hok)
    as (Hnow & Hall & Hlookup).
  split; [done|]. split; [|split].
  - intros name. rewrite Hlookup, lookup_empty. done.
  - intros browser Hb. rewrite Hlookup, decide_True by done. by apply Hall.
  - clear Hnow Hall Hlookup. revert Hok.
    generalize (∅ : gmap string Report) 0.
    induction browsers as [|browser todo IH]; intros reports maxExit Hok.
    + cbn [enginePasses fst MultiReport.Config].
      rewrite !dom_list_to_map_L. done.
    + destruct (enginePasses_turn w urls cfg browser todo reports maxExit Hok)
        as (report & _ & Heq).
      rewrite Heq in Hok |- *. by apply IH.
Qed.

(** The theorem in [killedWorld], where every engine leaves a report. *)
Lemma runCSPCheck_reports_every_engine_witness :
  MultiReport.GeneratedAt
    (runCSPCheck killedWorld ["https://example.org/"] defaultConfig).1.1
  = World.Now killedWorld.
Proof.
  apply (runCSPCheck_reports_every_engine killedWorld
           ["https://example.org/"] defaultConfig).
  vm_compute. intros H. by apply H.
Defined.


Section RunErrors.
Context (w : World.t) (urls : list string) (cfg : CSPConfig).

(** One turn of the loop over the engines: the engine fails and the loop
    returns, or it passes and the loop goes on. *)
Lemma enginePasses_turn_cases (browser : string) (todo : list string)
    (reports : gmap string Report) (maxExit : Z) :
  (engineFails w (World.Probe w urls cfg browser)
   ∧ returnsError (enginePasses w urls cfg (browser :: todo) reports maxExit)
   ∧ returnedCode (enginePasses w urls cfg (browser :: todo) reports maxExit)
     = if started (World.Probe w urls cfg browser)
       then engineExitCode w urls cfg browser else 0)
  ∨ (¬ engineFails w (World.Probe w urls cfg browser)
     ∧ ∃ report maxExit',
         enginePasses w urls cfg (browser :: todo) reports maxExit
         = enginePasses w urls cfg todo (<[browser := report]> reports)
             maxExit').
Proof.
  cbn [enginePasses]. cbv zeta.
  unfold engineExitCode, passExitCode, started, engineFails.
  generalize (World.Probe w urls cfg browser). intros p.
  destruct (Pass.StderrPipe p) as [e1|] eqn:E1.
  { left. split; [by left|done]. }
  destruct (Pass.Start p) as [e2|] eqn:E2.
  { left. split; [right; by left|done]. }
  assert (Hrest :
    ∀ r : MultiReport * Z * option error,
      r = match Pass.ReadFile p with
          | inl err =>
              (noReport,
               exitCodeFromState (Pass.ProcessState p) (Pass.Wait p),
               Some err)
          | inr data =>
              match World.json_Unmarshal w data with
              | inl err =>
                  (noReport,
                   exitCodeFromState (Pass.ProcessState p) (Pass.Wait p),
                   Some err)
              | inr report =>
                  enginePasses w urls cfg todo (<[browser:=report]> reports)
                    (if maxExit
                        <? exitCodeFromState (Pass.ProcessState p) (Pass.Wait p)
                     then exitCodeFromState (Pass.ProcessState p) (Pass.Wait p)
                     else maxExit)
              end
          end →
      (Pass.Wait p = None ∨ Pass.Stat p = None) →
      (((None : option error) ≠ None
        ∨ (None : option error) ≠ None
        ∨ (Pass.Wait p ≠ None ∧ Pass.Stat p ≠ None)
        ∨ (∃ err, Pass.ReadFile p = inl err)
        ∨ (∃ data err,
             Pass.ReadFile p = inr data
             ∧ World.json_Unmarshal w data = inl err))
       ∧ returnsError r
       ∧ returnedCode r
         = exitCodeFromState (Pass.ProcessState p) (Pass.Wait p))
      ∨ (¬ ((None : option error) ≠ None
            ∨ (None : option error) ≠ None
            ∨ (Pass.Wait p ≠ None ∧ Pass.Stat p ≠ None)
            ∨ (∃ err, Pass.ReadFile p = inl err)
            ∨ (∃ data err,
                 Pass.ReadFile p = inr data
                 ∧ World.json_Unmarshal w data = inl err))
         ∧ ∃ report maxExit',
             r = enginePasses w urls cfg todo (<[browser := report]> reports)
                   maxExit')).
  { intros r -> Hws.
    destruct (Pass.ReadFile p) as [err|data] eqn:E5.
    { left. split; [|done]. do 3 right. left. by exists err. }
    destruct (World.json_Unmarshal w data) as [err|report] eqn:E6.
    { left. split; [|done]. do 4 right. by exists data, err. }
    right. split; [|by eexists _, _].
    intros [H|[H|[[H1 H2]|[[err H]|(data' & err & H1 & H2)]]]];
      try congruence.
    by destruct Hws. }
  destruct (Pass.Wait p) as [e3|] eqn:E3.
  - destruct (Pass.Stat p) as [e4|] eqn:E4.
    + left. split; [|done]. do 2 right. by left.
    + apply Hrest; [done|by right].
  - apply Hrest; [done|by left].
Qed.

Lemma enginePasses_first_failure (todo : list string) :
  ∀ (reports : gmap string Report) (maxExit : Z),
    returnsError (enginePasses w urls cfg todo reports maxExit) →
    ∃ passed browser rest,
      todo = passed ++ browser :: rest
      ∧ (∀ b, b ∈ passed → ¬ engineFails w (World.Probe w urls cfg b))
      ∧ engineFails w (World.Probe w urls cfg browser)
      ∧ returnedCode (enginePasses w urls cfg todo reports maxExit)
        = if started (World.Probe w urls cfg browser)
          then engineExitCode w urls cfg browser else 0.
Proof.
  induction todo as [|browser todo IH]; intros reports maxExit.
  { intros H. by destruct H. }
  destruct (enginePasses_turn_cases browser todo reports maxExit)
    as [(Hfails & _ & Hcode)|(Hpasses & report & maxExit' & ->)].
  - intros _. exists [], browser, todo.
    split; [done|]. split; [by intros b Hb%elem_of_nil|done].
  - intros Herr.
    destruct (IH _ _ Herr) as (passed & b0 & rest & -> & Hpassed & Hb0 & Hcode).
    exists (browser :: passed), b0, rest.
    split; [done|]. split; [|done].
    intros b Hb. apply elem_of_cons in Hb as [->|Hb]; [done|by apply Hpassed].
Qed.

End RunErrors.

(** X18: when [runCSPCheck] returns an error, either the working directory
    or the URL file could not be made and the code is zero, or the engines
    before some engine all passed and that engine failed: the code is then
    zero where its process did not start, and otherwise the exit code of
    that one engine, whatever the codes of the engines before it. *)
Theorem runCSPCheck_code_of_first_failure (w : World.t) (urls : list string)
    (cfg : CSPConfig) :
  returnsError (runCSPCheck w urls cfg) →
  ((World.MkdirTemp w ≠ None ∨ World.WriteFile w ≠ None)
   ∧ returnedCode (runCSPCheck w urls cfg) = 0)
  ∨ ∃ passed browser rest,
      browsers = passed ++ browser :: rest
      ∧ (∀ b, b ∈ passed → ¬ engineFails w (World.Probe w urls cfg b))
      ∧ engineFails w (World.Probe w urls cfg browser)
      ∧ returnedCode (runCSPCheck w urls cfg)
        = if started (World.Probe w urls cfg browser)
          then engineExitCode w urls cfg browser else 0.
Proof.
  unfold runCSPCheck.
  destruct (World.MkdirTemp w) eqn:E1; [intros _; left; split; [by left|done]|].
  destruct (World.WriteFile w) eqn:E2;
    [intros _; left; split; [by right|done]|].
  intros Herr. right. by apply enginePasses_first_failure.
Qed.

(** The theorem in [silentWorld]. *)
Lemma runCSPCheck_code_of_first_failure_witness :
  ((World.MkdirTemp silentWorld ≠ None ∨ World.WriteFile silentWorld ≠ None)
   ∧ returnedCode
       (runCSPCheck silentWorld ["https://example.org/"] defaultConfig) = 0)
  ∨ ∃ passed browser rest,
      browsers = passed ++ browser :: rest
      ∧ (∀ b, b ∈ passed →
              ¬ engineFails silentWorld
                  (World.Probe silentWorld ["https://example.org/"]
                     defaultConfig b))
      ∧ engineFails silentWorld
          (World.Probe silentWorld ["https://example.org/"] defaultConfig
             browser)
      ∧ returnedCode
          (runCSPCheck silentWorld ["https://example.org/"] defaultConfig)
        = if started
               (World.Probe silentWorld ["https://example.org/"]
                  defaultConfig browser)
          then engineExitCode silentWorld ["https://example.org/"]
                 defaultConfig browser
          else 0.
Proof.
  apply (runCSPCheck_code_of_first_failure silentWorld
           ["https://example.org/"] defaultConfig).
  by vm_compute.
Defined.


(** ** Lists of URLs, line by line *)

Lemma split_from_cons (c : ascii) (s : string) :
  ∃ p ps, split_from (String c "") 0 s = p :: ps.
Proof.
  destruct s as [|a s]; [by exists "", []|].
  cbn [split_from]. destruct (HasPrefix (String a s) (String c "")).
  - by eexists _, _.
  - destruct (split_from (String c "") 0 s); by eexists _, _.
Qed.

(** The pieces of two texts joined by the separator are the pieces of the
    one, then the pieces of the other. *)
Lemma Split_append (c : ascii) (a b : string) :
  Split (a +:+ String c b) (String c "")
  = Split a (String c "") ++ Split b (String c "").
Proof.
  unfold Split. induction a as [|x a IH].
  - rewrite append_nil_l. cbn [split_from]. rewrite HasPrefix_byte.
    by rewrite Ascii.eqb_refl.
  - rewrite append_cons. cbn [split_from]. rewrite !HasPrefix_byte.
    destruct (Ascii.eqb x c).
    + cbn [length Nat.pred]. by rewrite IH.
    + rewrite IH. by destruct (split_from_cons c a) as (p & ps & ->).
Qed.

(** X19: [parseURLList] reads a text line by line: the URLs of two texts
    joined by a line feed are the URLs of the first, then the URLs of the
    second. No line changes what another line gives, the order of the lines
    is kept, and a URL listed twice is returned twice. *)
Theorem parseURLList_line_by_line (a b : string) :
  parseURLList (a +:+ newline +:+ b) = parseURLList a ++ parseURLList b.
Proof.
  unfold parseURLList, newline.
  rewrite append_cons, append_nil_l, Split_append. apply omap_app.
Qed.

(** The same URL on two lines. *)
Example parseURLList_keeps_duplicates :
  parseURLList ("https://example.org" +:+ newline +:+ "https://example.org")
  = ["https://example.org/"; "https://example.org/"].
Proof. by vm_compute. Qed.


(** ** The engines of the run page *)

Lemma filter_ext_elem {A} (P Q : A → Prop) `{∀ x, Decision (P x)}
    `{∀ x, Decision (Q x)} (l : list A) :
  (∀ x, x ∈ l → (P x ↔ Q x)) → filter P l = filter Q l.
Proof.
  induction l as [|x l IH]; intros Hiff; [done|].
  rewrite !filter_cons, IH by (intros y Hy; apply Hiff; by right).
  destruct (decide (P x)) as [HP|HP], (decide (Q x)) as [HQ|HQ]; try done.
  - destruct HQ. by apply (Hiff x); [left|].
  - destruct HP. by apply (Hiff x); [left|].
Qed.

Lemma filter_fmap_fst {A} (P : string → Prop) `{∀ x, Decision (P x)}
    (l : list (string * A)) :
  (filter (λ e, P e.1) l).*1 = filter P l.*1.
Proof.
  induction l as [|e l IH]; [done|].
  rewrite fmap_cons, !filter_cons.
  destruct (decide (P e.1)); [rewrite fmap_cons|]; by rewrite IH.
Qed.

Lemma existsb_names (name : string) (acc : list BrowserReport) :
  existsb (λ b, String.eqb (BrowserReport.Name b) name) acc = true ↔
  name ∈ BrowserReport.Name <$> acc.
Proof.
  rewrite existsb_exists, list_elem_of_fmap. split.
  - intros (b & Hb & E). apply String.eqb_eq in E. exists b.
    by rewrite list_elem_of_In.
  - intros (b & -> & Hb). exists b. rewrite <- list_elem_of_In.
    by rewrite String.eqb_refl.
Qed.

Section RunPage.
Context (schedules : string → string → list nat).

Lemma knownReports_names (stored : gmap string Report) (names : list string) :
  BrowserReport.Name
    <$> omap (λ name, browserReportOf schedules name <$> stored !! name) names
  = filter (λ name, is_Some (stored !! name)) names.
Proof.
  induction names as [|name names IH]; [done|].
  rewrite omap_step, filter_cons.
  destruct (decide (is_Some (stored !! name))) as [[rep E]|Hnone].
  - rewrite E. cbn [fmap option_fmap option_map]. rewrite fmap_cons.
    by rewrite <- IH.
  - destruct (stored !! name) as [rep|] eqn:E; [by destruct Hnone|done].
Qed.

Lemma knownReports_stored (stored : gmap string Report) (names : list string) :
  Forall
    (λ b, ∃ rep, stored !! BrowserReport.Name b = Some rep
                 ∧ b = browserReportOf schedules (BrowserReport.Name b) rep)
    (omap (λ name, browserReportOf schedules name <$> stored !! name) names).
Proof.
  apply Forall_forall. intros b Hb.
  apply list_elem_of_omap in Hb as (name & _ & Hb).
  destruct (stored !! name) as [rep|] eqn:E; [|done].
  injection Hb as <-. by exists rep.
Qed.

(** The loop over the map appends the entries whose name is not yet
    listed, in the order of the range. *)
Lemma fold_addUnexpected (entries : list (string * Report)) :
  NoDup entries.*1 →
  ∀ acc,
    fold_left (addUnexpected schedules) entries acc
    = acc
      ++ ((λ e, browserReportOf schedules e.1 e.2)
            <$> filter (λ e, e.1 ∉ BrowserReport.Name <$> acc) entries).
Proof.
  induction entries as [|[name rep] entries IH]; intros Hnd acc.
  - by rewrite filter_nil, fmap_nil, app_nil_r.
  - rewrite fmap_cons in Hnd. apply NoDup_cons in Hnd as [Hname Hnd].
    cbn [fold_left addUnexpected]. rewrite filter_cons. cbn [fst].
    destruct (existsb _ acc) eqn:E.
    + apply existsb_names in E. rewrite decide_False by (by intros H).
      by apply IH.
    + assert (Hnew : name ∉ BrowserReport.Name <$> acc).
      { intros H. apply existsb_names in H. congruence. }
      rewrite decide_True by done. rewrite (IH Hnd), <- app_assoc.
      f_equal. rewrite fmap_cons. cbn [app fst snd]. do 2 f_equal.
      apply filter_ext_elem. intros [n r] Hin. cbn [fst].
      rewrite fmap_app, elem_of_app. cbn [fmap list_fmap BrowserReport.Name
                                           browserReportOf].
      split; [tauto|]. intros Hn [H|H%list_elem_of_singleton]; [done|].
      subst n. apply Hname. apply list_elem_of_fmap. by exists (name, r).
Qed.

End RunPage.

Lemma NoDup_browsers : NoDup browsers.
Proof. apply (bool_decide_unpack _). by vm_compute. Qed.

(** X20: the engines of the run page are the engines that the stored run
    has a report for, each listed once with its own report and the two
    views of its pages: first the known engines in their fixed order, then
    the others, in the order of the map range. *)
Theorem detailReports_lists_every_engine_once (schedule : list nat)
    (schedules : string → string → list nat) (multi : MultiReport) :
  (∃ unexpected,
     BrowserReport.Name <$> detailReports schedule schedules multi
     = filter (λ name, is_Some (MultiReport.Browsers multi !! name)) browsers
       ++ unexpected
     ∧ unexpected
       ≡ₚ filter (λ name, name ∉ browsers)
            (map_to_list (MultiReport.Browsers multi)).*1)
  ∧ BrowserReport.Name <$> detailReports schedule schedules multi
    ≡ₚ (map_to_list (MultiReport.Browsers multi)).*1
  ∧ Forall
      (λ b, ∃ rep,
         MultiReport.Browsers multi !! BrowserReport.Name b = Some rep
         ∧ b = browserReportOf schedules (BrowserReport.Name b) rep)
      (detailReports schedule schedules multi).
Proof.
  unfold detailReports, knownReports.
  set (stored := MultiReport.Browsers multi).
  pose proof (range_perm schedule (map_to_list stored)) as Hperm.
  assert (Hnd : NoDup (range schedule (map_to_list stored)).*1).
  { rewrite (fmap_Permutation fst _ _ Hperm). apply NoDup_fst_map_to_list. }
  assert (Hkeys : ∀ name, name ∈ (map_to_list stored).*1 ↔
                          is_Some (stored !! name)).
  { intros name. rewrite list_elem_of_fmap. split.
    - intros ([n rep] & -> & Hin). apply elem_of_map_to_list in Hin.
      by exists rep.
    - intros [rep Hrep]. exists (name, rep). split; [done|].
      by apply elem_of_map_to_list. }
  rewrite (fold_addUnexpected schedules _ Hnd).
  rewrite fmap_app, knownReports_names, <- list_fmap_compose.
  change (BrowserReport.Name
          ∘ (λ e : string * Report, browserReportOf schedules e.1 e.2))
    with (@fst string Report).
  assert (Hun :
    fst
      <$> filter
            (λ e : string * Report,
               e.1 ∉ filter (λ name, is_Some (stored !! name)) browsers)
            (range schedule (map_to_list stored))
    ≡ₚ filter (λ name, name ∉ browsers) (map_to_list stored).*1).
  { rewrite (filter_ext_elem _ (λ e : string * Report, e.1 ∉ browsers)).
    - rewrite <- (filter_fmap_fst (λ name, name ∉ browsers)).
      apply fmap_Permutation, filter_Permutation, Hperm.
    - intros [name rep] Hin. cbn [fst]. rewrite list_elem_of_filter.
      rewrite Hperm in Hin. apply elem_of_map_to_list in Hin.
      split; [|tauto]. intros H Hb. apply H. split; [by exists rep|done]. }
  split; [by eexists|]. split.
  - rewrite Hun. apply NoDup_Permutation.
    + apply NoDup_app. split; [apply NoDup_filter, NoDup_browsers|].
      split; [|apply NoDup_filter, NoDup_fst_map_to_list].
      intros name [_ Hb]%list_elem_of_filter [Hnb _]%list_elem_of_filter.
      done.
    + apply NoDup_fst_map_to_list.
    + intros name. rewrite elem_of_app, !list_elem_of_filter, Hkeys.
      destruct (decide (name ∈ browsers)); tauto.
  - apply Forall_app. split; [apply knownReports_stored|].
    apply Forall_forall. intros b Hb.
    apply list_elem_of_fmap in Hb as ([name rep] & -> & Hin).
    apply list_elem_of_filter in Hin as [_ Hin]. rewrite Hperm in Hin.
    apply elem_of_map_to_list in Hin. by exists rep.
Qed.


(** ** The order of the deduplicated violations *)

Lemma firstSeen_ext (keys : list string) :
  ∀ s1 s2, (∀ x, x ∈ s1 ↔ x ∈ s2) → firstSeen s1 keys = firstSeen s2 keys.
Proof.
  induction keys as [|k keys IH]; intros s1 s2 Hiff; [done|].
  cbn [firstSeen]. rewrite (bool_decide_ext _ _ (Hiff k)).
  destruct (bool_decide (k ∈ s2)); [by apply IH|].
  f_equal. apply IH. intros x. rewrite !elem_of_cons. by rewrite Hiff.
Qed.

Lemma firstSeen_NoDup (keys : list string) :
  ∀ seen,
    NoDup keys → (∀ k, k ∈ keys → k ∉ seen) → firstSeen seen keys = keys.
Proof.
  induction keys as [|k keys IH]; intros seen Hnd Hnew; [done|].
  apply NoDup_cons in Hnd as [Hk Hnd]. cbn [firstSeen].
  rewrite bool_decide_eq_false_2 by (apply Hnew; by left).
  f_equal. apply IH; [done|]. intros x Hx [->|Hin]%elem_of_cons; [done|].
  by apply (Hnew x); [right|].
Qed.

Lemma firstSeen_length (keys : list string) :
  ∀ seen, (List.length (firstSeen seen keys) <= List.length keys)%nat.
Proof.
  induction keys as [|k keys IH]; intros seen; [done|].
  cbn [firstSeen]. destruct (bool_decide (k ∈ seen)); simpl.
  - specialize (IH seen). lia.
  - specialize (IH (k :: seen)). lia.
Qed.

Lemma Map_set_new {V} (key : string) (v : V) (m : list (string * V)) :
  Probe.Map_get key m = None → Probe.Map_set key v m = m ++ [(key, v)].
Proof.
  induction m as [|[k x] m IH]; [done|].
  cbn [Probe.Map_get Probe.Map_set app].
  destruct (String.eqb k key); [done|]. intros H. by rewrite (IH H).
Qed.

Section DedupOrder.
Context (URL_origin : string → option string).

Lemma remember_keys (uniq : list (string * Probe.Violation.t))
    (v : Probe.Violation.t) :
  (Probe.remember uniq v).*1
  = if bool_decide (Probe.violationKey v ∈ uniq.*1) then uniq.*1
    else uniq.*1 ++ [Probe.violationKey v].
Proof.
  unfold Probe.remember. cbv zeta.
  destruct (Probe.Map_get (Probe.violationKey v) uniq) as [r|] eqn:E;
    rewrite Map_set_keys, E.
  - rewrite bool_decide_eq_true_2; [done|].
    destruct (decide (Probe.violationKey v ∈ uniq.*1)) as [|Hn]; [done|].
    apply Map_get_None in Hn. congruence.
  - apply Map_get_None in E. by rewrite bool_decide_eq_false_2.
Qed.

Lemma fold_remember_keys (raw : list Probe.Violation.t) :
  ∀ uniq,
    (fold_left Probe.remember raw uniq).*1
    = uniq.*1 ++ firstSeen uniq.*1 (Probe.violationKey <$> raw).
Proof.
  induction raw as [|v raw IH]; intros uniq.
  - by rewrite fmap_nil, app_nil_r.
  - rewrite fmap_cons. cbn [fold_left firstSeen].
    rewrite IH, remember_keys.
    destruct (bool_decide (Probe.violationKey v ∈ uniq.*1)); [done|].
    rewrite <- app_assoc. cbn [app]. do 2 f_equal.
    apply firstSeen_ext. intros x.
    rewrite elem_of_app, list_elem_of_singleton, elem_of_cons. tauto.
Qed.

Lemma fold_remember_new (raw : list Probe.Violation.t) :
  ∀ uniq,
    NoDup (Probe.violationKey <$> raw) →
    (∀ v, v ∈ raw → Probe.violationKey v ∉ uniq.*1) →
    fold_left Probe.remember raw uniq
    = uniq ++ ((λ v, (Probe.violationKey v, v)) <$> raw).
Proof.
  induction raw as [|v raw IH]; intros uniq Hnd Hnew.
  - by rewrite fmap_nil, app_nil_r.
  - rewrite fmap_cons in Hnd. apply NoDup_cons in Hnd as [Hv Hnd].
    assert (Hget : Probe.Map_get (Probe.violationKey v) uniq = None).
    { apply Map_get_None, Hnew. by left. }
    cbn [fold_left]. unfold Probe.remember at 2. cbv zeta.
    rewrite Hget, (Map_set_new _ _ _ Hget), IH; [|done|].
    + rewrite fmap_cons, <- app_assoc. done.
    + intros x Hx. rewrite fmap_app, elem_of_app. cbn [fmap list_fmap fst].
      intros [H|H%list_elem_of_singleton].
      * by apply (Hnew x); [right|].
      * apply Hv. rewrite <- H. apply list_elem_of_fmap. by exists x.
Qed.

Lemma remembers_nil : remembers [] [].
Proof.
  split; [constructor|]. split; [done|]. by intros e He%elem_of_nil.
Qed.

Lemma dedup_keys (raw : list Probe.Violation.t) :
  Probe.violationKey <$> (fold_left Probe.remember raw []).*2
  = (fold_left Probe.remember raw []).*1.
Proof.
  destruct (fold_remember_remembers raw [] [] remembers_nil) as (Hnd & Hkey & _).
  rewrite <- list_fmap_compose. apply list_fmap_ext. intros i [k r] Hi.
  cbn [compose fst snd].
  by destruct (Hkey k r (Map_get_lookup _ i k r Hnd Hi)) as [-> _].
Qed.

End DedupOrder.

(** X21: the violations of a page come out of the deduplication in the
    order in which their keys are first met among the events, one for each
    key: a later event of a key already met changes at most the entry at
    its place, never the order. There are never more of them than events. *)
Theorem dedup_in_order_of_first_event (URL_origin : string → option string)
    (events : list Probe.Event.t) :
  Probe.violationKey <$> Probe.dedup URL_origin events
  = firstSeen []
      (Probe.violationKey
         <$> List.map (Probe.normalizeViolation URL_origin) events)
  ∧ (List.length (Probe.dedup URL_origin events) <= List.length events)%nat.
Proof.
  unfold Probe.dedup.
  assert (Hkeys :
    Probe.violationKey
      <$> (fold_left Probe.remember
             (List.map (Probe.normalizeViolation URL_origin) events) []).*2
    = firstSeen []
        (Probe.violationKey
           <$> List.map (Probe.normalizeViolation URL_origin) events)).
  { by rewrite dedup_keys, fold_remember_keys. }
  split; [done|].
  rewrite <- (length_fmap Probe.violationKey), Hkeys.
  etrans; [apply firstSeen_length|]. by rewrite length_fmap, length_map.
Qed.

(** X22: events whose keys are pairwise different all come out of the
    deduplication, normalized, in the order of the events. *)
Theorem dedup_keeps_distinct_events (URL_origin : string → option string)
    (events : list Probe.Event.t) :
  NoDup
    (Probe.violationKey
       <$> List.map (Probe.normalizeViolation URL_origin) events) →
  Probe.dedup URL_origin events
  = List.map (Probe.normalizeViolation URL_origin) events.
Proof.
  intros Hnd. unfold Probe.dedup.
  rewrite (fold_remember_new _ [] Hnd) by (intros v _ H; by apply elem_of_nil in H).
  rewrite app_nil_l, <- list_fmap_compose. apply list_fmap_id.
Qed.

(** The theorem on two events of different lines. *)
Lemma dedup_keeps_distinct_events_witness :
  Probe.dedup noOrigin [reportEvent; otherEvent]
  = List.map (Probe.normalizeViolation noOrigin) [reportEvent; otherEvent].
Proof.
  apply (dedup_keeps_distinct_events noOrigin [reportEvent; otherEvent]).
  apply (bool_decide_unpack _). by vm_compute.
Defined.


(** ** The summary stored for a run *)

(** X23: when the check of a run returns no error, the summary made of its
    report lists the three engines and no other, each with the totals of the
    report decoded from its output file, whatever the order in which the
    reports are ranged over. *)
Theorem summary_of_a_check (w : World.t) (urls : list string)
    (cfg : CSPConfig) (schedule : list nat) :
  ¬ returnsError (runCSPCheck w urls cfg) →
  ∀ name,
    RunSummary.Browsers (summarizeMulti schedule (runCSPCheck w urls cfg).1.1)
      !! name
    = if decide (name ∈ browsers)
      then Report.Totals <$> decodedReport w urls cfg name
      else None.
Proof.
  rewrite summarizeMulti_closed. cbn [RunSummary.Browsers].
  unfold runCSPCheck.
  destruct (World.MkdirTemp w); [intros H; by destruct H|].
  destruct (World.WriteFile w); [intros H; by destruct H|].
  intros Hok name.
  destruct (enginePasses_reports w urls cfg browsers ∅ 0 Hok)
    as (_ & _ & Hlookup).
  rewrite lookup_fmap, Hlookup, lookup_empty.
  by destruct (decide (name ∈ browsers)).
Qed.

(** The theorem in [killedWorld]. *)
Lemma summary_of_a_check_witness :
  RunSummary.Browsers
    (summarizeMulti [2]%nat
       (runCSPCheck killedWorld ["https://example.org/"] defaultConfig).1.1)
    !! "firefox"
  = if decide ("firefox" ∈ browsers)
    then Report.Totals
           <$> decodedReport killedWorld ["https://example.org/"]
                 defaultConfig "firefox"
    else None.
Proof.
  apply (summary_of_a_check killedWorld ["https://example.org/"]
           defaultConfig [2]%nat).
  vm_compute. intros H. by apply H.
Defined.

(** ** The probe and the server on dispositions *)

Lemma ToLower_empty (s : string) : ToLower s = "" ↔ s = "".
Proof. by destruct s. Qed.

Lemma orNull_default (s : string) : default "" (Probe.orNull (Some s)) = s.
Proof.
  unfold Probe.orNull. destruct (String.eqb_spec s ""); simpl; congruence.
Qed.

(** X24: the server sorts a disposition, white space around it apart, as
    the probe does: it passes the filter [report-only] exactly when the
    probe puts it in the bucket [report-only], and the filter [enforce]
    exactly when the probe puts it in the bucket [enforce] or when it is
    empty, a violation without disposition being taken as enforced. *)
Theorem server_and_probe_agree_on_dispositions (disposition : string) :
  (isDisposition disposition "report-only" = true ↔
   Probe.normalizeDisposition (Some (TrimSpace disposition)) = "report-only")
  ∧ (isDisposition disposition "enforce" = true ↔
     Probe.normalizeDisposition (Some (TrimSpace disposition)) = "enforce"
     ∨ TrimSpace disposition = "").
Proof.
  unfold isDisposition, Probe.normalizeDisposition.
  rewrite orNull_default.
  change (String.eqb "enforce" "report-only") with false.
  change (String.eqb "report-only" "report-only") with true.
  cbv iota zeta. rewrite <- (ToLower_empty (TrimSpace disposition)).
  generalize (ToLower (TrimSpace disposition)). intros a.
  destruct Contains_report_enforce as [H0 He].
  split.
  - destruct (Contains a "report"); [done|].
    split; [done|]. by destruct (String.eqb a "enforce").
  - rewrite orb_true_iff, !String.eqb_eq. split.
    + intros [Ha|Ha]; subst a; [by right|]. left. by rewrite He.
    + intros [H|Ha]; [|subst a; by left]. right.
      destruct (Contains a "report"); [done|].
      by destruct (String.eqb_spec a "enforce").
Qed.


(** ** The URLs that come out of a list *)

Lemma HasPrefix_split (p : string) :
  ∀ s, HasPrefix s p = true → s = p +:+ drop (length p) s.
Proof.
  induction p as [|a p IH]; intros s H.
  - rewrite append_nil_l. by destruct s.
  - destruct s as [|b s]; [done|]. simpl in H.
    apply andb_true_iff in H as [Hab H]. apply Ascii.eqb_eq in Hab as ->.
    rewrite append_cons. cbn [length drop]. by rewrite <- IH.
Qed.

Lemma HasPrefix_append (p t : string) : HasPrefix (p +:+ t) p = true.
Proof.
  induction p as [|a p IH]; [done|].
  rewrite append_cons. simpl. by rewrite Ascii.eqb_refl.
Qed.

(** A URL with a host has no opaque part, and its scheme is that of
    [getScheme], lowercased. *)
Lemma parse_with_host (rawURL : string) (u : url.URL) :
  url.parse rawURL = Some u →
  url.Host u ≠ "" →
  url.Opaque u = ""
  ∧ ∃ scheme rest,
      url.getScheme rawURL = Some (scheme, rest)
      ∧ url.Scheme u = ToLower scheme.
Proof.
  unfold url.parse.
  destruct (url.stringContainsCTLByte rawURL); [done|].
  destruct (String.eqb rawURL "*"); [by intros [= <-]|].
  destruct (url.getScheme rawURL) as [[scheme rest]|]; [|done].
  destruct (if url.HasSuffix rest "?" && (url.Count rest "?" =? 1)%nat
            then (take (Nat.pred (length rest)) rest, true, "")
            else let '(before, after, _) := url.Cut rest "?" in
                 (before, false, after)) as [[rest' forceQuery] rawQuery].
  destruct (negb (HasPrefix rest' "/")).
  { destruct (negb (String.eqb (ToLower scheme) "")); [by intros [= <-]|].
    destruct (url.Cut rest' "/") as [[segment ?] ?].
    destruct (0 <? url.Count segment ":")%nat; [done|by intros [= <-]]. }
  destruct (_ && _); [|by intros [= <-]].
  destruct (url.Cut (drop 2 rest') "/") as [[authority path] found].
  destruct (url.parseAuthority authority) as [[user host]|]; [|done].
  intros [= <-] _. split; [done|]. by exists scheme, rest.
Qed.

Lemma parse_path (rawURL : string) (u : url.URL) :
  url.parse rawURL = Some u →
  url.Host u ≠ "" →
  url.Path u = "" ∨ HasPrefix (url.Path u) "/" = true.
Proof.
  unfold url.parse.
  destruct (url.stringContainsCTLByte rawURL); [done|].
  destruct (String.eqb rawURL "*"); [by intros [= <-]|].
  destruct (url.getScheme rawURL) as [[scheme rest]|]; [|done].
  destruct (if url.HasSuffix rest "?" && (url.Count rest "?" =? 1)%nat
            then (take (Nat.pred (length rest)) rest, true, "")
            else let '(before, after, _) := url.Cut rest "?" in
                 (before, false, after)) as [[rest' forceQuery] rawQuery].
  destruct (negb (HasPrefix rest' "/")).
  { destruct (negb (String.eqb (ToLower scheme) "")); [by intros [= <-]|].
    destruct (url.Cut rest' "/") as [[segment ?] ?].
    destruct (0 <? url.Count segment ":")%nat; [done|by intros [= <-]]. }
  destruct (_ && _); [|by intros [= <-]].
  destruct (url.Cut (drop 2 rest') "/") as [[authority path] found].
  destruct (url.parseAuthority authority) as [[user host]|]; [|done].
  intros [= <-] _. cbn [url.Path]. destruct found; [by right|by left].
Qed.

Lemma normalizeURL_shown (raw out : string) :
  normalizeURL raw = Some out →
  ∃ u, url.Parse raw = Some u ∧ url.Scheme u ≠ "" ∧ url.Host u ≠ ""
       ∧ out = shown u.
Proof.
  unfold normalizeURL, url.Parse.
  destruct (url.Cut raw "#") as [[before frag] found].
  destruct (url.parse before) as [u|] eqn:E; [|done].
  cbn [url.Scheme url.Host url.Path url.Opaque url.User url.OmitHost
       url.ForceQuery url.RawQuery url.Fragment].
  destruct (String.eqb_spec (url.Scheme u) "") as [|Hs]; [done|].
  destruct (String.eqb_spec (url.Host u) "") as [|Hh]; [done|].
  cbn [orb]. intros [= <-]. eexists. split; [done|].
  cbn [url.Scheme url.Host]. split; [done|]. split; [done|].
  destruct (parse_with_host _ _ E Hh) as [Ho _].
  destruct (parse_path _ _ E Hh) as [Hp|Hp].
  - destruct u as [s o user h p oh fq rq f]. simpl in *. subst o p.
    destruct s as [|a s]; [done|]. destruct h as [|b h]; [done|].
    unfold url.String_, shown. simpl. rewrite !append_cons. simpl.
    rewrite andb_false_r. simpl.
    generalize (if fq || negb (rq =? "")%string then String "?" ("" +:+ rq) else "").
    generalize (if negb (frag =? "")%string then String "#" ("" +:+ frag) else "").
    intros x y. destruct user;
    repeat (rewrite append_nil_l || rewrite append_nil_r
            || rewrite append_assoc || rewrite append_cons); done.
  - destruct u as [s o user h p oh fq rq f]. simpl in *. subst o.
    destruct s as [|a s]; [done|]. destruct h as [|b h]; [done|].
    destruct p as [|c p]; [done|]. simpl in Hp.
    apply andb_true_iff in Hp as [Hc _]. apply Ascii.eqb_eq in Hc as ->.
    unfold url.String_, shown. simpl. rewrite !append_cons. simpl.
    rewrite andb_false_r. simpl.
    generalize (if fq || negb (rq =? "")%string then String "?" ("" +:+ rq) else "").
    generalize (if negb (frag =? "")%string then String "#" ("" +:+ frag) else "").
    intros x y. destruct user;
    repeat (rewrite append_nil_l || rewrite append_nil_r
            || rewrite append_assoc || rewrite append_cons); done.
Qed.

Lemma Cut_prefix (c : ascii) (p t : string) :
  has_byte c p = false →
  url.Cut (p +:+ t) c
  = let '(before, after, found) := url.Cut t c in (p +:+ before, after, found).
Proof.
  induction p as [|a p IH]; intros Hp.
  - rewrite append_nil_l. destruct (url.Cut t c) as [[before after] found].
    by rewrite append_nil_l.
  - simpl in Hp. apply orb_false_iff in Hp as [Ha Hp].
    rewrite append_cons. cbn [url.Cut]. rewrite Ha, (IH Hp).
    destruct (url.Cut t c) as [[before after] found]. by rewrite append_cons.
Qed.

(** A line that starts with [http://] or [https://] and is accepted keeps
    that start. *)
Lemma normalizeURL_keeps_scheme (scheme line out : string) :
  scheme = "http" ∨ scheme = "https" →
  HasPrefix line (scheme +:+ "://") = true →
  normalizeURL line = Some out →
  HasPrefix out (scheme +:+ "://") = true.
Proof.
  intros Hscheme Hline Hout.
  apply normalizeURL_shown in Hout as (u & Hparse & _ & Hh & ->).
  apply HasPrefix_split in Hline. revert Hparse. rewrite Hline.
  generalize (drop (length (scheme +:+ "://")) line). intros t.
  unfold url.Parse. rewrite (Cut_prefix "#" (scheme +:+ "://") t)
    by (by destruct Hscheme as [->| ->]).
  destruct (url.Cut t "#") as [[before frag] found].
  destruct (url.parse ((scheme +:+ "://") +:+ before)) as [u0|] eqn:E; [|done].
  intros [= <-]. cbn [url.Host] in Hh.
  destruct (parse_with_host _ _ E Hh) as (_ & s & rest & Hget & Hs).
  unfold shown. cbn [url.Scheme]. rewrite Hs.
  assert (s = scheme) as ->.
  { destruct Hscheme as [->| ->]; by injection Hget as <- _. }
  assert (ToLower scheme = scheme) as -> by (by destruct Hscheme as [->| ->]).
  rewrite <- append_assoc. apply HasPrefix_append.
Qed.

(** X26: every URL that [parseURLList] returns starts with [http://] or
    with [https://], in lower case. *)
Theorem parseURLList_yields_http_urls (text : string) :
  Forall
    (λ u, HasPrefix u "http://" = true ∨ HasPrefix u "https://" = true)
    (parseURLList text).
Proof.
  apply Forall_forall. intros out Hout. unfold parseURLList in Hout.
  apply list_elem_of_omap in Hout as (raw & _ & Hraw).
  unfold acceptLine in Hraw. cbv zeta in Hraw.
  destruct (String.eqb (TrimSpace raw) ""); [done|].
  destruct (HasPrefix (TrimSpace raw) "#"); [done|].
  revert Hraw.
  generalize (if 0 <=? Index (TrimSpace raw) "#"
              then TrimSpace
                     (take (Z.to_nat (Index (TrimSpace raw) "#"))
                        (TrimSpace raw))
              else TrimSpace raw).
  intros line Hline.
  destruct (String.eqb line ""); [done|].
  destruct (HasPrefix line "http://") eqn:E1.
  - left. by apply (normalizeURL_keeps_scheme "http" line out); [left| |].
  - destruct (HasPrefix line "https://") eqn:E2; [|done].
    right. by apply (normalizeURL_keeps_scheme "https" line out); [right| |].
Qed.

(** ** Plain URLs *)

(** A fact about every byte, checked on each of them. *)
Ltac every_byte :=
  let c := fresh "c" in
  intros c; destruct c as [[] [] [] [] [] [] [] []]; vm_compute;
  repeat split; try reflexivity; intros; try discriminate; auto.

Lemma all_bytes_append (p : ascii → bool) (s t : string) :
  url.all_bytes p (s +:+ t) = url.all_bytes p s && url.all_bytes p t.
Proof.
  induction s as [|a s IH]; [done|].
  rewrite append_cons. simpl. by rewrite IH, andb_assoc.
Qed.

Lemma all_bytes_impl (p q : ascii → bool) (s : string) :
  (∀ c, p c = true → q c = true) →
  url.all_bytes p s = true → url.all_bytes q s = true.
Proof.
  intros Hpq. induction s as [|a s IH]; [done|]. simpl.
  intros [Ha Hs]%andb_true_iff. by rewrite (Hpq a Ha), IH.
Qed.

Lemma all_bytes_has_byte (p : ascii → bool) (c : ascii) (s : string) :
  p c = false → url.all_bytes p s = true → has_byte c s = false.
Proof.
  intros Hc. induction s as [|a s IH]; [done|]. simpl.
  intros [Ha Hs]%andb_true_iff. rewrite (IH Hs), orb_false_r.
  destruct (Ascii.eqb_spec a c) as [->|]; [congruence|done].
Qed.

Lemma Cut_none (c : ascii) (s : string) :
  has_byte c s = false → url.Cut s c = (s, "", false).
Proof.
  induction s as [|a s IH]; [done|]. simpl.
  intros [Ha Hs]%orb_false_iff. by rewrite Ha, (IH Hs).
Qed.

Lemma CutLast_none (c : ascii) (s : string) :
  has_byte c s = false → url.CutLast s c = (s, "", false).
Proof.
  intros Hs. unfold url.CutLast. rewrite Cut_none; [done|].
  by rewrite has_byte_rev.
Qed.

Lemma HasSuffix_none (c : ascii) (s : string) :
  has_byte c s = false → url.HasSuffix s (String c "") = false.
Proof.
  intros Hs. unfold url.HasSuffix. rewrite <- has_byte_rev in Hs.
  change (String.rev (String c "")) with (String c "").
  destruct (String.rev s) as [|a r]; [done|].
  rewrite HasPrefix_byte. simpl in Hs. by apply orb_false_iff in Hs as [-> _].
Qed.

Lemma getScheme_from_letters (rest rawURL : string) (s : string) :
  ∀ (first : bool) (seen : string),
    url.all_bytes url.is_letter s = true →
    s ≠ "" ∨ first = false →
    url.getScheme_from first seen (s +:+ String ":" rest) rawURL
    = Some (String.rev seen +:+ s, rest).
Proof.
  induction s as [|a s IH]; intros first seen Hs Hfirst.
  - destruct Hfirst as [Hne|Hf]; [done|]. subst first.
    rewrite append_nil_l, append_nil_r. reflexivity.
  - simpl in Hs. apply andb_true_iff in Hs as [Ha Hs].
    rewrite append_cons. cbn [url.getScheme_from]. rewrite Ha.
    rewrite (IH false (String a seen) Hs) by by right.
    by rewrite rev_cons, append_assoc.
Qed.

Lemma letters_clear :
  ∀ c, url.is_letter c = true →
       c ≠ "*"%char ∧ c ≠ "#"%char ∧ c ≠ "?"%char
       ∧ negb (url.byte_in 0 31 c || Ascii.eqb c (ascii_of_nat 127)) = true.
Proof. every_byte. Qed.

Lemma host_name_clear :
  ∀ c, host_name_byte c = true →
       c ≠ "["%char ∧ url.host_byte c = true
       ∧ negb (url.byte_in 0 31 c || Ascii.eqb c (ascii_of_nat 127)) = true.
Proof. every_byte. Qed.

Lemma plain_path_clear :
  ∀ c, plain_path_byte c = true →
       negb (url.byte_in 0 31 c || Ascii.eqb c (ascii_of_nat 127)) = true.
Proof. every_byte. Qed.

Lemma Parse_plain (scheme host path : string) :
  scheme ≠ "" → url.all_bytes url.is_letter scheme = true →
  host ≠ "" → url.all_bytes host_name_byte host = true →
  path = "" ∨ HasPrefix path "/" = true →
  url.all_bytes plain_path_byte path = true →
  url.Parse (scheme +:+ "://" +:+ host +:+ path)
  = Some (url.mk (ToLower scheme) "" None host path false false "" "").
Proof.
  intros Hscheme Hletters Hhost Hname Hpath Hplain.
  assert (Hfree : ∀ c,
    url.is_letter c = false → host_name_byte c = false →
    plain_path_byte c = false → has_byte c "://" = false →
    has_byte c (scheme +:+ "://" +:+ host +:+ path) = false).
  { intros c H1 H2 H3 H4. rewrite !has_byte_append, H4.
    rewrite (all_bytes_has_byte _ c _ H1 Hletters).
    rewrite (all_bytes_has_byte _ c _ H2 Hname).
    by rewrite (all_bytes_has_byte _ c _ H3 Hplain). }
  unfold url.Parse. rewrite (Cut_none "#") by (by apply Hfree).
  assert (Hctl : url.stringContainsCTLByte
                   (scheme +:+ "://" +:+ host +:+ path) = false).
  { unfold url.stringContainsCTLByte. apply negb_false_iff.
    rewrite !all_bytes_append.
    rewrite (all_bytes_impl _ _ _
               (λ c H, proj2 (proj2 (proj2 (letters_clear c H)))) Hletters).
    rewrite (all_bytes_impl _ _ _
               (λ c H, proj2 (proj2 (host_name_clear c H))) Hname).
    by rewrite (all_bytes_impl _ _ _ plain_path_clear Hplain). }
  assert (Hstar : String.eqb (scheme +:+ "://" +:+ host +:+ path) "*" = false).
  { apply String.eqb_neq. destruct scheme as [|a s]; [done|].
    rewrite append_cons. simpl in Hletters.
    apply andb_true_iff in Hletters as [Ha _].
    destruct (letters_clear a Ha) as (Hne & _). by intros [= -> _]. }
  assert (Hlower : String.eqb (ToLower scheme) "" = false).
  { apply String.eqb_neq. by destruct scheme. }
  assert (Hget : url.getScheme (scheme +:+ "://" +:+ host +:+ path)
                 = Some (scheme, "//" +:+ host +:+ path)).
  { unfold url.getScheme.
    apply (getScheme_from_letters ("//" +:+ host +:+ path) _ scheme true ""
             Hletters (or_introl Hscheme)). }
  assert (Hquery : has_byte "?" ("//" +:+ host +:+ path) = false).
  { rewrite !has_byte_append.
    rewrite (all_bytes_has_byte host_name_byte "?" host eq_refl Hname).
    by rewrite (all_bytes_has_byte plain_path_byte "?" path eq_refl Hplain). }
  assert (Hslash : has_byte "/" host = false)
    by apply (all_bytes_has_byte host_name_byte "/" host eq_refl Hname).
  assert (Hat : has_byte "@" host = false)
    by apply (all_bytes_has_byte host_name_byte "@" host eq_refl Hname).
  assert (Hcolon : has_byte ":" host = false)
    by apply (all_bytes_has_byte host_name_byte ":" host eq_refl Hname).
  assert (Hauthority : url.parseAuthority host = Some (None, host)).
  { unfold url.parseAuthority, url.parseHost.
    rewrite (CutLast_none "@" host Hat), (CutLast_none ":" host Hcolon).
    rewrite (all_bytes_impl _ _ _
               (λ c H, proj1 (proj2 (host_name_clear c H))) Hname).
    destruct host as [|a h]; [done|]. rewrite HasPrefix_byte.
    simpl in Hname. apply andb_true_iff in Hname as [Ha _].
    destruct (host_name_clear a Ha) as (Hne & _).
    by destruct (Ascii.eqb_spec a "["). }
  unfold url.parse. rewrite Hctl, Hstar, Hget.
  rewrite (HasSuffix_none "?" _ Hquery), (Cut_none "?" _ Hquery).
  cbn [andb]. cbv iota beta. rewrite Hlower.
  change (HasPrefix ("//" +:+ host +:+ path) "/") with true.
  change (HasPrefix ("//" +:+ host +:+ path) "//") with true.
  change (drop 2 ("//" +:+ host +:+ path)) with (host +:+ path).
  cbn [negb orb andb]. rewrite (Cut_prefix "/" host path Hslash).
  destruct Hpath as [->|Hpath].
  - cbn [url.Cut]. rewrite append_nil_r, Hauthority. done.
  - destruct path as [|a p]; [done|]. simpl in Hpath.
    apply andb_true_iff in Hpath as [Ha _]. apply Ascii.eqb_eq in Ha as ->.
    cbn [url.Cut]. rewrite Ascii.eqb_refl, append_nil_r, Hauthority. done.
Qed.

(** X25: a URL made of a scheme of letters, [://], a host name of letters,
    digits, points and hyphens, and a path that is empty or starts with a
    slash and holds letters, digits and the bytes [-._~/], comes out of
    [normalizeURL] as it is written, but for the scheme, which is
    lowercased, and for the empty path, which becomes [/]. *)
Theorem normalizeURL_keeps_a_plain_url (scheme host path : string) :
  scheme ≠ "" → url.all_bytes url.is_letter scheme = true →
  host ≠ "" → url.all_bytes host_name_byte host = true →
  path = "" ∨ HasPrefix path "/" = true →
  url.all_bytes plain_path_byte path = true →
  normalizeURL (scheme +:+ "://" +:+ host +:+ path)
  = Some (ToLower scheme +:+ "://" +:+ host
          +:+ (if String.eqb path "" then "/" else path)).
Proof.
  intros Hscheme Hletters Hhost Hname Hpath Hplain.
  pose proof (Parse_plain scheme host path Hscheme Hletters Hhost Hname Hpath
                Hplain) as Hparse.
  destruct (normalizeURL (scheme +:+ "://" +:+ host +:+ path)) as [out|] eqn:E.
  - apply normalizeURL_shown in E as (u & Hu & _ & _ & ->).
    rewrite Hparse in Hu. injection Hu as <-. unfold shown.
    cbn [url.Scheme url.User url.Host url.Path url.ForceQuery url.RawQuery
         url.Fragment]. cbn [orb negb String.eqb].
    by rewrite !append_nil_r, append_nil_l.
  - unfold normalizeURL in E. rewrite Hparse in E.
    cbn [url.Scheme url.Host] in E.
    assert (Hlower : String.eqb (ToLower scheme) "" = false).
    { apply String.eqb_neq. by destruct scheme. }
    apply String.eqb_neq in Hhost. by rewrite Hlower, Hhost in E.
Qed.

(** The theorem on a URL without path and on one with a path. *)
Lemma normalizeURL_keeps_a_plain_url_witness :
  normalizeURL ("HTTPS" +:+ "://" +:+ "Example.org" +:+ "")
  = Some (ToLower "HTTPS" +:+ "://" +:+ "Example.org"
          +:+ (if String.eqb "" "" then "/" else ""))
  ∧ normalizeURL ("http" +:+ "://" +:+ "example.org" +:+ "/a/b-c.html")
    = Some (ToLower "http" +:+ "://" +:+ "example.org"
            +:+ (if String.eqb "/a/b-c.html" "" then "/" else "/a/b-c.html")).
Proof.
  split.
  - apply (normalizeURL_keeps_a_plain_url "HTTPS" "Example.org" "");
      first [by left | done].
  - apply (normalizeURL_keeps_a_plain_url "http" "example.org" "/a/b-c.html");
      first [by right | done].
Defined.
